(** * nr-stepfunction-fetcher: a shallow embedding and its properties

    The development follows the Go sources:
    - [stepfunctions/types.go]   the records [State], [Execution], [StateMachine];
    - the fetcher ([package stepfunctions]): [parseDefinition], [getExecutions],
      [getExpressExecutions], [getStateMachineDetails], [ListStateMachines];
    - [main.go]: [sanitizeFileName], [saveExecutionDefinition], [processExecutions]
      (module [Main]); [processStates], [saveStateDefinition], [saveToFile],
      [processStateMachines], [displayStateMachines], [createOutputDirectory],
      [initializeFetcherAndStateMachines], [main] (module [Program]).

    Go library functions the program calls ([strings.Replace], [time.Format],
    [time.Parse], [time.Duration.String], [json.Unmarshal]) are modelled in the
    modules [GoStrings], [GoTime] and [GoJSON]; the boundaries of each model are
    stated where it is defined. *)

From Stdlib Require Import ZArith Lia String Ascii List Bool.
From stdpp Require Import base option list gmap strings sorting.

Set Warnings "-register-all".

Local Open Scope Z_scope.

(** ** Go's [strings] package *)

Module GoStrings.

(** [strings.HasPrefix s prefix]. *)
Definition HasPrefix (s prefix : string) : bool := String.prefix prefix s.

(** The scanning loop of [strings.Replace] for a non-empty [old]: occurrences
    are found left to right and do not overlap.  [skip] counts the bytes of
    a matched occurrence that are still to be dropped, [budget] the
    replacements left ([None]: no limit). *)
Fixpoint replaceFrom (old new : string) (skip : nat) (budget : option nat)
    (s : string) : string :=
  match s with
  | EmptyString => EmptyString
  | String c s' =>
      match skip with
      | S k => replaceFrom old new k budget s'
      | O =>
          match budget with
          | Some O => s
          | _ =>
              if String.prefix old s
              then new +:+ replaceFrom old new (String.length old - 1)
                             (pred <$> budget) s'
              else String c (replaceFrom old new 0 budget s')
          end
      end
  end.

(** [strings.Replace s old new n]: the first [n] occurrences of [old] are
    replaced, all of them when [n < 0].  Both call sites of the program pass
    a non-empty [old]; the rune-wise insertion Go performs for an empty [old]
    is outside this model, which then returns [s]. *)
Definition Replace (s old new : string) (n : Z) : string :=
  if (String.eqb old new || (n =? 0))%bool then s
  else if String.eqb old EmptyString then s
  else replaceFrom old new 0 (if n <? 0 then None else Some (Z.to_nat n)) s.

(** [strings.ReplaceAll s old new = strings.Replace s old new (-1)]. *)
Definition ReplaceAll (s old new : string) : string := Replace s old new (-1).

(** The scanning loop of [strings.Split] for a non-empty separator: [acc]
    holds, reversed, the bytes of the piece being read. *)
Fixpoint splitFrom (sep : string) (skip : nat) (acc : string) (s : string)
    : list string :=
  match s with
  | EmptyString => [String.rev acc]
  | String c s' =>
      match skip with
      | S k => splitFrom sep k acc s'
      | O =>
          if String.prefix sep s
          then String.rev acc :: splitFrom sep (String.length sep - 1) EmptyString s'
          else splitFrom sep 0 (String c acc) s'
      end
  end.

(** [strings.Split s sep] for a non-empty [sep] (the program splits on
    ":log-group:" and on ":"). *)
Definition Split (s sep : string) : list string := splitFrom sep 0 EmptyString s.

End GoStrings.

(** ** Go's [time] package

    A [time.Time] is its Unix time in nanoseconds and a [time.Duration] its
    count of nanoseconds.  Every instant is rendered in UTC: the SDK hands out
    UTC times, and the process's local zone (used by [time.UnixMilli]) is
    taken to be UTC. *)

Module GoTime.

Definition Time : Type := Z.
Definition Duration : Type := Z.

Definition Second : Duration := 1000000000.
Definition minDuration : Duration := - 2 ^ 63.
Definition maxDuration : Duration := 2 ^ 63 - 1.

(** [time.UnixMilli msec]. *)
Definition UnixMilli (msec : Z) : Time := msec * 1000000.

(** [t.Unix()]: whole seconds since the epoch, rounded down. *)
Definition Unix (t : Time) : Z := t / Second.

(** The zero [time.Time]: January 1, year 1, 00:00:00 UTC. *)
Definition zeroTime : Time := -62135596800 * Second.

(** Proleptic Gregorian calendar, computed per 400-year era
    (146097 days) counted from March 1 of year 0. *)
Definition yearOfEra (doe : Z) : Z :=
  (doe - doe / 1460 + doe / 36524 - doe / 146096) / 365.

Definition dayOfYear (doe : Z) : Z :=
  let yoe := yearOfEra doe in doe - (365 * yoe + yoe / 4 - yoe / 100).

Definition civilFromDays (days : Z) : Z * Z * Z :=
  let z := days + 719468 in
  let era := z / 146097 in
  let doe := z mod 146097 in
  let yoe := yearOfEra doe in
  let doy := dayOfYear doe in
  let mp := (5 * doy + 2) / 153 in
  let d := doy - (153 * mp + 2) / 5 + 1 in
  let m := if mp <? 10 then mp + 3 else mp - 9 in
  (yoe + era * 400 + (if m <=? 2 then 1 else 0), m, d).

Definition daysFromCivil (y m d : Z) : Z :=
  let y' := y - (if m <=? 2 then 1 else 0) in
  let era := y' / 400 in
  let yoe := y' mod 400 in
  let doy := (153 * (if 2 <? m then m - 3 else m + 9) + 2) / 5 + d - 1 in
  era * 146097 + (yoe * 365 + yoe / 4 - yoe / 100 + doy) - 719468.

Definition isLeap (y : Z) : bool :=
  ((y mod 4 =? 0) && negb (y mod 100 =? 0)) || (y mod 400 =? 0).

Definition daysIn (m y : Z) : Z :=
  if m =? 2 then (if isLeap y then 29 else 28)
  else if (m =? 4) || (m =? 6) || (m =? 9) || (m =? 11) then 30 else 31.

(** Decimal digits. *)
Definition digitChar (d : Z) : ascii := ascii_of_nat (48 + Z.to_nat d).

Definition digitVal (c : ascii) : option Z :=
  let n := Z.of_nat (nat_of_ascii c) in
  if (48 <=? n) && (n <=? 57) then Some (n - 48) else None.

Fixpoint utoaLoop (fuel : nat) (u : Z) (acc : string) : string :=
  match fuel with
  | O => acc
  | S f =>
      let acc' := String (digitChar (u mod 10)) acc in
      if u / 10 =? 0 then acc' else utoaLoop f (u / 10) acc'
  end.

(** The decimal text of [u >= 0] (one digit at least). *)
Definition utoa (u : Z) : string :=
  utoaLoop (S (Z.to_nat (Z.log2 u))) u EmptyString.

Fixpoint zeros (n : nat) : string :=
  match n with O => EmptyString | S k => String "0" (zeros k) end.

(** [appendInt x width] of [time/format.go]: a minus sign for a negative
    [x], then the digits of [|x|] padded with zeros to [width]. *)
Definition appendInt (x : Z) (width : nat) : string :=
  let digits := utoa (Z.abs x) in
  (if x <? 0 then "-" else EmptyString)
    +:+ zeros (width - String.length digits) +:+ digits.

(** [t.Format(time.RFC3339)] in UTC: layout [2006-01-02T15:04:05Z07:00],
    which has no fractional seconds. *)
Definition FormatRFC3339 (t : Time) : string :=
  let sec := Unix t in
  let '(y, m, d) := civilFromDays (sec / 86400) in
  let rem := sec mod 86400 in
  appendInt y 4 +:+ "-" +:+ appendInt m 2 +:+ "-" +:+ appendInt d 2 +:+ "T"
    +:+ appendInt (rem / 3600) 2 +:+ ":" +:+ appendInt (rem mod 3600 / 60) 2
    +:+ ":" +:+ appendInt (rem mod 60) 2 +:+ "Z".

(** Reading a fixed number of digits, and one expected byte. *)
Fixpoint getDigits (n : nat) (acc : Z) (s : string) : option (Z * string) :=
  match n with
  | O => Some (acc, s)
  | S k =>
      match s with
      | EmptyString => None
      | String c s' => v ← digitVal c; getDigits k (10 * acc + v) s'
      end
  end.

Definition expect (c : ascii) (s : string) : option string :=
  match s with
  | String c' s' => if Ascii.eqb c c' then Some s' else None
  | EmptyString => None
  end.

(** [time.Parse(time.RFC3339, s)] on the texts this program parses: a
    four-digit year, two-digit fields, and the zone [Z].  Go also accepts a
    fraction of a second and a numeric zone offset; [FormatRFC3339] produces
    neither, and this model rejects them.  [None] stands for Go's error. *)
Definition ParseRFC3339 (s : string) : option Time :=
  '(y, s) ← getDigits 4 0 s; s ← expect "-" s;
  '(m, s) ← getDigits 2 0 s; s ← expect "-" s;
  '(d, s) ← getDigits 2 0 s; s ← expect "T" s;
  '(hh, s) ← getDigits 2 0 s; s ← expect ":" s;
  '(mi, s) ← getDigits 2 0 s; s ← expect ":" s;
  '(ss, s) ← getDigits 2 0 s; s ← expect "Z" s;
  if String.eqb s EmptyString
     && (1 <=? m) && (m <=? 12) && (1 <=? d) && (d <=? daysIn m y)
     && (hh <? 24) && (mi <? 60) && (ss <? 60)
  then Some ((daysFromCivil y m d * 86400 + hh * 3600 + mi * 60 + ss) * Second)
  else None.

(** [x, _ := time.Parse(...)]: the error is dropped and the zero [Time],
    which [Parse] returns with it, is used. *)
Definition parseOrZero (s : string) : Time := default zeroTime (ParseRFC3339 s).

(** [t.Sub(u)]: the difference, or the nearest bound of [Duration] when the
    difference does not fit an int64. *)
Definition Sub (t u : Time) : Duration :=
  Z.max minDuration (Z.min maxDuration (t - u)).

(** [fmtFrac]: the last [prec] digits of [v] as a fraction without trailing
    zeros (and without the point when they are all zero), and [v / 10^prec]. *)
Fixpoint fmtFracLoop (prec : nat) (v : Z) (print : bool) (acc : string)
    : string * Z * bool :=
  match prec with
  | O => (acc, v, print)
  | S p =>
      let digit := v mod 10 in
      let print' := print || negb (digit =? 0) in
      fmtFracLoop p (v / 10) print'
        (if print' then String (digitChar digit) acc else acc)
  end.

Definition fmtFrac (v : Z) (prec : nat) : string * Z :=
  let '(acc, v', print) := fmtFracLoop prec v false EmptyString in
  (if print then String "." acc else acc, v').

(** The micro sign, two bytes in UTF-8. *)
Definition microSign : string :=
  String (ascii_of_nat 194) (String (ascii_of_nat 181) EmptyString).

(** [d.String()], which [fmt.Sprintf("%v", d)] prints. *)
Definition DurationString (d : Duration) : string :=
  let u := Z.abs d in
  let body :=
    if u <? Second then
      if u =? 0 then "0s"
      else
        let '(prec, unit) :=
          if u <? 1000 then (0%nat, "ns")
          else if u <? 1000000 then (3%nat, microSign +:+ "s")
          else (6%nat, "ms") in
        let '(frac, w) := fmtFrac u prec in
        utoa w +:+ frac +:+ unit
    else
      let '(frac, secs) := fmtFrac u 9 in
      let s := utoa (secs mod 60) +:+ frac +:+ "s" in
      let mins := secs / 60 in
      if 0 <? mins then
        let m := utoa (mins mod 60) +:+ "m" +:+ s in
        let hours := mins / 60 in
        if 0 <? hours then utoa hours +:+ "h" +:+ m else m
      else s in
  if d <? 0 then "-" +:+ body else body.

End GoTime.

(** ** Errors and results

    A Go [error] value is kept by its kind and message: the two errors of
    [json.Unmarshal], an error of an AWS call, and [fmt.Errorf], without and
    with a wrapped cause ([%w]). *)

Inductive error : Type :=
  | SyntaxError
  | UnmarshalTypeError (value : string)
  | ServiceError (msg : string)
  | Errorf (msg : string)
  | Wrap (msg : string) (cause : error).

(** What a Go function with results [(A, error)] returns. *)
Inductive result (A : Type) : Type :=
  | Ok (a : A)
  | Err (e : error).
Arguments Ok {A} a.
Arguments Err {A} e.

Definition isErr {A} (r : result A) : bool :=
  match r with Err _ => true | Ok _ => false end.

(** What a call that may also panic produces: a panic is not an [error]
    value, it ends the program. *)
Inductive outcome (A : Type) : Type :=
  | Done (r : result A)
  | Panic (reason : string).
Arguments Done {A} r.
Arguments Panic {A} reason.

(** ** Go's [encoding/json], as far as [json.Unmarshal] is used *)

Module GoJSON.

(** The syntax tree of a valid JSON text: strings are already unquoted, a
    number keeps its literal, and the members of an object stay in textual
    order, repeated keys included. *)
Inductive json : Type :=
  | JNull
  | JBool (b : bool)
  | JNumber (lit : string)
  | JString (s : string)
  | JArray (elems : list json)
  | JObject (members : list (string * json)).

(** A JSON text after [checkValid]: [None] when the text is malformed. *)
Definition document : Type := option json.

(** What [Unmarshal] stores in an [interface{}]: [nil], [bool], [float64]
    (kept as the literal it was converted from), [string], [[]interface{}]
    and [map[string]interface{}]. *)
Inductive value : Type :=
  | VNil
  | VBool (b : bool)
  | VFloat64 (lit : string)
  | VString (s : string)
  | VSlice (elems : list value)
  | VMap (m : gmap string value).

(** The name Go prints for the kind of a JSON value in an
    [UnmarshalTypeError]. *)
Definition kindName (j : json) : string :=
  match j with
  | JNull => "null"
  | JBool _ => "bool"
  | JNumber _ => "number"
  | JString _ => "string"
  | JArray _ => "array"
  | JObject _ => "object"
  end.

(** *** Number literals

    [convertNumber] calls [strconv.ParseFloat(lit, 64)], which fails exactly
    when the literal rounds to an infinity: when its magnitude is at least
    [2^1024 - 2^970].  A literal is read as [mant * 10^exp10]. *)
Fixpoint readDigits (s : string) (acc : Z) (count : Z) : Z * Z * string :=
  match s with
  | String c s' =>
      match GoTime.digitVal c with
      | Some v => readDigits s' (10 * acc + v) (count + 1)
      | None => (acc, count, s)
      end
  | EmptyString => (acc, count, s)
  end.

Definition readSign (s : string) : bool * string :=
  match s with
  | String "-" s' => (true, s')
  | String "+" s' => (false, s')
  | _ => (false, s)
  end.

Definition parseNumber (lit : string) : option (Z * Z) :=
  let s := match lit with String "-" s' => s' | _ => lit end in
  let '(ip, n, s) := readDigits s 0 0 in
  if n =? 0 then None else
  let '(mant, fl, s) :=
    match s with
    | String "." s' => let '(m, k, s'') := readDigits s' ip 0 in (m, k, s'')
    | _ => (ip, 0, s)
    end in
  match s with
  | EmptyString => Some (mant, - fl)
  | String c s' =>
      if Ascii.eqb c "e" || Ascii.eqb c "E" then
        let '(neg, s'') := readSign s' in
        let '(e, k, rest) := readDigits s'' 0 0 in
        if (k =? 0) || negb (String.eqb rest EmptyString) then None
        else Some (mant, (if neg then - e else e) - fl)
      else None
  end.

Definition float64Limit : Z := 2 ^ 1024 - 2 ^ 970.

Definition inFloat64Range (lit : string) : bool :=
  match parseNumber lit with
  | Some (mant, exp10) =>
      if 0 <=? exp10 then mant * 10 ^ exp10 <? float64Limit
      else mant <? float64Limit * 10 ^ (- exp10)
  | None => false
  end.

(** *** Decoding into [interface{}]

    Go records the first error with [saveError], keeps decoding and returns
    that error at the end; [parseDefinition] then drops whatever was decoded.
    The model stops at the first error instead. *)
Fixpoint valueInterface (j : json) : result value :=
  match j with
  | JNull => Ok VNil
  | JBool b => Ok (VBool b)
  | JString s => Ok (VString s)
  | JNumber lit =>
      if inFloat64Range lit then Ok (VFloat64 lit)
      else Err (UnmarshalTypeError ("number " +:+ lit))
  | JArray elems =>
      (fix arrayInterface (l : list json) (acc : list value) : result value :=
         match l with
         | [] => Ok (VSlice (rev acc))
         | x :: rest =>
             match valueInterface x with
             | Ok v => arrayInterface rest (v :: acc)
             | Err e => Err e
             end
         end) elems []
  | JObject members =>
      (fix objectInterface (l : list (string * json)) (m : gmap string value)
           : result value :=
         match l with
         | [] => Ok (VMap m)
         | (key, x) :: rest =>
             match valueInterface x with
             | Ok v => objectInterface rest (<[key := v]> m)
             | Err e => Err e
             end
         end) members ∅
  end.

(** Decoding the members of an object into a [map[string]interface{}] that
    already holds [m]: a repeated key overwrites. *)
Fixpoint objectInto (members : list (string * json)) (m : gmap string value)
    : result (gmap string value) :=
  match members with
  | [] => Ok m
  | (key, x) :: rest =>
      match valueInterface x with
      | Ok v => objectInto rest (<[key := v]> m)
      | Err e => Err e
      end
  end.

(** A Go map is [nil] ([None]) or holds entries. *)
Definition goMap (A : Type) : Type := option (gmap string A).

(** Decoding one JSON value into a fresh [map[string]interface{}]. *)
Definition decodeRawState (j : json) : result (goMap value) :=
  match j with
  | JNull => Ok None
  | JObject members =>
      match objectInto members ∅ with
      | Ok m => Ok (Some m)
      | Err e => Err e
      end
  | _ => Err (UnmarshalTypeError (kindName j))
  end.

(** Decoding the members of an object into a
    [map[string]map[string]interface{}] that already holds [m]: every
    element starts from the zero value of its type. *)
Fixpoint statesInto (members : list (string * json))
    (m : gmap string (goMap value)) : result (gmap string (goMap value)) :=
  match members with
  | [] => Ok m
  | (key, x) :: rest =>
      match decodeRawState x with
      | Ok raw => statesInto rest (<[key := raw]> m)
      | Err e => Err e
      end
  end.

(** Storing one JSON value in the field [States], which holds [cur]:
    [null] resets the field to [nil]; an object adds to the map in place. *)
Definition decodeStatesField (j : json) (cur : goMap (goMap value))
    : result (goMap (goMap value)) :=
  match j with
  | JNull => Ok None
  | JObject members =>
      match statesInto members (default ∅ cur) with
      | Ok m => Ok (Some m)
      | Err e => Err e
      end
  | _ => Err (UnmarshalTypeError (kindName j))
  end.

(** [foldName]: the case folding under which object keys are matched to
    struct fields.  ASCII letters go to upper case; of the other runes only
    the long s (bytes 197 191) and the Kelvin sign (bytes 226 132 170) fold
    to an ASCII letter, [S] and [K]. *)
Definition upperAscii (c : ascii) : ascii :=
  let n := nat_of_ascii c in
  if (97 <=? n)%nat && (n <=? 122)%nat then ascii_of_nat (n - 32) else c.

Definition longS : string :=
  String (ascii_of_nat 197) (String (ascii_of_nat 191) EmptyString).

Definition kelvinSign : string :=
  String (ascii_of_nat 226)
    (String (ascii_of_nat 132) (String (ascii_of_nat 170) EmptyString)).

Fixpoint foldName (s : string) : string :=
  match s with
  | EmptyString => EmptyString
  | String c s' =>
      if String.prefix longS s then
        String "S" (match s' with String _ r => foldName r | _ => EmptyString end)
      else if String.prefix kelvinSign s then
        String "K" (match s' with
                    | String _ (String _ r) => foldName r
                    | _ => EmptyString
                    end)
      else String (upperAscii c) (foldName s')
  end.

(** Does the key select the field tagged [json:"States"]? *)
Definition isStatesKey (key : string) : bool :=
  String.eqb (foldName key) "STATES".

(** The members of the top-level object, in order, into
    [struct { States map[string]map[string]interface{} }]; members that
    select no field are skipped. *)
Fixpoint structInto (members : list (string * json))
    (cur : goMap (goMap value)) : result (goMap (goMap value)) :=
  match members with
  | [] => Ok cur
  | (key, x) :: rest =>
      if isStatesKey key then
        match decodeStatesField x cur with
        | Ok cur' => structInto rest cur'
        | Err e => Err e
        end
      else structInto rest cur
  end.

(** [json.Unmarshal([]byte(definition), &aslDef)]: the field [States] of
    [aslDef] afterwards, or the error. *)
Definition UnmarshalAslDef (definition : document) : result (goMap (goMap value)) :=
  match definition with
  | None => Err SyntaxError
  | Some JNull => Ok None
  | Some (JObject members) => structInto members None
  | Some j => Err (UnmarshalTypeError (kindName j))
  end.

End GoJSON.

(** ** [stepfunctions/types.go] *)

(** [Execution] represents an execution of a state machine. *)
Module Execution.
Record t : Type := mk {
  ExecutionArn : string;
  Status : string;
  StartTime : string;
  EndTime : string;
  Duration : string
}.
End Execution.

(** [State] represents an individual state in the state machine ([Type_] and
    [End_] are the fields [Type] and [End]). *)
Module State.
Record t : Type := mk {
  Name : string;
  Type_ : string;
  Next : string;
  End_ : bool;
  Parameters : GoJSON.goMap GoJSON.value;
  RawDefinition : GoJSON.goMap GoJSON.value
}.
End State.

(** [StateMachine] represents a Step Functions state machine; the field
    [Definition] holds the ASL text, here as a [GoJSON.document]. *)
Module StateMachine.
Record t : Type := mk {
  Name : string;
  ARN : string;
  RoleARN : string;
  Definition_ : GoJSON.document;
  States : list State.t;
  Executions : list Execution.t;
  CreationDate : string;
  Type_ : string
}.
End StateMachine.

(** ** The environment

    The order in which a [for ... range] loop visits a map is chosen by the
    Go runtime: any order, each entry once. *)
Record RangeOrder : Type := {
  rangeOf : forall A : Type, gmap string A -> list (string * A);
  rangeOf_perm : forall (A : Type) (m : gmap string A), rangeOf A m ≡ₚ map_to_list m
}.
Arguments rangeOf _ {A} m.

Definition canonicalOrder : RangeOrder :=
  {| rangeOf := fun A m => map_to_list m;
     rangeOf_perm := fun A m => reflexivity (map_to_list m) |}.

(** The parts of the AWS SDK's data the program reads.  A pointer the code
    dereferences without a test ([*result.Name], [descResult.StartDate], ...)
    is taken to be set; a pointer it tests, or may find [nil], is an
    [option]. *)
Module sfn.

Record CloudWatchLogsLogGroup : Type := { LogGroupArn : option string }.
Record LogDestination : Type := {
  CloudWatchLogsLogGroup_ : option CloudWatchLogsLogGroup
}.
Record LoggingConfiguration : Type := { Destinations : list LogDestination }.

Record DescribeStateMachineOutput : Type := {
  Name : string;
  StateMachineArn : string;
  RoleArn : string;
  Definition_ : GoJSON.document;
  Type_ : string;
  LoggingConfiguration_ : option LoggingConfiguration;
  CreationDate : GoTime.Time
}.

Record DescribeExecutionOutput : Type := {
  ExecutionArn : string;
  Status : string;
  StartDate : GoTime.Time;
  StopDate : option GoTime.Time
}.

End sfn.

(** The local type [logEvent] of [getExpressExecutions]. *)
Module logEvent.
Record t : Type := mk {
  EventType : string;
  ExecutionArn : string;
  Timestamp : Z;
  Status : string
}.
End logEvent.

(** The answers of the AWS services.  A paginator is the list of its pages,
    each a page or the error of [NextPage]; a list entry is given by its ARN.
    A log event is given by what [json.Unmarshal] makes of its message:
    the decoded [logEvent] or the error. *)
Record AWS : Type := {
  ListStateMachinesPages : list (result (list string));
  DescribeStateMachine : string -> result sfn.DescribeStateMachineOutput;
  ListExecutionsPages : string -> list (result (list string));
  DescribeExecution : string -> result sfn.DescribeExecutionOutput;
  FilterLogEvents : string -> result (list (result logEvent.t))
}.

(** ** The fetcher ([package stepfunctions])

    The functions are given by what they return (or by their panic).  The
    [Debug] and [Warning] lines they print with [fmt.Printf] on the way are
    not computed here; a run takes them from its environment
    ([Program.fetcherOutput]). *)

Module Fetcher.

Import GoJSON.

(** [v, _ := rawDef[key].(string)] and its siblings: the zero value unless
    the entry is there and has the asserted type. *)
Definition index (rawDef : goMap value) (key : string) : option value :=
  match rawDef with Some m => m !! key | None => None end.

Definition assertString (v : option value) : string :=
  match v with Some (VString s) => s | _ => EmptyString end.

Definition assertBool (v : option value) : bool :=
  match v with Some (VBool b) => b | _ => false end.

Definition assertMap (v : option value) : goMap value :=
  match v with Some (VMap m) => Some m | _ => None end.

(** The body of the loop [for name, rawDef := range aslDef.States]. *)
Definition stateOf (entry : string * goMap value) : State.t :=
  let '(name, rawDef) := entry in
  {| State.Name := name;
     State.Type_ := assertString (index rawDef "Type");
     State.Next := assertString (index rawDef "Next");
     State.End_ := assertBool (index rawDef "End");
     State.Parameters := assertMap (index rawDef "Parameters");
     State.RawDefinition := rawDef |}.

(** [parseDefinition]. *)
Definition parseDefinition (ro : RangeOrder) (definition : document)
    : result (list State.t) :=
  match UnmarshalAslDef definition with
  | Err e => Err (Wrap "failed to unmarshal ASL definition" e)
  | Ok aslDefStates =>
      Ok (map stateOf (rangeOf ro (default ∅ aslDefStates)))
  end.

(** The record [getExecutions] appends for one described execution. *)
Definition executionOf (descResult : sfn.DescribeExecutionOutput) : Execution.t :=
  let '(endTime, duration) :=
    match sfn.StopDate descResult with
    | Some stopDate =>
        let endTime := GoTime.FormatRFC3339 stopDate in
        let start := GoTime.parseOrZero (GoTime.FormatRFC3339 (sfn.StartDate descResult)) in
        let end_ := GoTime.parseOrZero endTime in
        let dur := GoTime.Sub end_ start in
        (endTime, GoTime.DurationString dur)
    | None => (EmptyString, "N/A"%string)
    end in
  {| Execution.ExecutionArn := sfn.ExecutionArn descResult;
     Execution.Status := sfn.Status descResult;
     Execution.StartTime := GoTime.FormatRFC3339 (sfn.StartDate descResult);
     Execution.EndTime := endTime;
     Execution.Duration := duration |}.

(** The inner loop of [getExecutions], over one page: an execution whose
    describe call fails is skipped. *)
Fixpoint describePage (aws : AWS) (page : list string)
    (executions : list Execution.t) : list Execution.t :=
  match page with
  | [] => executions
  | execArn :: rest =>
      match DescribeExecution aws execArn with
      | Ok descResult => describePage aws rest (executions ++ [executionOf descResult])
      | Err _ => describePage aws rest executions
      end
  end.

(** The outer loop of [getExecutions], over the pages. *)
Fixpoint describePages (aws : AWS) (pages : list (result (list string)))
    (executions : list Execution.t) : result (list Execution.t) :=
  match pages with
  | [] => Ok executions
  | Ok page :: rest => describePages aws rest (describePage aws page executions)
  | Err e :: _ => Err (Wrap "failed to list executions" e)
  end.

(** [getExecutions]. *)
Definition getExecutions (aws : AWS) (stateMachineArn : string)
    : result (list Execution.t) :=
  describePages aws (ListExecutionsPages aws stateMachineArn) [].

(** The body of the loop [for _, event := range result.Events] on the
    correlation table [executionMap]. *)
Definition correlateStep (executionMap : gmap string Execution.t)
    (event : result logEvent.t) : gmap string Execution.t :=
  match event with
  | Ok log =>
      let timestamp := GoTime.FormatRFC3339 (GoTime.UnixMilli (logEvent.Timestamp log)) in
      match executionMap !! logEvent.ExecutionArn log with
      | None =>
          if String.eqb (logEvent.EventType log) "ExecutionStarted" then
            <[logEvent.ExecutionArn log :=
                {| Execution.ExecutionArn := logEvent.ExecutionArn log;
                   Execution.Status := "RUNNING";
                   Execution.StartTime := timestamp;
                   Execution.EndTime := EmptyString;
                   Execution.Duration := "N/A" |}]> executionMap
          else executionMap
      | Some exec =>
          if GoStrings.HasPrefix (logEvent.EventType log) "Execution"
             && negb (String.eqb (logEvent.EventType log) "ExecutionStarted")
          then
            let start := GoTime.parseOrZero (Execution.StartTime exec) in
            let end_ := GoTime.parseOrZero timestamp in
            <[logEvent.ExecutionArn log :=
                {| Execution.ExecutionArn := Execution.ExecutionArn exec;
                   Execution.Status :=
                     GoStrings.Replace (logEvent.EventType log) "Execution" EmptyString 1;
                   Execution.StartTime := Execution.StartTime exec;
                   Execution.EndTime := timestamp;
                   Execution.Duration := GoTime.DurationString (GoTime.Sub end_ start) |}]>
              executionMap
          else executionMap
      end
  | _ => executionMap
  end.

(** The correlation table after all events. *)
Definition correlate (events : list (result logEvent.t)) : gmap string Execution.t :=
  fold_left correlateStep events ∅.

(** The loop [for _, exec := range executionMap] that copies the records
    out of the table. *)
Definition collect (ro : RangeOrder) (executionMap : gmap string Execution.t)
    : list Execution.t :=
  map snd (rangeOf ro executionMap).

(** [strings.Split(arn, ":log-group:")[1]], then [strings.Split(_, ":")[0]];
    indexing past the end of a slice panics. *)
Definition logGroupNameOf (logGroupArn : string) : option string :=
  match GoStrings.Split logGroupArn ":log-group:" with
  | _ :: logGroupName :: _ => head (GoStrings.Split logGroupName ":")
  | _ => None
  end.

(** [getExpressExecutions]. *)
Definition getExpressExecutions (ro : RangeOrder) (aws : AWS)
    (sm : sfn.DescribeStateMachineOutput) : outcome (list Execution.t) :=
  match sfn.LoggingConfiguration_ sm with
  | None =>
      Done (Err (Errorf ("logging not enabled for Express Workflow " +:+ sfn.Name sm)))
  | Some cfg =>
      match sfn.Destinations cfg with
      | [] =>
          Done (Err (Errorf ("logging not enabled for Express Workflow " +:+ sfn.Name sm)))
      | dest :: _ =>
          match sfn.CloudWatchLogsLogGroup_ dest with
          | None => Panic "nil pointer dereference"
          | Some group =>
              match sfn.LogGroupArn group with
              | None =>
                  Done (Err (Errorf ("no CloudWatch Log Group configured for "
                                       +:+ sfn.Name sm)))
              | Some logGroupArn =>
                  match logGroupNameOf logGroupArn with
                  | None => Panic "index out of range"
                  | Some logGroupName =>
                      match FilterLogEvents aws logGroupName with
                      | Ok events =>
                          Done (Ok (collect ro (correlate events)))
                      | Err e =>
                          Done (Err (Wrap ("failed to query CloudWatch Logs for "
                                             +:+ sfn.Name sm) e))
                      end
                  end
              end
          end
      end
  end.

(** The placeholder record for executions that cannot be fetched. *)
Definition sentinel (status : string) : Execution.t :=
  {| Execution.ExecutionArn := "N/A";
     Execution.Status := status;
     Execution.StartTime := EmptyString;
     Execution.EndTime := EmptyString;
     Execution.Duration := "N/A" |}.

(** The branch [if smType == "EXPRESS" ... else if smType == "STANDARD" ...
    else ...] of [getStateMachineDetails]: the executions, or the error the
    function returns with. *)
Definition fetchExecutions (ro : RangeOrder) (aws : AWS) (arn : string)
    (result : sfn.DescribeStateMachineOutput) : outcome (list Execution.t) :=
  let smType := sfn.Type_ result in
  if String.eqb smType "EXPRESS" then
    match getExpressExecutions ro aws result with
    | Done (Ok executions) => Done (Ok executions)
    | Done (Err _) =>
        Done (Ok [sentinel "Not supported (check CloudWatch Logs configuration)"])
    | Panic r => Panic r
    end
  else if String.eqb smType "STANDARD" then
    match getExecutions aws arn with
    | Ok executions => Done (Ok executions)
    | Err e => Done (Err (Wrap ("failed to fetch executions for " +:+ arn) e))
    end
  else Done (Ok [sentinel ("Unknown state machine type: " +:+ smType)]).

(** [getStateMachineDetails]. *)
Definition getStateMachineDetails (ro : RangeOrder) (aws : AWS) (arn : string)
    : outcome StateMachine.t :=
  match DescribeStateMachine aws arn with
  | Err e => Done (Err (Wrap ("failed to describe state machine " +:+ arn) e))
  | Ok result =>
      match parseDefinition ro (sfn.Definition_ result) with
      | Err e => Done (Err (Wrap ("failed to parse definition for " +:+ arn) e))
      | Ok states =>
          match fetchExecutions ro aws arn result with
          | Panic r => Panic r
          | Done (Err e) => Done (Err e)
          | Done (Ok executions) =>
              Done (Ok {| StateMachine.Name := sfn.Name result;
                          StateMachine.ARN := sfn.StateMachineArn result;
                          StateMachine.RoleARN := sfn.RoleArn result;
                          StateMachine.Definition_ := sfn.Definition_ result;
                          StateMachine.States := states;
                          StateMachine.Executions := executions;
                          StateMachine.CreationDate :=
                            GoTime.FormatRFC3339 (sfn.CreationDate result);
                          StateMachine.Type_ := sfn.Type_ result |})
          end
      end
  end.

(** The inner loop of [ListStateMachines]: a machine whose details cannot be
    fetched is skipped. *)
Fixpoint detailsOfPage (ro : RangeOrder) (aws : AWS) (page : list string)
    (stateMachines : list StateMachine.t) : outcome (list StateMachine.t) :=
  match page with
  | [] => Done (Ok stateMachines)
  | arn :: rest =>
      match getStateMachineDetails ro aws arn with
      | Done (Ok details) => detailsOfPage ro aws rest (stateMachines ++ [details])
      | Done (Err _) => detailsOfPage ro aws rest stateMachines
      | Panic r => Panic r
      end
  end.

(** The outer loop of [ListStateMachines], over the pages. *)
Fixpoint detailsOfPages (ro : RangeOrder) (aws : AWS)
    (pages : list (result (list string))) (stateMachines : list StateMachine.t)
    : outcome (list StateMachine.t) :=
  match pages with
  | [] => Done (Ok stateMachines)
  | Ok page :: rest =>
      match detailsOfPage ro aws page stateMachines with
      | Done (Ok stateMachines') => detailsOfPages ro aws rest stateMachines'
      | other => other
      end
  | Err e :: _ => Done (Err (Wrap "failed to list state machines" e))
  end.

(** [ListStateMachines]. *)
Definition ListStateMachines (ro : RangeOrder) (aws : AWS)
    : outcome (list StateMachine.t) :=
  detailsOfPages ro aws (ListStateMachinesPages aws) [].

End Fetcher.

(** ** [main.go] *)

Module Main.

Definition quoteChar : string := String (ascii_of_nat 34) EmptyString.

(** [invalidChars]: slash, backslash, colon, star, question mark, double
    quote, less-than, greater-than and vertical bar, in the source's order. *)
Definition invalidChars : list string :=
  ["/"; "\"; ":"; "*"; "?"; quoteChar; "<"; ">"; "|"]%string.

(** [sanitizeFileName]: the loop [for _, char := range invalidChars] rewrites
    [result] once per entry. *)
Definition sanitizeFileName (name : string) : string :=
  fold_left (fun result char => GoStrings.ReplaceAll result char "_") invalidChars name.

(** The bytes [json.MarshalIndent] produces, named by the value they encode. *)
Inductive payload : Type :=
  | ExecutionJSON (exec : Execution.t).

(** [json.MarshalIndent(exec, "", "  ")]: a struct of five strings always
    marshals. *)
Definition MarshalIndent (exec : Execution.t) : result payload :=
  Ok (ExecutionJSON exec).

(** [filepath.Join(dir, file)], without the cleaning of the joined path. *)
Definition Join (dir file : string) : string := dir +:+ "/" +:+ file.

(** What the process has printed, in order. *)
Inductive output : Type :=
  | Printed (text : string)
  | Logged (text : string) (err : error)
  | Rendered (header : list string) (rows : list (list string)).

(** The file system and the console: every call of [os.WriteFile] in order,
    the files the successful calls left, and the console. *)
Record world : Type := {
  writeCalls : list (string * payload);
  files : gmap string payload;
  console : list output
}.

(** Whether [os.WriteFile] fails on a path is the operating system's
    choice. *)
Definition FileSystem : Type := string -> option error.

(** [os.WriteFile(filePath, data, 0644)]. *)
Definition WriteFile (fs : FileSystem) (filePath : string) (data : payload)
    (w : world) : option error * world :=
  match fs filePath with
  | Some e =>
      (Some e, {| writeCalls := writeCalls w ++ [(filePath, data)];
                  files := files w;
                  console := console w |})
  | None =>
      (None, {| writeCalls := writeCalls w ++ [(filePath, data)];
                files := <[filePath := data]> (files w);
                console := console w |})
  end.

Definition logPrintf (text : string) (err : error) (w : world) : world :=
  {| writeCalls := writeCalls w; files := files w;
     console := console w ++ [Logged text err] |}.

Definition emit (o : output) (w : world) : world :=
  {| writeCalls := writeCalls w; files := files w; console := console w ++ [o] |}.

(** [saveExecutionDefinition]. *)
Definition saveExecutionDefinition (fs : FileSystem)
    (outputDir smName executionArn : string) (definition : payload) (w : world)
    : option error * world :=
  let safeExecName := sanitizeFileName (GoStrings.ReplaceAll executionArn ":" "_") in
  let filePath := Join outputDir (smName +:+ "_execution_" +:+ safeExecName +:+ ".json") in
  WriteFile fs filePath definition w.

(** The body of the loop of [processExecutions]: [rows] are the rows
    appended to [execTable] so far. *)
Definition processExecution (fs : FileSystem) (outputDir smName : string)
    (acc : list (list string) * world) (exec : Execution.t)
    : list (list string) * world :=
  let '(rows, w) := acc in
  let rows' :=
    rows ++ [[Execution.ExecutionArn exec; Execution.Status exec;
              Execution.StartTime exec; Execution.EndTime exec;
              Execution.Duration exec]] in
  if negb (String.eqb (Execution.ExecutionArn exec) "N/A") then
    match MarshalIndent exec with
    | Err err =>
        (rows', logPrintf ("Failed to marshal execution " +:+ Execution.ExecutionArn exec) err w)
    | Ok execData =>
        match saveExecutionDefinition fs outputDir smName
                (Execution.ExecutionArn exec) execData w with
        | (Some err, w') =>
            (rows', logPrintf ("Failed to save execution " +:+ Execution.ExecutionArn exec) err w')
        | (None, w') => (rows', w')
        end
    end
  else (rows', w).

(** [processExecutions]. *)
Definition processExecutions (fs : FileSystem) (sm : StateMachine.t)
    (outputDir : string) (w : world) : world :=
  let '(rows, w1) :=
    fold_left (processExecution fs outputDir (StateMachine.Name sm))
      (StateMachine.Executions sm) ([], w) in
  let w2 := emit (Printed ("Executions for " +:+ StateMachine.Name sm +:+ ":")) w1 in
  let w3 :=
    emit (Rendered ["Execution ARN"; "Status"; "Start Time"; "End Time"; "Duration"]%string
            rows) w2 in
  emit (Printed EmptyString) w3.

End Main.

(** ** [main.go]: the states, the collection file and the program *)

Module Program.

Import GoJSON.

(** The bytes of a file: the JSON of an execution, as [Main.payload] names
    it, or the text an encoder produced. *)
Inductive content : Type :=
  | ExecutionData (data : Main.payload)
  | Bytes (data : string).

(** The file system and the console of the whole run: every call of
    [os.WriteFile] in order, the files the successful calls left, the
    console, and the directories the successful calls of [os.MkdirAll]
    were asked for. *)
Record world : Type := {
  writeCalls : list (string * content);
  files : gmap string content;
  console : list Main.output;
  directories : list string
}.

(** Whether [os.WriteFile] and [os.MkdirAll] fail on a path is the operating
    system's choice. *)
Record OS : Type := {
  writeFile : Main.FileSystem;
  mkdirAll : string -> option error
}.

(** [json.MarshalIndent(_, "", "  ")] on a raw state definition and on the
    collection of state machines: the text, or the error. *)
Record Encoder : Type := {
  marshalDefinition : goMap value -> result string;
  marshalStateMachines : list StateMachine.t -> result string
}.

(** [os.WriteFile(filePath, data, 0644)]. *)
Definition WriteFile (os : OS) (filePath : string) (data : content) (w : world)
    : option error * world :=
  match writeFile os filePath with
  | Some e =>
      (Some e, {| writeCalls := writeCalls w ++ [(filePath, data)];
                  files := files w;
                  console := console w;
                  directories := directories w |})
  | None =>
      (None, {| writeCalls := writeCalls w ++ [(filePath, data)];
                files := <[filePath := data]> (files w);
                console := console w;
                directories := directories w |})
  end.

Definition emit (o : Main.output) (w : world) : world :=
  {| writeCalls := writeCalls w; files := files w;
     console := console w ++ [o]; directories := directories w |}.

Definition logPrintf (text : string) (err : error) (w : world) : world :=
  emit (Main.Logged text err) w.

(** [saveStateDefinition]. *)
Definition saveStateDefinition (os : OS) (outputDir smName stateName : string)
    (definition : string) (w : world) : option error * world :=
  let safeStateName := Main.sanitizeFileName stateName in
  let filePath := Main.Join outputDir (smName +:+ "_" +:+ safeStateName +:+ ".json") in
  WriteFile os filePath (Bytes definition) w.

(** [fmt.Sprintf("%v", b)] on a boolean. *)
Definition formatBool (b : bool) : string := if b then "true" else "false".

(** The cell of the column [Definition]: [defStr], cut to
    [defStr[:97] + "..."] when [len(defStr) > 100]. *)
Definition definitionCell (rawDef : string) : string :=
  let defStr := rawDef in
  if (100 <? String.length defStr)%nat
  then String.substring 0 97 defStr +:+ "..."
  else defStr.

(** The body of the loop of [processStates]: [rows] are the rows appended to
    [stateTable] so far.  A state whose definition does not marshal is
    logged and left out of the table ([continue]). *)
Definition processState (enc : Encoder) (os : OS) (outputDir smName : string)
    (acc : list (list string) * world) (state : State.t)
    : list (list string) * world :=
  let '(rows, w) := acc in
  match marshalDefinition enc (State.RawDefinition state) with
  | Err err =>
      (rows, logPrintf ("Failed to marshal state definition for " +:+ State.Name state)
               err w)
  | Ok rawDef =>
      let rows' :=
        rows ++ [[State.Name state; State.Type_ state; State.Next state;
                  formatBool (State.End_ state); definitionCell rawDef]] in
      match saveStateDefinition os outputDir smName (State.Name state) rawDef w with
      | (Some err, w') =>
          (rows', logPrintf ("Failed to save state definition for " +:+ smName
                               +:+ "/" +:+ State.Name state) err w')
      | (None, w') => (rows', w')
      end
  end.

(** [processStates]. *)
Definition processStates (enc : Encoder) (os : OS) (sm : StateMachine.t)
    (outputDir : string) (w : world) : world :=
  let '(rows, w1) :=
    fold_left (processState enc os outputDir (StateMachine.Name sm))
      (StateMachine.States sm) ([], w) in
  let w2 := emit (Main.Printed ("States for " +:+ StateMachine.Name sm +:+ ":")) w1 in
  let w3 :=
    emit (Main.Rendered ["State Name"; "Type"; "Next"; "End"; "Definition"]%string rows)
      w2 in
  emit (Main.Printed EmptyString) w3.

(** [processExecutions] in this world: what [Main.processExecutions] writes
    and prints, starting from nothing, comes after what the run has written
    and printed. *)
Definition processExecutions (os : OS) (sm : StateMachine.t) (outputDir : string)
    (w : world) : world :=
  let e :=
    Main.processExecutions (writeFile os) sm outputDir
      {| Main.writeCalls := []; Main.files := ∅; Main.console := [] |} in
  {| writeCalls :=
       writeCalls w ++ map (fun call => (fst call, ExecutionData (snd call)))
                         (Main.writeCalls e);
     files := (ExecutionData <$> Main.files e) ∪ files w;
     console := console w ++ Main.console e;
     directories := directories w |}.

(** [saveToFile]. *)
Definition saveToFile (enc : Encoder) (os : OS) (stateMachines : list StateMachine.t)
    (filename : string) (w : world) : option error * world :=
  match marshalStateMachines enc stateMachines with
  | Err err => (Some (Wrap "failed to marshal state machines" err), w)
  | Ok data => WriteFile os filename (Bytes data) w
  end.

(** [processStateMachines]. *)
Definition processStateMachines (enc : Encoder) (os : OS)
    (stateMachines : list StateMachine.t) (outputDir : string) (w : world) : world :=
  let w1 :=
    fold_left (fun w sm => processExecutions os sm outputDir
                             (processStates enc os sm outputDir w))
      stateMachines w in
  match saveToFile enc os stateMachines (Main.Join outputDir "state_machines.json") w1 with
  | (Some err, w2) => logPrintf "Failed to save state machines" err w2
  | (None, w2) => w2
  end.

(** [displayStateMachines]. *)
Definition displayStateMachines (stateMachines : list StateMachine.t) (w : world)
    : world :=
  let rows :=
    map (fun sm => [StateMachine.Name sm; StateMachine.ARN sm; StateMachine.Type_ sm;
                    StateMachine.RoleARN sm; StateMachine.CreationDate sm])
      stateMachines in
  let w1 := emit (Main.Printed "State Machines:") w in
  let w2 :=
    emit (Main.Rendered ["Name"; "ARN"; "Type"; "Role ARN"; "Creation Date"]%string rows)
      w1 in
  emit (Main.Printed EmptyString) w2.

(** How a step of [main] ends: it returns, [log.Fatalf] ends the process
    after logging, or a panic does. *)
Inductive step (A : Type) : Type :=
  | Returns (a : A) (w : world)
  | Fatal (w : world)
  | Panics (reason : string) (w : world).
Arguments Returns {A} a w.
Arguments Fatal {A} w.
Arguments Panics {A} reason w.

(** What the run is given: the services [config.LoadDefaultConfig] reaches
    for a region, or its error; the operating system; the encoder; the
    order of the map loops; and the lines the fetcher prints while it lists
    the machines.  [Fetcher] computes what the functions of
    [package stepfunctions] return; the [Debug] and [Warning] lines they
    print with [fmt.Printf] on the way are taken from [fetcherOutput], up to
    the point where [ListStateMachines] returns or panics. *)
Record Env : Type := {
  LoadDefaultConfig : string -> result AWS;
  os : OS;
  encoder : Encoder;
  order : RangeOrder;
  fetcherOutput : list string
}.

(** The lines of [fetcherOutput], printed. *)
Definition printFetcherOutput (env : Env) (w : world) : world :=
  fold_left (fun w text => emit (Main.Printed text) w) (fetcherOutput env) w.

(** [NewFetcher]: the fetcher is given by the services its clients reach. *)
Definition NewFetcher (env : Env) (region : string) : result AWS :=
  match LoadDefaultConfig env region with
  | Err err => Err (Wrap "failed to load AWS config" err)
  | Ok cfg => Ok cfg
  end.

(** [initializeFetcherAndStateMachines]: what the fetcher prints comes
    before the outcome of the listing. *)
Definition initializeFetcherAndStateMachines (env : Env) (region : string) (w : world)
    : step (AWS * list StateMachine.t) :=
  match NewFetcher env region with
  | Err err => Fatal (logPrintf "Failed to create fetcher" err w)
  | Ok fetcher =>
      let w1 := printFetcherOutput env w in
      match Fetcher.ListStateMachines (order env) fetcher with
      | Panic reason => Panics reason w1
      | Done (Err err) => Fatal (logPrintf "Failed to list state machines" err w1)
      | Done (Ok stateMachines) => Returns (fetcher, stateMachines) w1
      end
  end.

(** [createOutputDirectory]. *)
Definition createOutputDirectory (os : OS) (outputDir : string) (w : world)
    : step unit :=
  match mkdirAll os outputDir with
  | Some err => Fatal (logPrintf "Failed to create output directory" err w)
  | None =>
      Returns tt {| writeCalls := writeCalls w; files := files w;
                    console := console w;
                    directories := directories w ++ [outputDir] |}
  end.

(** [main], with the values of the flags [region] and [output-dir]. *)
Definition main (env : Env) (region outputDir : string) (w : world) : step unit :=
  match initializeFetcherAndStateMachines env region w with
  | Fatal w1 => Fatal w1
  | Panics reason w1 => Panics reason w1
  | Returns (_, stateMachines) w1 =>
      match createOutputDirectory (os env) outputDir w1 with
      | Fatal w2 => Fatal w2
      | Panics reason w2 => Panics reason w2
      | Returns _ w2 =>
          let w3 := displayStateMachines stateMachines w2 in
          let w4 := processStateMachines (encoder env) (os env) stateMachines outputDir w3 in
          let w5 :=
            emit (Main.Printed ("State and execution definitions saved to " +:+ outputDir))
              w4 in
          let w6 := emit (Main.Printed "Done.") w5 in
          let w7 :=
            emit (Main.Printed "Note: For Express Workflows, ensure CloudWatch Logs are configured to fetch execution details as execution details are fetched from CloudWatch Logs..")
              w6 in
          let w8 :=
            emit (Main.Printed "Note: For Standard Workflows, execution details are fetched directly from Step Functions.")
              w7 in
          Returns tt w8
      end
  end.

End Program.

(** * The vocabulary of the properties

    Predicates, checks and sample inputs the statements below are written
    with. *)

Import GoStrings.

Local Open Scope string_scope.

(** Byte-wise image of a string, and the bytes that occur in it. *)
Fixpoint mapBytes (f : ascii -> ascii) (s : string) : string :=
  match s with
  | EmptyString => EmptyString
  | String c s' => String (f c) (mapBytes f s')
  end.

Definition occursIn (c : ascii) (s : string) : Prop :=
  In c (list_ascii_of_string s).

(** The byte a one-byte pattern [old] is replaced by. *)
Definition substByte (old : ascii) (c : ascii) : ascii :=
  if Ascii.eqb old c then "_"%char else c.

(** What [sanitizeFileName] does to one byte. *)
Definition sanitizeByte (c : ascii) : ascii :=
  if existsb (fun old => String.eqb old (String c EmptyString)) Main.invalidChars
  then "_"%char else c.

Definition allBytes : list ascii := map ascii_of_nat (seq 0 256).

Import GoTime.

Local Open Scope Z_scope.

(** A check of [P] on [n] consecutive integers from [i]. *)
Fixpoint allFrom (n : nat) (P : Z -> bool) (i : Z) : bool :=
  match n with
  | O => true
  | S k => P i && allFrom k P (i + 1)
  end.

(** The days of an era before its year [y] (a year runs from March 1 to the
    end of February), and the dividend of [yearOfEra]. *)
Definition yearStart (y : Z) : Z := 365 * y + y / 4 - y / 100.

Definition yearDividend (doe : Z) : Z :=
  doe - doe / 1460 + doe / 36524 - doe / 146096.

(** The length of year [y] of an era: the calendar year [y + 1] holds its
    February. *)
Definition yearLength (y : Z) : Z := if isLeap (y + 1) then 366 else 365.

(** What one year of an era must satisfy: its first and its last day divide
    to the year, and the next year (or the next era) starts after its last
    day. *)
Definition yearCheck (y : Z) : bool :=
  (365 * y <=? yearDividend (yearStart y))
  && (yearDividend (yearStart y + yearLength y - 1) <? 365 * (y + 1))
  && (yearStart y + yearLength y =? (if y =? 399 then 146097 else yearStart (y + 1))).

(** What one day of a year must satisfy: month and day are in range and
    name the day; January and February are the days from 306 on; February
    has a 29th only as day 365. *)
Definition dayCheck (doy : Z) : bool :=
  let mp := (5 * doy + 2) / 153 in
  let d := doy - (153 * mp + 2) / 5 + 1 in
  let m := if mp <? 10 then mp + 3 else mp - 9 in
  (1 <=? m) && (m <=? 12) && (1 <=? d)
  && (d <=? (if m =? 2 then (if doy =? 365 then 29 else 28) else daysIn m 1))
  && ((153 * (if 2 <? m then m - 3 else m + 9) + 2) / 5 + d - 1 =? doy)
  && (Bool.eqb (m <=? 2) (306 <=? doy)).

(** A field that reads back: its digits give [x] and nothing is left. *)
Definition readsBack (width : nat) (x : Z) : bool :=
  match getDigits width 0 (appendInt x width) with
  | Some (v, EmptyString) => v =? x
  | _ => false
  end.

(** The instants whose year has four digits: from 0000-01-01T00:00:00Z to
    9999-12-31T23:59:59Z. *)
Definition fourDigitYear (t : Time) : Prop :=
  -62167219200 <= Unix t <= 253402300799.

(** Truncation to whole seconds, as [Format] does it. *)
Definition truncSecond (t : Time) : Time := Unix t * Second.

Import Fetcher.

Local Open Scope string_scope.

(** An [ExecutionStarted] event, and an event that closes a record: its type
    starts with [Execution] and is not [ExecutionStarted]. *)
Definition isStarted (log : logEvent.t) : bool :=
  String.eqb (logEvent.EventType log) "ExecutionStarted".

Definition closes (log : logEvent.t) : bool :=
  HasPrefix (logEvent.EventType log) "Execution" && negb (isStarted log).

(** The time stamp the loop prints for an event. *)
Definition stamp (log : logEvent.t) : string :=
  FormatRFC3339 (UnixMilli (logEvent.Timestamp log)).

(** The record a start event opens, and a record after a closing event. *)
Definition opened (log : logEvent.t) : Execution.t :=
  {| Execution.ExecutionArn := logEvent.ExecutionArn log;
     Execution.Status := "RUNNING";
     Execution.StartTime := stamp log;
     Execution.EndTime := EmptyString;
     Execution.Duration := "N/A" |}.

Definition closedBy (exec : Execution.t) (log : logEvent.t) : Execution.t :=
  {| Execution.ExecutionArn := Execution.ExecutionArn exec;
     Execution.Status := Replace (logEvent.EventType log) "Execution" EmptyString 1;
     Execution.StartTime := Execution.StartTime exec;
     Execution.EndTime := stamp log;
     Execution.Duration :=
       DurationString (Sub (parseOrZero (stamp log))
                           (parseOrZero (Execution.StartTime exec))) |}.

(** The first [ExecutionStarted] event of an ARN among the decoded events. *)
Fixpoint firstStarted (arn : string) (events : list (result logEvent.t))
    : option logEvent.t :=
  match events with
  | [] => None
  | Ok log :: rest =>
      if String.eqb (logEvent.ExecutionArn log) arn && isStarted log
      then Some log else firstStarted arn rest
  | Err _ :: rest => firstStarted arn rest
  end.

(** An event that is not about [arn]: another ARN, or not decoded. *)
Definition notAbout (arn : string) (event : result logEvent.t) : Prop :=
  match event with
  | Ok log => logEvent.ExecutionArn log <> arn
  | Err _ => True
  end.

(** One state machine with one execution, started at 0.9 s and stopped at
    1.1 s after the epoch. *)
Definition oneExecution : AWS :=
  {| ListStateMachinesPages := [];
     DescribeStateMachine := fun _ => Err (ServiceError "not found");
     ListExecutionsPages := fun _ => [Ok ["E"]];
     DescribeExecution := fun _ =>
       Ok {| sfn.ExecutionArn := "E"; sfn.Status := "SUCCEEDED";
             sfn.StartDate := 900000000; sfn.StopDate := Some 1100000000 |};
     FilterLogEvents := fun _ => Ok [] |}.

(** What the code computes for a record with an end time: the two time
    fields read back and subtracted. *)
Definition durationFromFields (exec : Execution.t) : string :=
  DurationString (Sub (parseOrZero (Execution.EndTime exec))
                      (parseOrZero (Execution.StartTime exec))).

(** The time stamps of the decoded events, in order. *)
Fixpoint timestamps (events : list (result logEvent.t)) : list Z :=
  match events with
  | [] => []
  | Ok log :: rest => logEvent.Timestamp log :: timestamps rest
  | Err _ :: rest => timestamps rest
  end.

(** Every closing event is stamped no earlier than the start events of its
    own ARN that arrived before it. *)
Definition closingsFollowStarts (events : list (result logEvent.t)) : Prop :=
  forall pre post s c,
    events = (pre ++ Ok s :: post)%list -> Ok c ∈ post ->
    isStarted s = true -> closes c = true ->
    logEvent.ExecutionArn s = logEvent.ExecutionArn c ->
    logEvent.Timestamp s <= logEvent.Timestamp c.

(** No closing event is stamped before a start event of its own ARN,
    wherever the two stand in the sequence. *)
Definition startsStampedFirst (events : list (result logEvent.t)) : Prop :=
  forall s c,
    Ok s ∈ events -> Ok c ∈ events ->
    isStarted s = true -> closes c = true ->
    logEvent.ExecutionArn s = logEvent.ExecutionArn c ->
    logEvent.Timestamp s <= logEvent.Timestamp c.

Import GoJSON.

(** Induction over JSON values that reaches the elements of an array and
    the members of an object. *)
Fixpoint json_nested_ind (P : json -> Prop)
    (Hnull : P JNull) (Hbool : forall b, P (JBool b))
    (Hnumber : forall lit, P (JNumber lit)) (Hstring : forall s, P (JString s))
    (Harray : forall elems, Forall P elems -> P (JArray elems))
    (Hobject : forall members, Forall (fun kv => P kv.2) members -> P (JObject members))
    (j : json) {struct j} : P j :=
  match j with
  | JNull => Hnull
  | JBool b => Hbool b
  | JNumber lit => Hnumber lit
  | JString s => Hstring s
  | JArray elems =>
      Harray elems
        ((fix go (l : list json) : Forall P l :=
            match l with
            | [] => @List.Forall_nil _ P
            | x :: rest =>
                @List.Forall_cons _ P x rest
                  (json_nested_ind P Hnull Hbool Hnumber Hstring Harray Hobject x) (go rest)
            end) elems)
  | JObject members =>
      Hobject members
        ((fix go (l : list (string * json)) : Forall (fun kv => P kv.2) l :=
            match l with
            | [] => @List.Forall_nil _ (fun kv => P kv.2)
            | (key, v) :: rest =>
                @List.Forall_cons _ (fun kv => P kv.2) (key, v) rest
                  (json_nested_ind P Hnull Hbool Hnumber Hstring Harray Hobject v)
                  (go rest)
            end) members)
  end.

(** A JSON value all of whose numbers fit a [float64]. *)
Fixpoint numbersFit (j : json) : bool :=
  match j with
  | JNumber lit => inFloat64Range lit
  | JArray elems => forallb numbersFit elems
  | JObject members => forallb (fun '(_, v) => numbersFit v) members
  | _ => true
  end.

(** A state, the value of [States], and the whole definition, as
    [json.Unmarshal] can store them: an object or [null] at each of the
    three levels, members that do not select [States] being free. *)
Definition stateFits (j : json) : bool :=
  match j with
  | JNull => true
  | JObject fields => forallb (fun '(_, v) => numbersFit v) fields
  | _ => false
  end.

Definition statesFit (j : json) : bool :=
  match j with
  | JNull => true
  | JObject states => forallb (fun '(_, v) => stateFits v) states
  | _ => false
  end.

Definition fitsAslDef (j : json) : bool :=
  match j with
  | JNull => true
  | JObject members =>
      forallb (fun '(key, v) => negb (isStatesKey key) || statesFit v) members
  | _ => false
  end.

(** The value the last member with this key binds, if any. *)
Fixpoint lastBinding (key : string) (members : list (string * json)) : option json :=
  match members with
  | [] => None
  | (k, v) :: rest =>
      match lastBinding key rest with
      | Some j => Some j
      | None => if String.eqb k key then Some v else None
      end
  end.

(** The members of [States] as the decoder comes to hold them: the members
    of every object stored under a key that selects [States], in order; a
    [null] stored there drops what came before. *)
Fixpoint statesAfter (members : list (string * json)) (acc : list (string * json))
    : list (string * json) :=
  match members with
  | [] => acc
  | (key, x) :: rest =>
      if isStatesKey key then
        match x with
        | JNull => statesAfter rest []
        | JObject states => statesAfter rest (acc ++ states)%list
        | _ => statesAfter rest acc
        end
      else statesAfter rest acc
  end.

Definition stateMembers (j : json) : list (string * json) :=
  match j with
  | JObject members => statesAfter members []
  | _ => []
  end.

(** A definition with two states, [A] leading to [B]. *)
Definition twoStates : list (string * json) :=
  [("A", JObject [("Type", JString "Pass"); ("Next", JString "B")]);
   ("B", JObject [("Type", JString "Succeed"); ("End", JBool true)])].

Definition twoStatesDefinition : list (string * json) :=
  [("Comment", JString "example"); ("StartAt", JString "A");
   ("States", JObject twoStates)].

(** A definition whose states come under two keys, [States] and [states]:
    [B] is [null] there, and [A] is given a second time. *)
Definition mergedDefinition : list (string * json) :=
  [("StartAt", JString "A");
   ("States", JObject twoStates);
   ("states", JObject [("B", JNull); ("C", JObject [("Type", JString "Fail")])])].

(** The logging configuration names no log group: there is no
    configuration, no destination, or the first destination's log group has
    no ARN. *)
Definition noLogGroup (sm : sfn.DescribeStateMachineOutput) : Prop :=
  match sfn.LoggingConfiguration_ sm with
  | None => True
  | Some cfg =>
      match sfn.Destinations cfg with
      | [] => True
      | dest :: _ =>
          exists group, sfn.CloudWatchLogsLogGroup_ dest = Some group
                        /\ sfn.LogGroupArn group = None
      end
  end.

(** An account with one EXPRESS state machine that has no logging
    configuration. *)
Definition expressWithoutLogging : AWS :=
  {| ListStateMachinesPages := [Ok ["arn:m"]];
     DescribeStateMachine := fun _ =>
       Ok {| sfn.Name := "m"; sfn.StateMachineArn := "arn:m"; sfn.RoleArn := "arn:role";
             sfn.Definition_ := Some (JObject [("States", JObject [])]);
             sfn.Type_ := "EXPRESS"; sfn.LoggingConfiguration_ := None;
             sfn.CreationDate := 0 |};
     ListExecutionsPages := fun _ => [];
     DescribeExecution := fun _ => Err (ServiceError "not found");
     FilterLogEvents := fun _ => Err (ServiceError "no such log group") |}.

(** An account whose one machine is an EXPRESS machine that logs to a
    destination without a log group. *)
Definition brokenExpress : AWS :=
  {| ListStateMachinesPages := [Ok ["arn:x"]];
     DescribeStateMachine := fun arn =>
       Ok {| sfn.Name := "x"; sfn.StateMachineArn := arn; sfn.RoleArn := "arn:role";
             sfn.Definition_ := Some (JObject [("States", JObject [])]);
             sfn.Type_ := "EXPRESS";
             sfn.LoggingConfiguration_ :=
               Some {| sfn.Destinations := [{| sfn.CloudWatchLogsLogGroup_ := None |}] |};
             sfn.CreationDate := 0 |};
     ListExecutionsPages := fun _ => [];
     DescribeExecution := fun _ => Err (ServiceError "not found");
     FilterLogEvents := fun _ => Ok [] |}.

Import Main.

(** The file an execution is written to, its row in the table, and the
    executions that are written: those whose ARN is not the sentinel's. *)
Definition executionPath (outputDir smName : string) (exec : Execution.t) : string :=
  Join outputDir
    (smName +:+ "_execution_"
       +:+ sanitizeFileName (ReplaceAll (Execution.ExecutionArn exec) ":" "_") +:+ ".json").

Definition tableRow (exec : Execution.t) : list string :=
  [Execution.ExecutionArn exec; Execution.Status exec; Execution.StartTime exec;
   Execution.EndTime exec; Execution.Duration exec].

Definition persisted (executions : list Execution.t) : list Execution.t :=
  filter (fun exec => Execution.ExecutionArn exec <> "N/A") executions.

(** The line logged for an execution whose file could not be written. *)
Definition saveFailure (fs : FileSystem) (outputDir smName : string)
    (exec : Execution.t) : option output :=
  Logged ("Failed to save execution " +:+ Execution.ExecutionArn exec)
    <$> fs (executionPath outputDir smName exec).

(** The executions whose file was written. *)
Definition saved (fs : FileSystem) (outputDir smName : string)
    (executions : list Execution.t) : list Execution.t :=
  filter (fun exec => fs (executionPath outputDir smName exec) = None)
    (persisted executions).

(** The error of the first page that fails, and the entries of the pages
    before it (of all pages when none fails). *)
Fixpoint firstError {A : Type} (pages : list (result A)) : option error :=
  match pages with
  | [] => None
  | Ok _ :: rest => firstError rest
  | Err e :: _ => Some e
  end.

Fixpoint listed {A : Type} (pages : list (result (list A))) : list A :=
  match pages with
  | [] => []
  | Ok page :: rest => (page ++ listed rest)%list
  | Err _ :: _ => []
  end.

(** The record of an execution that can be described. *)
Definition described (aws : AWS) (execArn : string) : option Execution.t :=
  match DescribeExecution aws execArn with
  | Ok descResult => Some (executionOf descResult)
  | Err _ => None
  end.

(** The details of a state machine that can be fetched. *)
Definition fetched (ro : RangeOrder) (aws : AWS) (arn : string) : option StateMachine.t :=
  match getStateMachineDetails ro aws arn with
  | Done (Ok details) => Some details
  | _ => None
  end.

Definition panics {A : Type} (o : outcome A) : bool :=
  match o with Panic _ => true | Done _ => false end.

Definition fails {A : Type} (o : outcome A) : bool :=
  match o with Done (Err _) => true | _ => false end.

(** [sep] occurs in [s]; [s] is cut at the leftmost occurrence of [sep] into
    [pre] and [post]. *)
Definition occurs (sep s : string) : Prop :=
  exists pre post, s = pre +:+ sep +:+ post.

Definition cutAt (sep s pre post : string) : Prop :=
  s = pre +:+ sep +:+ post
  /\ forall pre' post', s = pre' +:+ sep +:+ post' ->
       (String.length pre <= String.length pre')%nat.

(** The log destination that makes [getExpressExecutions] panic: the first
    destination has no log group, or the ARN of its log group does not
    hold [:log-group:]. *)
Definition brokenDestination (sm : sfn.DescribeStateMachineOutput) : Prop :=
  exists cfg dest rest,
    sfn.LoggingConfiguration_ sm = Some cfg
    /\ sfn.Destinations cfg = dest :: rest
    /\ (sfn.CloudWatchLogsLogGroup_ dest = None
        \/ exists group logGroupArn,
             sfn.CloudWatchLogsLogGroup_ dest = Some group
             /\ sfn.LogGroupArn group = Some logGroupArn
             /\ ~ occurs ":log-group:" logGroupArn).

(** The decoded events of one ARN, in order. *)
Fixpoint about (arn : string) (events : list (result logEvent.t)) : list logEvent.t :=
  match events with
  | [] => []
  | Ok log :: rest =>
      if String.eqb (logEvent.ExecutionArn log) arn
      then log :: about arn rest else about arn rest
  | Err _ :: rest => about arn rest
  end.

(** The first start event of a list of events and the events after it; the
    last closing event of a list of events. *)
Fixpoint fromFirstStart (logs : list logEvent.t) : option (logEvent.t * list logEvent.t) :=
  match logs with
  | [] => None
  | log :: rest => if isStarted log then Some (log, rest) else fromFirstStart rest
  end.

Fixpoint lastClosing (logs : list logEvent.t) : option logEvent.t :=
  match logs with
  | [] => None
  | log :: rest =>
      match lastClosing rest with
      | Some c => Some c
      | None => if closes log then Some log else None
      end
  end.

(** The record the events of one ARN amount to: none before a start event;
    then the record the first start event opens, closed by the last
    closing event that follows it, if there is one. *)
Definition recordOf (logs : list logEvent.t) : option Execution.t :=
  match fromFirstStart logs with
  | None => None
  | Some (start, later) =>
      Some match lastClosing later with
           | None => opened start
           | Some c => closedBy (opened start) c
           end
  end.

Local Open Scope list_scope.

(** What a path holds after a list of calls of [os.WriteFile], given what
    it held before: the data of the last call on that path, if the file
    system accepts writes to it. *)
Definition fileAfter {C : Type} (fs : FileSystem) (calls : list (string * C))
    (before : option C) (filePath : string) : option C :=
  match fs filePath with
  | Some _ => before
  | None =>
      match last (filter (fun call => call.1 = filePath) calls) with
      | Some call => Some call.2
      | None => before
      end
  end.

(** The calls of [os.WriteFile] that [processExecutions] makes. *)
Definition executionWrites (outputDir : string) (sm : StateMachine.t)
    : list (string * payload) :=
  map (fun exec => (executionPath outputDir (StateMachine.Name sm) exec, ExecutionJSON exec))
    (persisted (StateMachine.Executions sm)).

(** What [processExecutions] prints. *)
Definition executionsConsole (fs : FileSystem) (outputDir : string) (sm : StateMachine.t)
    : list output :=
  omap (saveFailure fs outputDir (StateMachine.Name sm))
    (persisted (StateMachine.Executions sm))
  ++ [Printed ("Executions for " +:+ StateMachine.Name sm +:+ ":");
      Rendered ["Execution ARN"; "Status"; "Start Time"; "End Time"; "Duration"]%string
        (map tableRow (StateMachine.Executions sm));
      Printed EmptyString].

(** The file of a state, its row in the table, and its encoded
    definition. *)
Definition statePath (outputDir smName : string) (state : State.t) : string :=
  Join outputDir (smName +:+ "_" +:+ sanitizeFileName (State.Name state) +:+ ".json").

Definition stateRow (rawDef : string) (state : State.t) : list string :=
  [State.Name state; State.Type_ state; State.Next state;
   Program.formatBool (State.End_ state); Program.definitionCell rawDef].

Definition encoded (enc : Program.Encoder) (state : State.t) : option string :=
  match Program.marshalDefinition enc (State.RawDefinition state) with
  | Ok rawDef => Some rawDef
  | Err _ => None
  end.

(** The call of [os.WriteFile], the row and the log line of a state in
    [processStates]: a state whose definition does not marshal has no call
    and no row. *)
Definition stateWrite (enc : Program.Encoder) (outputDir smName : string)
    (state : State.t) : option (string * Program.content) :=
  (fun rawDef => (statePath outputDir smName state, Program.Bytes rawDef))
    <$> encoded enc state.

Definition stateRowOf (enc : Program.Encoder) (state : State.t) : option (list string) :=
  (fun rawDef => stateRow rawDef state) <$> encoded enc state.

Definition stateLog (enc : Program.Encoder) (os : Program.OS) (outputDir smName : string)
    (state : State.t) : option output :=
  match Program.marshalDefinition enc (State.RawDefinition state) with
  | Err err =>
      Some (Logged ("Failed to marshal state definition for " +:+ State.Name state) err)
  | Ok _ =>
      Logged ("Failed to save state definition for " +:+ smName +:+ "/"
                +:+ State.Name state)
        <$> Program.writeFile os (statePath outputDir smName state)
  end.

(** From [w] to [w'] the calls [calls] of [os.WriteFile] were made, in
    order, and nothing else was done to the file system. *)
Definition wrote (os : Program.OS) (w w' : Program.world)
    (calls : list (string * Program.content)) : Prop :=
  Program.writeCalls w' = Program.writeCalls w ++ calls
  /\ (forall filePath,
        Program.files w' !! filePath
        = fileAfter (Program.writeFile os) calls (Program.files w !! filePath) filePath)
  /\ Program.directories w' = Program.directories w.

(** The calls and the lines of one state machine in [processStateMachines]:
    those of its states, then those of its executions. *)
Definition statesConsole (enc : Program.Encoder) (os : Program.OS) (outputDir : string)
    (sm : StateMachine.t) : list output :=
  omap (stateLog enc os outputDir (StateMachine.Name sm)) (StateMachine.States sm)
  ++ [Printed ("States for " +:+ StateMachine.Name sm +:+ ":");
      Rendered ["State Name"; "Type"; "Next"; "End"; "Definition"]%string
        (omap (stateRowOf enc) (StateMachine.States sm));
      Printed EmptyString].

Definition machineWrites (enc : Program.Encoder) (outputDir : string)
    (sm : StateMachine.t) : list (string * Program.content) :=
  omap (stateWrite enc outputDir (StateMachine.Name sm)) (StateMachine.States sm)
  ++ map (fun call => (call.1, Program.ExecutionData call.2)) (executionWrites outputDir sm).

Definition machineConsole (enc : Program.Encoder) (os : Program.OS) (outputDir : string)
    (sm : StateMachine.t) : list output :=
  statesConsole enc os outputDir sm
  ++ executionsConsole (Program.writeFile os) outputDir sm.

(** The call and the log line of [saveToFile] in [processStateMachines]. *)
Definition collectionPath (outputDir : string) : string :=
  Join outputDir "state_machines.json".

Definition collectionWrite (enc : Program.Encoder) (outputDir : string)
    (stateMachines : list StateMachine.t) : list (string * Program.content) :=
  match Program.marshalStateMachines enc stateMachines with
  | Ok data => [(collectionPath outputDir, Program.Bytes data)]
  | Err _ => []
  end.

Definition collectionLog (enc : Program.Encoder) (os : Program.OS) (outputDir : string)
    (stateMachines : list StateMachine.t) : list output :=
  match Program.marshalStateMachines enc stateMachines with
  | Err err =>
      [Logged "Failed to save state machines" (Wrap "failed to marshal state machines" err)]
  | Ok _ =>
      match Program.writeFile os (collectionPath outputDir) with
      | Some err => [Logged "Failed to save state machines" err]
      | None => []
      end
  end.

(** The last four lines [main] prints. *)
Definition closingLines (outputDir : string) : list output :=
  [Printed ("State and execution definitions saved to " +:+ outputDir);
   Printed "Done.";
   Printed "Note: For Express Workflows, ensure CloudWatch Logs are configured to fetch execution details as execution details are fetched from CloudWatch Logs..";
   Printed "Note: For Standard Workflows, execution details are fetched directly from Step Functions."].

(** The table [displayStateMachines] prints. *)
Definition machinesConsole (stateMachines : list StateMachine.t) : list output :=
  [Printed "State Machines:";
   Rendered ["Name"; "ARN"; "Type"; "Role ARN"; "Creation Date"]%string
     (map (fun sm => [StateMachine.Name sm; StateMachine.ARN sm; StateMachine.Type_ sm;
                      StateMachine.RoleARN sm; StateMachine.CreationDate sm])
        stateMachines);
   Printed EmptyString].

(** The lines of the fetcher, as [initializeFetcherAndStateMachines] prints
    them. *)
Definition fetcherLines (env : Program.Env) : list output :=
  map Printed (Program.fetcherOutput env).

Local Open Scope Z_scope.

(** Every byte of [utoa u] is a decimal digit, and there are more than [k]
    of them when [u] is at least [10 ^ k]. *)
Definition isDigit (c : ascii) : bool :=
  match digitVal c with Some _ => true | None => false end.

Fixpoint allDigits (s : string) : bool :=
  match s with
  | EmptyString => true
  | String c s' => isDigit c && allDigits s'
  end.

Local Open Scope string_scope.
Local Open Scope list_scope.

(** An account with three state machines on two pages: [arn:a] is a
    STANDARD machine with two listed executions, of which [E2] cannot be
    described; [arn:b] cannot be described; [arn:c] has a type the program
    does not know. *)
Definition threeMachines : AWS :=
  {| ListStateMachinesPages := [Ok ["arn:a"; "arn:b"]; Ok ["arn:c"]];
     DescribeStateMachine := fun arn =>
       if String.eqb arn "arn:b" then Err (ServiceError "access denied")
       else
         Ok {| sfn.Name := arn; sfn.StateMachineArn := arn; sfn.RoleArn := "arn:role";
               sfn.Definition_ := Some (JObject [("States", JObject [])]);
               sfn.Type_ := if String.eqb arn "arn:a" then "STANDARD" else "ACTIVITY";
               sfn.LoggingConfiguration_ := None;
               sfn.CreationDate := 0 |};
     ListExecutionsPages := fun _ => [Ok ["E1"; "E2"]];
     DescribeExecution := fun execArn =>
       if String.eqb execArn "E2" then Err (ServiceError "throttled")
       else
         Ok {| sfn.ExecutionArn := execArn; sfn.Status := "RUNNING";
               sfn.StartDate := 0; sfn.StopDate := None |};
     FilterLogEvents := fun _ => Ok [] |}.

(** An environment whose account has no state machine, whose file system
    accepts every call, and whose encoder prints fixed texts. *)
Definition emptyAccount : Program.Env :=
  {| Program.LoadDefaultConfig := fun _ => Ok oneExecution;
     Program.os :=
       {| Program.writeFile := fun _ => None; Program.mkdirAll := fun _ => None |};
     Program.encoder :=
       {| Program.marshalDefinition := fun _ => Ok "{}";
          Program.marshalStateMachines := fun _ => Ok "null" |};
     Program.order := canonicalOrder;
     Program.fetcherOutput := [] |}.

Definition emptyWorld : Program.world :=
  {| Program.writeCalls := []; Program.files := ∅; Program.console := [];
     Program.directories := [] |}.

(** A run on [brokenExpress]. *)
Definition brokenExpressRun : Program.Env :=
  {| Program.LoadDefaultConfig := fun _ => Ok brokenExpress;
     Program.os :=
       {| Program.writeFile := fun _ => None; Program.mkdirAll := fun _ => None |};
     Program.encoder :=
       {| Program.marshalDefinition := fun _ => Ok "{}";
          Program.marshalStateMachines := fun _ => Ok "null" |};
     Program.order := canonicalOrder;
     Program.fetcherOutput :=
       ["Debug: State machine x type: EXPRESS";
        "Debug: Fetching executions from CloudWatch Logs for Express Workflow x"] |}.

(** * Properties *)

(** ** The library models on concrete inputs *)

Example Replace_first_only :
  GoStrings.Replace "ExecutionTimedOut" "Execution" EmptyString 1 = "TimedOut"%string
  /\ GoStrings.Replace "ExecutionExecution" "Execution" EmptyString 1 = "Execution"%string
  /\ GoStrings.ReplaceAll "a:b:c" ":" "_" = "a_b_c"%string.
Proof. repeat split; reflexivity. Qed.

Example Split_log_group_arn :
  GoStrings.Split "arn:aws:logs:us-west-2:1:log-group:/aws/states/x:*" ":log-group:"
    = ["arn:aws:logs:us-west-2:1"; "/aws/states/x:*"]%string
  /\ Fetcher.logGroupNameOf "arn:aws:logs:us-west-2:1:log-group:/aws/states/x:*"
     = Some "/aws/states/x"%string
  /\ Fetcher.logGroupNameOf "arn:aws:logs:us-west-2:1" = None.
Proof. repeat split; reflexivity. Qed.

Example FormatRFC3339_instants :
  GoTime.FormatRFC3339 (GoTime.UnixMilli 1730325296123) = "2024-10-30T21:54:56Z"%string
  /\ GoTime.FormatRFC3339 (GoTime.UnixMilli 1709251199999) = "2024-02-29T23:59:59Z"%string
  /\ GoTime.FormatRFC3339 (GoTime.UnixMilli (-1)) = "1969-12-31T23:59:59Z"%string
  /\ GoTime.FormatRFC3339 GoTime.zeroTime = "0001-01-01T00:00:00Z"%string
  /\ GoTime.FormatRFC3339 (GoTime.UnixMilli 253402300800000) = "10000-01-01T00:00:00Z"%string.
Proof. repeat split; vm_compute; reflexivity. Qed.

Example ParseRFC3339_texts :
  GoTime.ParseRFC3339 "2024-02-29T23:59:59Z" = Some 1709251199000000000
  /\ GoTime.ParseRFC3339 "2023-02-29T23:59:59Z" = None
  /\ GoTime.ParseRFC3339 "10000-01-01T00:00:00Z" = None
  /\ GoTime.ParseRFC3339 EmptyString = None.
Proof. repeat split; vm_compute; reflexivity. Qed.

Example DurationString_values :
  GoTime.DurationString 0 = "0s"%string
  /\ GoTime.DurationString (90 * GoTime.Second) = "1m30s"%string
  /\ GoTime.DurationString (3600 * GoTime.Second) = "1h0m0s"%string
  /\ GoTime.DurationString (-4 * GoTime.Second) = "-4s"%string
  /\ GoTime.DurationString 1500000000 = "1.5s"%string
  /\ GoTime.DurationString GoTime.maxDuration = "2562047h47m16.854775807s"%string.
Proof. repeat split; vm_compute; reflexivity. Qed.

Example inFloat64Range_literals :
  GoJSON.inFloat64Range "5" = true
  /\ GoJSON.inFloat64Range "-1.5E-400" = true
  /\ GoJSON.inFloat64Range "1.7976931348623157e308" = true
  /\ GoJSON.inFloat64Range "1.7976931348623159e308" = false
  /\ GoJSON.inFloat64Range "1e999" = false.
Proof. repeat split; vm_compute; reflexivity. Qed.

Example isStatesKey_keys :
  GoJSON.isStatesKey "States" = true
  /\ GoJSON.isStatesKey "STATES" = true
  /\ GoJSON.isStatesKey (GoJSON.longS +:+ "tates") = true
  /\ GoJSON.isStatesKey "State" = false.
Proof. repeat split; vm_compute; reflexivity. Qed.

Example sanitizeFileName_arn :
  Main.sanitizeFileName "arn:aws:states:us-west-2:1:execution:m/e?1"
  = "arn_aws_states_us-west-2_1_execution_m_e_1"%string.
Proof. vm_compute. reflexivity. Qed.

Local Open Scope string_scope.

(** ** Strings *)

Lemma prefix_single (a c : ascii) (s : string) :
  String.prefix (String a EmptyString) (String c s) = Ascii.eqb a c.
Proof.
  simpl. destruct (ascii_dec a c) as [->|Hne].
  - rewrite Ascii.eqb_refl. by destruct s.
  - symmetry. by apply Ascii.eqb_neq.
Qed.

Lemma replaceFrom_single (a : ascii) (s : string) :
  replaceFrom (String a EmptyString) "_" 0 None s = mapBytes (substByte a) s.
Proof.
  induction s as [|c s IH]; [done|].
  cbn [replaceFrom mapBytes]. rewrite prefix_single. unfold substByte.
  destruct (Ascii.eqb a c); cbn; by rewrite IH.
Qed.

Lemma mapBytes_id (f : ascii -> ascii) (s : string) :
  (forall c, f c = c) -> mapBytes f s = s.
Proof. intros Hf. induction s; cbn; by rewrite ?Hf, ?IHs. Qed.

Lemma mapBytes_compose (f g : ascii -> ascii) (s : string) :
  mapBytes g (mapBytes f s) = mapBytes (fun c => g (f c)) s.
Proof. induction s; cbn; by rewrite ?IHs. Qed.

Lemma mapBytes_ext (f g : ascii -> ascii) (s : string) :
  (forall c, f c = g c) -> mapBytes f s = mapBytes g s.
Proof. intros H. induction s; cbn; by rewrite ?H, ?IHs. Qed.

(** Replacing a one-byte pattern by an underscore acts byte by byte. *)
Lemma ReplaceAll_single (a : ascii) (s : string) :
  ReplaceAll s (String a EmptyString) "_" = mapBytes (substByte a) s.
Proof.
  unfold ReplaceAll, Replace.
  destruct (String.eqb_spec (String a EmptyString) "_") as [Heq|Hne]; cbn [orb].
  - injection Heq as ->. symmetry. apply mapBytes_id. intros c. unfold substByte.
    destruct (Ascii.eqb_spec "_"%char c); congruence.
  - cbn. apply replaceFrom_single.
Qed.

Lemma allBytes_complete (c : ascii) : In c allBytes.
Proof.
  unfold allBytes. rewrite <- (ascii_nat_embedding c). apply in_map, in_seq.
  pose proof (nat_ascii_bounded c). lia.
Qed.

Lemma forall_bytes (P : ascii -> bool) :
  forallb P allBytes = true -> forall c, P c = true.
Proof.
  intros H c. rewrite forallb_forall in H. apply H, allBytes_complete.
Qed.

Lemma sanitizeFileName_bytes (s : string) :
  Main.sanitizeFileName s = mapBytes sanitizeByte s.
Proof.
  unfold Main.sanitizeFileName, Main.invalidChars, Main.quoteChar. cbn [fold_left].
  rewrite !ReplaceAll_single, !mapBytes_compose. apply mapBytes_ext.
  intros c. apply Ascii.eqb_eq. revert c.
  match goal with
  | |- forall c, Ascii.eqb (@?f c) _ = true =>
      apply (forall_bytes (fun c => Ascii.eqb (f c) (sanitizeByte c)))
  end.
  vm_compute. reflexivity.
Qed.

(** C5: [sanitizeFileName] is idempotent, and its result holds none of the
    nine bytes of [invalidChars]. *)
Theorem sanitizeFileName_idempotent_clean (s : string) :
  Main.sanitizeFileName (Main.sanitizeFileName s) = Main.sanitizeFileName s
  /\ forall c, In (String c EmptyString) Main.invalidChars ->
               ~ occursIn c (Main.sanitizeFileName s).
Proof.
  rewrite !sanitizeFileName_bytes. split.
  - rewrite mapBytes_compose. apply mapBytes_ext.
    intros c. apply Ascii.eqb_eq. revert c.
    apply (forall_bytes (fun c => Ascii.eqb (sanitizeByte (sanitizeByte c)) (sanitizeByte c))).
    vm_compute. reflexivity.
  - intros c Hc. unfold occursIn. induction s as [|a s IH]; cbn; [tauto|].
    intros [Heq|Hin]; [|tauto]. subst c. clear IH.
    assert (Hin := Hc). clear Hc.
    assert (H : negb (existsb (fun old => String.eqb old (String (sanitizeByte a) EmptyString))
                        Main.invalidChars) = true).
    { clear Hin. revert a. apply forall_bytes. vm_compute. reflexivity. }
    apply negb_true_iff, not_true_iff_false in H. apply H, existsb_exists.
    exists (String (sanitizeByte a) EmptyString). split; [done|apply String.eqb_refl].
Qed.

(** ** Time: what is printed reads back *)

Local Open Scope Z_scope.

Lemma allFrom_spec (n : nat) (P : Z -> bool) (i : Z) :
  allFrom n P i = true -> forall j, i <= j < i + Z.of_nat n -> P j = true.
Proof.
  revert i. induction n as [|n IH]; intros i H j Hj; [lia|].
  cbn [allFrom] in H. apply andb_true_iff in H as [Hi Hrest].
  destruct (Z.eq_dec j i) as [->|Hne]; [done|].
  apply (IH (i + 1)); [done|lia].
Qed.

Lemma allBelow (n : Z) (P : Z -> bool) :
  allFrom (Z.to_nat n) P 0 = true -> forall j, 0 <= j < n -> P j = true.
Proof.
  intros H j Hj. apply (allFrom_spec _ _ _ H). rewrite Z2Nat.id; lia.
Qed.

Lemma yearDividend_step (d : Z) :
  0 <= d < 146096 -> yearDividend d <= yearDividend (d + 1).
Proof. intros H. unfold yearDividend. Z.div_mod_to_equations. lia. Qed.

Lemma yearDividend_mono (a b : Z) :
  0 <= a <= b -> b < 146097 -> yearDividend a <= yearDividend b.
Proof.
  intros [Ha Hab] Hb. revert Hb. pattern b.
  apply (Zlt_lower_bound_ind _ a); [|done].
  clear b Hab. intros b IH Hab Hb.
  destruct (Z.eq_dec a b) as [->|Hne]; [lia|].
  transitivity (yearDividend (b - 1)); [apply IH; lia|].
  replace b with (b - 1 + 1) at 2 by lia. apply yearDividend_step. lia.
Qed.

Lemma yearCheck_all (y : Z) : 0 <= y < 400 -> yearCheck y = true.
Proof. apply (allBelow 400 yearCheck). vm_compute. reflexivity. Qed.

Lemma yearCheck_spec (y : Z) :
  0 <= y < 400 ->
  365 * y <= yearDividend (yearStart y)
  /\ yearDividend (yearStart y + yearLength y - 1) < 365 * (y + 1)
  /\ yearStart y + yearLength y = (if y =? 399 then 146097 else yearStart (y + 1))
  /\ 0 <= yearStart y /\ 365 <= yearLength y <= 366.
Proof.
  intros Hy. pose proof (yearCheck_all y Hy) as Hc. unfold yearCheck in Hc.
  apply andb_true_iff in Hc as [Hc Hlen]. apply andb_true_iff in Hc as [Hlo Hhi].
  split; [lia|]. split; [lia|]. split; [lia|]. split.
  - unfold yearStart. Z.div_mod_to_equations. lia.
  - unfold yearLength. destruct (isLeap (y + 1)); lia.
Qed.

Lemma year_exists (doe : Z) :
  0 <= doe < 146097 ->
  exists y, 0 <= y < 400 /\ yearStart y <= doe < yearStart y + yearLength y.
Proof.
  intros Hdoe.
  assert (H : forall n : nat, (n < 400)%nat ->
            doe < yearStart (Z.of_nat n) + yearLength (Z.of_nat n) ->
            exists y, 0 <= y < 400 /\ yearStart y <= doe < yearStart y + yearLength y).
  { induction n as [|n IH]; intros Hn Hlt.
    - exists 0. change (Z.of_nat 0) with 0 in Hlt.
      change (yearStart 0) with 0 in *. lia.
    - destruct (Z_lt_le_dec doe (yearStart (Z.of_nat (S n)))) as [Hlt'|Hge].
      + apply IH; [lia|].
        pose proof (yearCheck_spec (Z.of_nat n) ltac:(lia)) as (_ & _ & Hnext & _).
        rewrite (proj2 (Z.eqb_neq (Z.of_nat n) 399)) in Hnext by lia.
        replace (Z.of_nat n + 1) with (Z.of_nat (S n)) in Hnext by lia. lia.
      + exists (Z.of_nat (S n)). split; [lia|by split]. }
  apply (H (Z.to_nat 399)); [lia|].
  rewrite Z2Nat.id by lia.
  pose proof (yearCheck_spec 399 ltac:(lia)) as (_ & _ & Hnext & _).
  change (399 =? 399) with true in Hnext. cbv beta iota in Hnext. lia.
Qed.

(** [yearOfEra] finds the year that holds the day. *)
Lemma yearOfEra_spec (doe : Z) :
  0 <= doe < 146097 ->
  0 <= yearOfEra doe < 400
  /\ 0 <= dayOfYear doe < yearLength (yearOfEra doe)
  /\ doe = yearStart (yearOfEra doe) + dayOfYear doe.
Proof.
  intros Hdoe. destruct (year_exists doe Hdoe) as (y & Hy & Hin).
  pose proof (yearCheck_spec y Hy) as (Hlo & Hhi & Hnext & Hstart & Hlen).
  assert (Hyear : yearOfEra doe = y).
  { unfold yearOfEra. fold (yearDividend doe).
    assert (yearStart y + yearLength y <= 146097).
    { destruct (Z.eq_dec y 399) as [->|Hne]; [vm_compute; discriminate|].
      rewrite (proj2 (Z.eqb_neq y 399)) in Hnext by done. rewrite Hnext.
      unfold yearStart. Z.div_mod_to_equations. lia. }
    pose proof (yearDividend_mono (yearStart y) doe ltac:(lia) ltac:(lia)).
    pose proof (yearDividend_mono doe (yearStart y + yearLength y - 1) ltac:(lia) ltac:(lia)).
    symmetry. apply (Z.div_unique _ _ _ (yearDividend doe - 365 * y)); lia. }
  unfold dayOfYear. rewrite Hyear. fold (yearStart y). lia.
Qed.

Lemma dayCheck_all (doy : Z) : 0 <= doy < 366 -> dayCheck doy = true.
Proof. apply (allBelow 366 dayCheck). vm_compute. reflexivity. Qed.

Lemma daysIn_not_February (m y y' : Z) : m <> 2 -> daysIn m y = daysIn m y'.
Proof. intros H. unfold daysIn. by rewrite (proj2 (Z.eqb_neq m 2)). Qed.

Lemma isLeap_era (y era : Z) : isLeap (y + era * 400) = isLeap y.
Proof.
  unfold isLeap.
  replace ((y + era * 400) mod 4) with (y mod 4)
    by (replace (era * 400) with (era * 100 * 4) by lia; by rewrite Z_mod_plus_full).
  replace ((y + era * 400) mod 100) with (y mod 100)
    by (replace (era * 400) with (era * 4 * 100) by lia; by rewrite Z_mod_plus_full).
  by rewrite Z_mod_plus_full.
Qed.

Lemma daysIn_era (m y era : Z) : daysIn m (y + era * 400) = daysIn m y.
Proof. unfold daysIn. by rewrite isLeap_era. Qed.

(** The calendar date of a day count names that day count, and is a valid
    date; its year has four digits from 0000-01-01 to 9999-12-31. *)
Lemma civilFromDays_spec (days : Z) :
  let '(y, m, d) := civilFromDays days in
  daysFromCivil y m d = days /\ 1 <= m <= 12 /\ 1 <= d <= daysIn m y
  /\ (-719528 <= days <= 2932896 -> 0 <= y <= 9999).
Proof.
  unfold civilFromDays.
  set (z := days + 719468). set (era := z / 146097). set (doe := z mod 146097).
  assert (Hz : z = 146097 * era + doe) by (apply Z.div_mod; lia).
  assert (Hdoe : 0 <= doe < 146097) by (apply Z.mod_pos_bound; lia).
  destruct (yearOfEra_spec doe Hdoe) as (Hyoe & Hdoy & Hsum).
  set (yoe := yearOfEra doe) in *. set (doy := dayOfYear doe) in *.
  assert (Hlen : doy < 366) by (unfold yearLength in Hdoy; destruct (isLeap _); lia).
  pose proof (dayCheck_all doy ltac:(lia)) as Hc. unfold dayCheck in Hc.
  set (mp := (5 * doy + 2) / 153) in *.
  set (d := doy - (153 * mp + 2) / 5 + 1) in *.
  set (m := if mp <? 10 then mp + 3 else mp - 9) in *.
  set (adj := if m <=? 2 then 1 else 0).
  repeat (apply andb_true_iff in Hc as [Hc ?]).
  match goal with H : Bool.eqb _ _ = true |- _ => apply Bool.eqb_prop in H; rename H into Hjf end.
  assert (Hadj : adj = if 306 <=? doy then 1 else 0) by (unfold adj; by rewrite Hjf).
  clearbody adj.
  replace (yoe + era * 400 + adj) with (yoe + adj + era * 400) by lia.
  rewrite daysIn_era. split; [|split; [lia|split; [split; [lia|]|]]].
  - unfold daysFromCivil.
    replace (if m <=? 2 then 1 else 0) with adj by (by rewrite Hadj, Hjf).
    replace (yoe + adj + era * 400 - adj) with (yoe + era * 400) by lia.
    replace ((yoe + era * 400) / 400) with era
      by (apply (Z.div_unique _ _ _ yoe); lia).
    replace ((yoe + era * 400) mod 400) with yoe
      by (apply (Z.mod_unique _ _ era); lia).
    unfold yearStart in Hsum. lia.
  - destruct (Z.eq_dec m 2) as [Hm|Hm].
    + rewrite Hm in *. change (2 =? 2) with true in *. cbv beta iota in *.
      change (2 <=? 2) with true in Hjf.
      replace adj with 1 by (rewrite Hadj; by rewrite <- Hjf).
      unfold daysIn. change (2 =? 2) with true. cbv beta iota.
      unfold yearLength in Hdoy.
      destruct (isLeap (yoe + 1)); destruct (doy =? 365) eqn:E; lia.
    + rewrite (daysIn_not_February m _ 1 Hm).
      rewrite (proj2 (Z.eqb_neq m 2)) in * by done. lia.
  - intros Hr. assert (-1 <= era <= 24) by (subst z; lia).
    assert (Hstart : yoe <= 398 -> yearStart yoe + 366 <= 145732)
      by (intros ?; unfold yearStart; Z.div_mod_to_equations; lia).
    assert (H399 : yoe = 399 -> yearStart yoe = 145731) by (by intros ->).
    destruct (306 <=? doy) eqn:Hd; lia.
Qed.

Lemma getDigits_app (n : nat) (acc : Z) (s rest : string) (v : Z) :
  getDigits n acc s = Some (v, EmptyString) ->
  getDigits n acc (s +:+ rest) = Some (v, rest).
Proof.
  revert acc s. induction n as [|n IH]; intros acc s H; cbn in *.
  - injection H as -> ->. done.
  - destruct s as [|c s]; [done|].
    change (String c s +:+ rest) with (String c (s +:+ rest)). cbn beta iota.
    destruct (digitVal c) as [dv|]; [|done]. cbn in *. by apply IH.
Qed.

Lemma readsBack_app (width : nat) (x : Z) (rest : string) :
  readsBack width x = true ->
  getDigits width 0 (appendInt x width +:+ rest) = Some (x, rest).
Proof.
  unfold readsBack. intros H. apply getDigits_app.
  destruct (getDigits width 0 (appendInt x width)) as [[v [|? ?]]|]; try done.
  apply Z.eqb_eq in H. by subst.
Qed.

Lemma twoDigits (x : Z) (rest : string) :
  0 <= x < 100 -> getDigits 2 0 (appendInt x 2 +:+ rest) = Some (x, rest).
Proof.
  intros H. apply readsBack_app. revert x H. apply (allBelow 100 (readsBack 2)).
  vm_compute. reflexivity.
Qed.

Lemma fourDigits (x : Z) (rest : string) :
  0 <= x < 10000 -> getDigits 4 0 (appendInt x 4 +:+ rest) = Some (x, rest).
Proof.
  intros H. apply readsBack_app. revert x H. apply (allBelow 10000 (readsBack 4)).
  vm_compute. reflexivity.
Qed.

Lemma expect_cons (c : ascii) (s : string) : expect c (String c s) = Some s.
Proof. cbn. by rewrite Ascii.eqb_refl. Qed.

(** [Parse] reads what [Format] printed: the instant, cut to whole seconds. *)
Lemma Parse_Format (t : Time) :
  fourDigitYear t -> ParseRFC3339 (FormatRFC3339 t) = Some (Unix t * Second).
Proof.
  unfold fourDigitYear, FormatRFC3339. set (sec := Unix t). intros Hr.
  pose proof (civilFromDays_spec (sec / 86400)) as Hciv.
  destruct (civilFromDays (sec / 86400)) as [[y m] d].
  destruct Hciv as (Hdays & Hm & Hd & Hy).
  assert (Hsec : sec = 86400 * (sec / 86400) + sec mod 86400) by (apply Z.div_mod; lia).
  assert (Hrem : 0 <= sec mod 86400 < 86400) by (apply Z.mod_pos_bound; lia).
  set (rem := sec mod 86400) in *.
  assert (Hy' : 0 <= y <= 9999) by (apply Hy; lia).
  assert (Hd' : d <= 31) by (unfold daysIn in Hd; repeat case_match; lia).
  assert (Hhh : 0 <= rem / 3600 < 24)
    by (split; [apply Z.div_pos; lia|apply Z.div_lt_upper_bound; lia]).
  assert (Hmi : 0 <= rem mod 3600 / 60 < 60).
  { pose proof (Z.mod_pos_bound rem 3600 ltac:(lia)).
    split; [apply Z.div_pos; lia|apply Z.div_lt_upper_bound; lia]. }
  assert (Hss : 0 <= rem mod 60 < 60) by (apply Z.mod_pos_bound; lia).
  unfold ParseRFC3339.
  repeat match goal with
         | |- context [String ?c EmptyString +:+ ?s] =>
             change (String c EmptyString +:+ s) with (String c s)
         end.
  rewrite fourDigits by lia. cbn [mbind option_bind]. rewrite expect_cons. cbn [mbind option_bind].
  do 5 (rewrite twoDigits by lia; cbn [mbind option_bind];
        rewrite expect_cons; cbn [mbind option_bind]).
  rewrite String.eqb_refl.
  rewrite (proj2 (Z.leb_le 1 m)), (proj2 (Z.leb_le m 12)), (proj2 (Z.leb_le 1 d)),
    (proj2 (Z.leb_le d _)), (proj2 (Z.ltb_lt _ 24)), (proj2 (Z.ltb_lt _ 60)),
    (proj2 (Z.ltb_lt _ 60)) by lia.
  cbn [andb]. rewrite Hdays. do 2 f_equal.
  clear -Hrem Hsec. Z.div_mod_to_equations. lia.
Qed.

(** [Sub] is the plain difference while it fits a [Duration]. *)
Lemma Sub_exact (t u : Time) :
  minDuration <= t - u <= maxDuration -> Sub t u = t - u.
Proof. unfold Sub. lia. Qed.

Lemma parseOrZero_Format (t : Time) :
  fourDigitYear t -> parseOrZero (FormatRFC3339 t) = truncSecond t.
Proof. intros H. unfold parseOrZero. by rewrite Parse_Format. Qed.

Lemma Unix_UnixMilli (msec : Z) : Unix (UnixMilli msec) = msec / 1000.
Proof.
  unfold Unix, UnixMilli, Second.
  replace 1000000000 with (1000000 * 1000) by lia.
  rewrite (Z.mul_comm msec), Z.div_mul_cancel_l; lia.
Qed.

(** A formatted instant is never the empty string. *)
Lemma FormatRFC3339_nonempty (t : Time) : FormatRFC3339 t <> EmptyString.
Proof.
  unfold FormatRFC3339. destruct (civilFromDays _) as [[y m] d].
  destruct (appendInt y 4); discriminate.
Qed.

(** ** EXPRESS workflows: the correlation of log events *)

Local Open Scope string_scope.

Lemma correlate_snoc (events : list (result logEvent.t)) (event : result logEvent.t) :
  correlate (events ++ [event]) = correlateStep (correlate events) event.
Proof. unfold correlate. by rewrite fold_left_app. Qed.

Lemma correlateStep_absent (m : gmap string Execution.t) (log : logEvent.t) :
  m !! logEvent.ExecutionArn log = None ->
  correlateStep m (Ok log) =
    if isStarted log then <[logEvent.ExecutionArn log := opened log]> m else m.
Proof. intros H. unfold correlateStep. by rewrite H. Qed.

Lemma correlateStep_present (m : gmap string Execution.t) (log : logEvent.t)
    (exec : Execution.t) :
  m !! logEvent.ExecutionArn log = Some exec ->
  correlateStep m (Ok log) =
    if closes log then <[logEvent.ExecutionArn log := closedBy exec log]> m else m.
Proof. intros H. unfold correlateStep. by rewrite H. Qed.

Lemma correlateStep_notAbout (m : gmap string Execution.t)
    (event : result logEvent.t) (arn : string) :
  notAbout arn event -> correlateStep m event !! arn = m !! arn.
Proof.
  destruct event as [log|e]; [|done]. cbn [notAbout]. intros Hne.
  destruct (m !! logEvent.ExecutionArn log) as [exec|] eqn:Hm.
  - rewrite (correlateStep_present _ _ _ Hm). destruct (closes log); [|done].
    by rewrite lookup_insert_ne.
  - rewrite (correlateStep_absent _ _ Hm). destruct (isStarted log); [|done].
    by rewrite lookup_insert_ne.
Qed.

Lemma fold_correlateStep_notAbout (more : list (result logEvent.t))
    (m : gmap string Execution.t) (arn : string) :
  Forall (notAbout arn) more -> fold_left correlateStep more m !! arn = m !! arn.
Proof.
  intros H. revert m. induction H as [|event more Hev _ IH]; intros m; [done|].
  cbn [fold_left]. by rewrite IH, correlateStep_notAbout.
Qed.

Lemma firstStarted_snoc (arn : string) (events : list (result logEvent.t))
    (event : result logEvent.t) :
  firstStarted arn (events ++ [event]) =
    match firstStarted arn events with
    | Some log => Some log
    | None => firstStarted arn [event]
    end.
Proof.
  induction events as [|[log|e] events IH]; cbn [app firstStarted].
  - by destruct (firstStarted arn [event]).
  - by destruct (_ && _).
  - done.
Qed.

(** The table holds a record for exactly the ARNs that have a start event;
    the record carries its ARN and the time of the first start event. *)
Lemma correlate_lookup (events : list (result logEvent.t)) (arn : string) :
  match correlate events !! arn with
  | None => firstStarted arn events = None
  | Some exec =>
      Execution.ExecutionArn exec = arn
      /\ exists log, firstStarted arn events = Some log
                     /\ Execution.StartTime exec = stamp log
  end.
Proof.
  induction events as [|event events IH] using rev_ind; [done|].
  rewrite correlate_snoc, firstStarted_snoc.
  destruct event as [log|e]; cycle 1.
  { cbn [correlateStep firstStarted]. destruct (correlate events !! arn).
    - destruct IH as (? & log0 & -> & ?). eauto.
    - by rewrite IH. }
  destruct (decide (logEvent.ExecutionArn log = arn)) as [<-|Hne].
  - destruct (correlate events !! logEvent.ExecutionArn log) as [exec|] eqn:Hm.
    + rewrite (correlateStep_present _ _ _ Hm).
      destruct IH as (Harn & log0 & Hfirst & Hstart). rewrite Hfirst.
      destruct (closes log); [|rewrite Hm; eauto].
      rewrite lookup_insert_eq. cbn. eauto.
    + rewrite (correlateStep_absent _ _ Hm), IH. cbn [firstStarted].
      rewrite String.eqb_refl. cbn [andb].
      destruct (isStarted log); [|by rewrite Hm].
      rewrite lookup_insert_eq. cbn. eauto.
  - rewrite correlateStep_notAbout by done.
    cbn [firstStarted]. apply String.eqb_neq in Hne. rewrite Hne. cbn [andb].
    destruct (correlate events !! arn); [|by rewrite IH].
    destruct IH as (? & log0 & -> & ?). eauto.
Qed.

Lemma elem_of_collect (ro : RangeOrder) (m : gmap string Execution.t)
    (exec : Execution.t) :
  exec ∈ collect ro m <-> exists arn, m !! arn = Some exec.
Proof.
  unfold collect. rewrite list_elem_of_fmap. split.
  - intros ([arn e] & -> & Hin). rewrite (rangeOf_perm ro) in Hin.
    apply elem_of_map_to_list in Hin. by exists arn.
  - intros (arn & Hm). exists (arn, exec). split; [done|].
    rewrite (rangeOf_perm ro). by apply elem_of_map_to_list.
Qed.

(** No two records of the output have the same ARN. *)
Lemma collect_arns_NoDup (ro : RangeOrder) (events : list (result logEvent.t)) :
  NoDup (Execution.ExecutionArn <$> collect ro (correlate events)).
Proof.
  unfold collect. rewrite (rangeOf_perm ro).
  assert (Hkeys : Execution.ExecutionArn <$> (map snd (map_to_list (correlate events)))
                  = (map_to_list (correlate events)).*1).
  { change (map snd) with (fmap (M:=list) (@snd string Execution.t)).
    rewrite <- list_fmap_compose. apply list_fmap_ext.
    intros i [arn exec] Hin%list_elem_of_lookup_2%elem_of_map_to_list. cbn.
    pose proof (correlate_lookup events arn) as H. rewrite Hin in H. tauto. }
  rewrite Hkeys. apply NoDup_fst_map_to_list.
Qed.

(** C10: the output has at most one record per execution ARN, a record's
    start time is the time of the first [ExecutionStarted] event of its ARN,
    and a further [ExecutionStarted] event for an ARN that has a record
    changes nothing. *)
Theorem express_one_record_per_arn (ro : RangeOrder)
    (events : list (result logEvent.t)) :
  NoDup (Execution.ExecutionArn <$> collect ro (correlate events))
  /\ (forall exec, exec ∈ collect ro (correlate events) ->
        exists log, firstStarted (Execution.ExecutionArn exec) events = Some log
                    /\ Execution.StartTime exec = stamp log)
  /\ (forall log, isStarted log = true ->
        is_Some (correlate events !! logEvent.ExecutionArn log) ->
        correlate (events ++ [Ok log]) = correlate events).
Proof.
  split; [|split].
  - unfold collect. rewrite (rangeOf_perm ro).
    assert (Hkeys : Execution.ExecutionArn <$> (map snd (map_to_list (correlate events)))
                    = (map_to_list (correlate events)).*1).
    { change (map snd) with (fmap (M:=list) (@snd string Execution.t)).
      rewrite <- list_fmap_compose. apply list_fmap_ext.
      intros i [arn exec] Hin%list_elem_of_lookup_2%elem_of_map_to_list. cbn.
      pose proof (correlate_lookup events arn) as H. rewrite Hin in H. tauto. }
    rewrite Hkeys. apply NoDup_fst_map_to_list.
  - intros exec (arn & Hm)%elem_of_collect.
    pose proof (correlate_lookup events arn) as H. rewrite Hm in H.
    destruct H as (-> & H). done.
  - intros log Hstart [exec Hm]. rewrite correlate_snoc.
    rewrite (correlateStep_present _ _ _ Hm). unfold closes. by rewrite Hstart, andb_false_r.
Qed.

(** The theorem on two start events of one execution: the first one gives
    the start time, and the second one changes nothing. *)
Lemma express_one_record_per_arn_witness :
  (exists log,
      firstStarted "X" [Ok (logEvent.mk "ExecutionStarted" "X" 1000 "")] = Some log
      /\ "1970-01-01T00:00:01Z" = stamp log)
  /\ correlate ([Ok (logEvent.mk "ExecutionStarted" "X" 1000 "")]
                  ++ [Ok (logEvent.mk "ExecutionStarted" "X" 9000 "")])
     = correlate [Ok (logEvent.mk "ExecutionStarted" "X" 1000 "")].
Proof.
  pose proof (express_one_record_per_arn canonicalOrder
                [Ok (logEvent.mk "ExecutionStarted" "X" 1000 "")]) as (_ & Hstart & Hdup).
  split.
  - apply (Hstart (Execution.mk "X" "RUNNING" "1970-01-01T00:00:01Z" EmptyString "N/A")).
    vm_compute. left.
  - apply (Hdup (logEvent.mk "ExecutionStarted" "X" 9000 "")); [reflexivity|].
    vm_compute. eauto.
Defined.

(** A string with a prefix is the prefix followed by a suffix. *)
Lemma HasPrefix_split (s p : string) :
  HasPrefix s p = true -> exists suffix, s = p +:+ suffix.
Proof.
  unfold HasPrefix. revert s. induction p as [|a p IH]; intros s; [by exists s|].
  destruct s as [|c s]; cbn; [done|].
  destruct (ascii_dec a c) as [->|]; [|done].
  intros [suffix ->]%IH. by exists suffix.
Qed.

(** Replacing the first [Execution] of a type that starts with it leaves
    the rest of the type. *)
Lemma Replace_strips_prefix (suffix : string) :
  Replace ("Execution" +:+ suffix) "Execution" EmptyString 1 = suffix.
Proof.
  unfold Replace. cbn [String.eqb Ascii.eqb Bool.eqb orb Z.eqb Z.ltb Z.compare].
  cbn -[String.prefix]. destruct suffix; reflexivity.
Qed.

(** C1, as stated, fails: a second closing event overwrites the status, the
    end time and the duration of a closed record. *)
Lemma closed_record_overwritten :
  let started := logEvent.mk "ExecutionStarted" "X" 1000 "" in
  let succeeded := logEvent.mk "ExecutionSucceeded" "X" 2000 "" in
  let failed := logEvent.mk "ExecutionFailed" "X" 3000 "" in
  correlate [Ok started; Ok succeeded] !! "X" =
    Some (Execution.mk "X" "Succeeded" "1970-01-01T00:00:01Z" "1970-01-01T00:00:02Z" "1s")
  /\ correlate [Ok started; Ok succeeded; Ok failed] !! "X" =
    Some (Execution.mk "X" "Failed" "1970-01-01T00:00:01Z" "1970-01-01T00:00:03Z" "2s").
Proof. split; vm_compute; reflexivity. Qed.

(** C1, amended: an event that is not [ExecutionStarted] for an ARN without a
    record changes nothing, and an ARN without a start event has no record
    in the output; for an ARN with a record, open or closed, an event that
    does not close changes nothing, and a closing event rewrites the status
    (to what follows [Execution] in its type), the end time and the
    duration, keeping the ARN and the start time. *)
Theorem lifecycle_event_effect (ro : RangeOrder)
    (events : list (result logEvent.t)) (log : logEvent.t) :
  (correlate events !! logEvent.ExecutionArn log = None ->
   isStarted log = false ->
   correlate (events ++ [Ok log]) = correlate events)
  /\ (forall arn exec, firstStarted arn events = None ->
        exec ∈ collect ro (correlate events) -> Execution.ExecutionArn exec <> arn)
  /\ (forall exec, correlate events !! logEvent.ExecutionArn log = Some exec ->
        closes log = false ->
        correlate (events ++ [Ok log]) = correlate events)
  /\ (forall exec, correlate events !! logEvent.ExecutionArn log = Some exec ->
        closes log = true ->
        exists suffix,
          logEvent.EventType log = "Execution" +:+ suffix
          /\ correlate (events ++ [Ok log]) !! logEvent.ExecutionArn log =
               Some {| Execution.ExecutionArn := Execution.ExecutionArn exec;
                       Execution.Status := suffix;
                       Execution.StartTime := Execution.StartTime exec;
                       Execution.EndTime := stamp log;
                       Execution.Duration :=
                         DurationString (Sub (parseOrZero (stamp log))
                                             (parseOrZero (Execution.StartTime exec))) |}).
Proof.
  rewrite correlate_snoc. split; [|split; [|split]].
  - intros Hm Hs. by rewrite (correlateStep_absent _ _ Hm), Hs.
  - intros arn exec Hfirst (key & Hm)%elem_of_collect Harn.
    pose proof (correlate_lookup events key) as H. rewrite Hm in H.
    destruct H as (Hkey & log0 & Hlog0 & _). congruence.
  - intros exec Hm Hc. by rewrite (correlateStep_present _ _ _ Hm), Hc.
  - intros exec Hm Hc. rewrite (correlateStep_present _ _ _ Hm), Hc.
    rewrite lookup_insert_eq. unfold closes in Hc.
    apply andb_true_iff in Hc as [[suffix Hsuffix]%HasPrefix_split _].
    exists suffix. split; [done|]. unfold closedBy.
    by rewrite Hsuffix, Replace_strips_prefix.
Qed.

(** The theorem on a failure event that follows a success event. *)
Lemma lifecycle_event_effect_witness :
  exists suffix,
    "ExecutionFailed" = "Execution" +:+ suffix
    /\ correlate ([Ok (logEvent.mk "ExecutionStarted" "X" 1000 "");
                   Ok (logEvent.mk "ExecutionSucceeded" "X" 2000 "")]
                    ++ [Ok (logEvent.mk "ExecutionFailed" "X" 3000 "")]) !! "X" =
         Some {| Execution.ExecutionArn := "X";
                 Execution.Status := suffix;
                 Execution.StartTime := "1970-01-01T00:00:01Z";
                 Execution.EndTime := stamp (logEvent.mk "ExecutionFailed" "X" 3000 "");
                 Execution.Duration :=
                   DurationString
                     (Sub (parseOrZero (stamp (logEvent.mk "ExecutionFailed" "X" 3000 "")))
                          (parseOrZero "1970-01-01T00:00:01Z")) |}.
Proof.
  apply (proj2 (proj2 (proj2
           (lifecycle_event_effect canonicalOrder
              [Ok (logEvent.mk "ExecutionStarted" "X" 1000 "");
               Ok (logEvent.mk "ExecutionSucceeded" "X" 2000 "")]
              (logEvent.mk "ExecutionFailed" "X" 3000 ""))))
           (Execution.mk "X" "Succeeded" "1970-01-01T00:00:01Z" "1970-01-01T00:00:02Z" "1s")).
  - vm_compute. reflexivity.
  - reflexivity.
Defined.

(** C2, as stated, fails: the status keeps the case of the event type, and
    the duration is taken between whole seconds (here 1s for 900ms). *)
Lemma success_status_and_duration :
  let started := logEvent.mk "ExecutionStarted" "X" 1500 "" in
  let succeeded := logEvent.mk "ExecutionSucceeded" "X" 2400 "" in
  collect canonicalOrder (correlate [Ok started; Ok succeeded]) =
    [Execution.mk "X" "Succeeded" "1970-01-01T00:00:01Z" "1970-01-01T00:00:02Z" "1s"]
  /\ "Succeeded" <> "SUCCEEDED"
  /\ DurationString (UnixMilli 2400 - UnixMilli 1500) = "900ms".
Proof. split; [|split]; [vm_compute; reflexivity|discriminate|vm_compute; reflexivity]. Qed.

Lemma filter_unique {A B : Type} `{EqDecision B} (f : A -> B) (l : list A) (x : A) :
  NoDup (f <$> l) -> x ∈ l -> filter (fun y => f y = f x) l = [x].
Proof.
  induction l as [|a l IH]; intros Hnd Hin; [by apply elem_of_nil in Hin|].
  rewrite fmap_cons in Hnd. apply NoDup_cons in Hnd as [Hnotin Hnd].
  rewrite filter_cons. apply elem_of_cons in Hin as [Hxa|Hin].
  - subst a. rewrite decide_True by done. f_equal.
    destruct (filter _ l) as [|y ?] eqn:Hf; [done|].
    assert (Hy : y ∈ filter (fun y => f y = f x) l) by (rewrite Hf; left).
    apply list_elem_of_filter in Hy as [Heq Hy]. destruct Hnotin.
    rewrite <- Heq. by apply list_elem_of_fmap_2.
  - rewrite decide_False; [by apply IH|].
    intros Heq. apply Hnotin. rewrite Heq. by apply list_elem_of_fmap_2.
Qed.

(** C2, amended: a start event for [arn] followed by an
    [ExecutionSucceeded] event for [arn], among events about other ARNs,
    gives exactly one record for [arn]; its status is [Succeeded], its end
    time is the printed time of the success event, and its duration is taken
    between the two printed times as they read back: between the two
    instants cut to whole seconds when their years have four digits. *)
Theorem start_then_success (ro : RangeOrder)
    (pre mid post : list (result logEvent.t)) (arn status1 status2 : string)
    (t1 t2 : Z) :
  Forall (notAbout arn) pre -> Forall (notAbout arn) mid ->
  Forall (notAbout arn) post ->
  let started := logEvent.mk "ExecutionStarted" arn t1 status1 in
  let succeeded := logEvent.mk "ExecutionSucceeded" arn t2 status2 in
  filter (fun exec => Execution.ExecutionArn exec = arn)
    (collect ro (correlate (pre ++ [Ok started] ++ mid ++ [Ok succeeded] ++ post)))
  = [ {| Execution.ExecutionArn := arn;
         Execution.Status := "Succeeded";
         Execution.StartTime := FormatRFC3339 (UnixMilli t1);
         Execution.EndTime := FormatRFC3339 (UnixMilli t2);
         Execution.Duration :=
           DurationString (Sub (parseOrZero (FormatRFC3339 (UnixMilli t2)))
                               (parseOrZero (FormatRFC3339 (UnixMilli t1)))) |} ]
  /\ (fourDigitYear (UnixMilli t1) -> fourDigitYear (UnixMilli t2) ->
      Sub (parseOrZero (FormatRFC3339 (UnixMilli t2)))
          (parseOrZero (FormatRFC3339 (UnixMilli t1)))
      = Sub (t2 / 1000 * Second) (t1 / 1000 * Second)
      /\ (minDuration <= (t2 / 1000 - t1 / 1000) * Second <= maxDuration ->
          Sub (t2 / 1000 * Second) (t1 / 1000 * Second)
          = (t2 / 1000 - t1 / 1000) * Second)).
Proof.
  intros Hpre Hmid Hpost started succeeded. split.
  - set (events := (pre ++ _)%list).
    set (exec := Execution.mk arn "Succeeded" _ _ _).
    assert (Hm : correlate events !! arn = Some exec).
    { subst events. unfold correlate. rewrite !fold_left_app.
      fold (correlate pre).
      rewrite fold_correlateStep_notAbout by done. cbn [fold_left].
      assert (H1 : correlateStep (correlate pre) (Ok started) !! arn = Some (opened started)).
      { assert (Hpre0 : correlate pre !! arn = None).
        { unfold correlate. rewrite fold_correlateStep_notAbout by done.
          apply lookup_empty. }
        rewrite (correlateStep_absent _ started Hpre0).
        change (isStarted started) with true. cbn iota.
        apply lookup_insert_eq. }
      assert (H2 : fold_left correlateStep mid (correlateStep (correlate pre) (Ok started))
                   !! arn = Some (opened started))
        by (by rewrite fold_correlateStep_notAbout).
      rewrite (correlateStep_present _ succeeded _ H2).
      change (closes succeeded) with true. cbn iota.
      by rewrite lookup_insert_eq. }
    change arn with (Execution.ExecutionArn exec) at 1.
    apply (filter_unique Execution.ExecutionArn).
    + apply collect_arns_NoDup.
    + apply elem_of_collect. eauto.
  - intros H1 H2. rewrite !parseOrZero_Format by done.
    unfold truncSecond. rewrite !Unix_UnixMilli. split; [done|].
    intros Hfit. rewrite Sub_exact; lia.
Qed.

(** The theorem at 1500 ms and 2400 ms, with one event of another execution
    in between. *)
Lemma start_then_success_witness :
  let other := logEvent.mk "ExecutionStarted" "Y" 2000 "" in
  filter (fun exec => Execution.ExecutionArn exec = "X")
    (collect canonicalOrder
       (correlate ([] ++ [Ok (logEvent.mk "ExecutionStarted" "X" 1500 "")]
                      ++ [Ok other]
                      ++ [Ok (logEvent.mk "ExecutionSucceeded" "X" 2400 "")] ++ [])))
  = [Execution.mk "X" "Succeeded" (FormatRFC3339 (UnixMilli 1500))
       (FormatRFC3339 (UnixMilli 2400))
       (DurationString (Sub (parseOrZero (FormatRFC3339 (UnixMilli 2400)))
                            (parseOrZero (FormatRFC3339 (UnixMilli 1500)))))]
  /\ (fourDigitYear (UnixMilli 1500) -> fourDigitYear (UnixMilli 2400) ->
      Sub (parseOrZero (FormatRFC3339 (UnixMilli 2400)))
          (parseOrZero (FormatRFC3339 (UnixMilli 1500)))
      = Sub (2400 / 1000 * Second) (1500 / 1000 * Second)
      /\ (minDuration <= (2400 / 1000 - 1500 / 1000) * Second <= maxDuration ->
          Sub (2400 / 1000 * Second) (1500 / 1000 * Second)
          = (2400 / 1000 - 1500 / 1000) * Second)).
Proof.
  intros other.
  apply (start_then_success canonicalOrder [] [Ok other] [] "X" "" "" 1500 2400).
  - constructor.
  - repeat constructor. discriminate.
  - constructor.
Defined.

(** ** The invariant of a closed record *)

Lemma timestamps_app (events more : list (result logEvent.t)) :
  timestamps (events ++ more) = (timestamps events ++ timestamps more)%list.
Proof.
  induction events as [|[log|e] events IH]; cbn; [done| |done]. by rewrite IH.
Qed.

Lemma executionOf_duration (descResult : sfn.DescribeExecutionOutput) :
  Execution.EndTime (executionOf descResult) <> EmptyString ->
  Execution.Duration (executionOf descResult) = durationFromFields (executionOf descResult).
Proof. unfold executionOf, durationFromFields. by destruct (sfn.StopDate descResult). Qed.

(** Every record of [getExecutions] is built from a described execution. *)
Lemma describePage_elem (aws : AWS) (page : list string)
    (executions : list Execution.t) (exec : Execution.t) :
  exec ∈ describePage aws page executions ->
  exec ∈ executions
  \/ exists execArn descResult,
       execArn ∈ page /\ DescribeExecution aws execArn = Ok descResult
       /\ exec = executionOf descResult.
Proof.
  revert executions. induction page as [|execArn page IH]; intros executions; [by left|].
  cbn [describePage]. destruct (DescribeExecution aws execArn) as [descResult|e] eqn:Hd.
  - intros [Hin|(a & d & Ha & Hdesc & ->)]%IH.
    + apply elem_of_app in Hin as [Hin|Hin%list_elem_of_singleton]; [by left|].
      right. exists execArn, descResult. split; [left|done].
    + right. exists a, d. split; [by right|done].
  - intros [Hin|(a & d & Ha & Hdesc & ->)]%IH; [by left|].
    right. exists a, d. split; [by right|done].
Qed.

Lemma describePages_elem (aws : AWS) (pages : list (result (list string)))
    (executions result : list Execution.t) (exec : Execution.t) :
  describePages aws pages executions = Ok result -> exec ∈ result ->
  exec ∈ executions
  \/ exists execArn descResult,
       DescribeExecution aws execArn = Ok descResult /\ exec = executionOf descResult.
Proof.
  revert executions. induction pages as [|[page|e] pages IH]; intros executions.
  - cbn. intros [= ->] Hin. by left.
  - cbn [describePages]. intros Hres Hin.
    destruct (IH _ Hres Hin) as [Hin'|H]; [|by right].
    apply describePage_elem in Hin' as [?|(a & d & _ & ? & ?)]; [by left|right; eauto].
  - done.
Qed.

Lemma getExecutions_elem (aws : AWS) (arn : string)
    (executions : list Execution.t) (exec : Execution.t) :
  getExecutions aws arn = Ok executions -> exec ∈ executions ->
  exists execArn descResult,
    DescribeExecution aws execArn = Ok descResult /\ exec = executionOf descResult.
Proof.
  intros H Hin. destruct (describePages_elem _ _ _ _ _ H Hin) as [Hnil|H']; [|done].
  by apply elem_of_nil in Hnil.
Qed.

(** In the table, a record with an end time has the duration between its
    two time fields. *)
Lemma correlate_duration (events : list (result logEvent.t)) (arn : string)
    (exec : Execution.t) :
  correlate events !! arn = Some exec ->
  Execution.EndTime exec = EmptyString
  \/ Execution.Duration exec = durationFromFields exec.
Proof.
  revert arn exec. induction events as [|event events IH] using rev_ind; [done|].
  intros arn exec. rewrite correlate_snoc. destruct event as [log|e]; [|apply IH].
  destruct (decide (logEvent.ExecutionArn log = arn)) as [<-|Hne];
    [|rewrite correlateStep_notAbout by done; apply IH].
  destruct (correlate events !! logEvent.ExecutionArn log) as [exec0|] eqn:Hm.
  - rewrite (correlateStep_present _ _ _ Hm). destruct (closes log).
    + rewrite lookup_insert_eq. intros [= <-]. right.
      unfold durationFromFields, closedBy.
      cbn [Execution.Duration Execution.EndTime Execution.StartTime]. reflexivity.
    + rewrite Hm. intros [= <-]. by apply (IH _ _ Hm).
  - rewrite (correlateStep_absent _ _ Hm). destruct (isStarted log).
    + rewrite lookup_insert_eq. intros [= <-]. by left.
    + by rewrite Hm.
Qed.

Lemma elem_of_timestamps (events : list (result logEvent.t)) (log : logEvent.t) :
  Ok log ∈ events -> logEvent.Timestamp log ∈ timestamps events.
Proof.
  induction events as [|[l|e] events IH]; cbn [timestamps].
  - by intros ?%elem_of_nil.
  - intros [[= ->]|Hin]%elem_of_cons; [left|right; by apply IH].
  - intros [[=]|Hin]%elem_of_cons. by apply IH.
Qed.

(** A record of the table carries the time of a start event of its ARN,
    and, when it has an end time, the time of a closing event of its ARN
    that arrived after that start event. *)
Lemma correlate_closing (events : list (result logEvent.t)) (arn : string)
    (exec : Execution.t) :
  correlate events !! arn = Some exec ->
  exists pre post s,
    events = (pre ++ Ok s :: post)%list
    /\ isStarted s = true /\ logEvent.ExecutionArn s = arn
    /\ Execution.StartTime exec = stamp s
    /\ (Execution.EndTime exec = EmptyString
        \/ exists c, Ok c ∈ post /\ closes c = true /\ logEvent.ExecutionArn c = arn
                     /\ Execution.EndTime exec = stamp c).
Proof.
  revert exec. induction events as [|event events IH] using rev_ind; [done|].
  intros exec. rewrite correlate_snoc.
  assert (Hkeep : forall r, correlate events !! arn = Some r ->
            exists pre post s,
              (events ++ [event])%list = (pre ++ Ok s :: post)%list
              /\ isStarted s = true /\ logEvent.ExecutionArn s = arn
              /\ Execution.StartTime r = stamp s
              /\ (Execution.EndTime r = EmptyString
                  \/ exists c, Ok c ∈ post /\ closes c = true
                               /\ logEvent.ExecutionArn c = arn
                               /\ Execution.EndTime r = stamp c)).
  { intros r Hr. destruct (IH r Hr) as (pre & post & s & -> & Hs & Harn & Hstart & Hend).
    exists pre, (post ++ [event])%list, s. rewrite <- app_assoc. split; [done|].
    split; [done|]. split; [done|]. split; [done|].
    destruct Hend as [?|(c & Hc & ?)]; [by left|right].
    exists c. split; [apply elem_of_app; by left|done]. }
  destruct event as [log|e]; [|apply Hkeep].
  destruct (decide (logEvent.ExecutionArn log = arn)) as [<-|Hne];
    [|rewrite correlateStep_notAbout by done; apply Hkeep].
  destruct (correlate events !! logEvent.ExecutionArn log) as [exec0|] eqn:Hm.
  - rewrite (correlateStep_present _ _ _ Hm).
    destruct (closes log) eqn:Hcl; [|rewrite Hm; apply Hkeep].
    rewrite lookup_insert_eq. intros [= <-].
    destruct (IH exec0 eq_refl) as (pre & post & s & -> & Hs & Harn & Hstart & _).
    exists pre, (post ++ [Ok log])%list, s. rewrite <- app_assoc. split; [done|].
    split; [done|]. split; [done|].
    cbn [closedBy Execution.StartTime Execution.EndTime]. split; [done|]. right.
    exists log. split; [apply elem_of_app; right; left|done].
  - rewrite (correlateStep_absent _ _ Hm).
    destruct (isStarted log) eqn:Hst; [|by rewrite Hm].
    rewrite lookup_insert_eq. intros [= <-].
    exists events, [], log. cbn [opened Execution.StartTime Execution.EndTime].
    split; [done|]. split; [done|]. split; [done|]. split; [done|by left].
Qed.

Lemma startsStampedFirst_follow (events : list (result logEvent.t)) :
  startsStampedFirst events -> closingsFollowStarts events.
Proof.
  intros H pre post s c -> Hc. apply H.
  - apply elem_of_app. right. left.
  - apply elem_of_app. right. by right.
Qed.

Lemma sorted_follow (events : list (result logEvent.t)) :
  StronglySorted Z.le (timestamps events) -> closingsFollowStarts events.
Proof.
  intros Hsorted pre post s c -> Hc _ _ _.
  rewrite timestamps_app in Hsorted. cbn [timestamps] in Hsorted.
  apply StronglySorted_app_1_r in Hsorted. apply StronglySorted_inv in Hsorted as [_ Hall].
  rewrite Forall_forall in Hall. by apply Hall, elem_of_timestamps.
Qed.

Lemma truncSecond_mono (t u : Time) : t <= u -> truncSecond t <= truncSecond u.
Proof.
  intros H. unfold truncSecond, Unix, Second.
  apply Z.mul_le_mono_nonneg_r; [lia|]. apply Z.div_le_mono; lia.
Qed.

(** C4, as stated, fails: when the closing event carries an earlier time than
    the start event, the record's end time is before its start time. *)
Lemma end_before_start :
  let started := logEvent.mk "ExecutionStarted" "X" 5000 "" in
  let succeeded := logEvent.mk "ExecutionSucceeded" "X" 1000 "" in
  collect canonicalOrder (correlate [Ok started; Ok succeeded]) =
    [Execution.mk "X" "Succeeded" "1970-01-01T00:00:05Z" "1970-01-01T00:00:01Z" "-4s"]
  /\ parseOrZero "1970-01-01T00:00:01Z" < parseOrZero "1970-01-01T00:00:05Z".
Proof. split; vm_compute; reflexivity. Qed.

(** C4, amended: in every record with an end time, from [getExecutions] and
    from the correlation of any sequence of events, the duration is the
    difference of the end time and the start time as the two fields read
    back.  The end time is not before the start time when the stop date is
    not before the start date, respectively, for events in any order, when
    every closing event is stamped no earlier than the start events of its
    ARN that arrived before it (years of four digits); that is so when no
    closing event is stamped before a start event of its ARN, and when the
    events come in time order.  A record has an end time exactly when the
    execution has a stop date, respectively once a closing event has
    written it. *)
Theorem closed_record_invariant (ro : RangeOrder) (aws : AWS) :
  (forall arn executions exec,
      getExecutions aws arn = Ok executions -> exec ∈ executions ->
      Execution.EndTime exec <> EmptyString ->
      Execution.Duration exec = durationFromFields exec)
  /\ (forall events exec,
        exec ∈ collect ro (correlate events) ->
        Execution.EndTime exec <> EmptyString ->
        Execution.Duration exec = durationFromFields exec)
  /\ (forall descResult stopDate,
        sfn.StopDate descResult = Some stopDate ->
        fourDigitYear (sfn.StartDate descResult) -> fourDigitYear stopDate ->
        sfn.StartDate descResult <= stopDate ->
        parseOrZero (Execution.StartTime (executionOf descResult))
        <= parseOrZero (Execution.EndTime (executionOf descResult)))
  /\ (forall events exec,
        closingsFollowStarts events ->
        Forall (fun t => fourDigitYear (UnixMilli t)) (timestamps events) ->
        exec ∈ collect ro (correlate events) ->
        Execution.EndTime exec <> EmptyString ->
        parseOrZero (Execution.StartTime exec) <= parseOrZero (Execution.EndTime exec))
  /\ (forall events, startsStampedFirst events -> closingsFollowStarts events)
  /\ (forall events,
        StronglySorted Z.le (timestamps events) -> closingsFollowStarts events)
  /\ (forall descResult,
        Execution.EndTime (executionOf descResult) <> EmptyString
        <-> is_Some (sfn.StopDate descResult))
  /\ (forall exec log, Execution.EndTime (closedBy exec log) <> EmptyString).
Proof.
  split; [|split; [|split; [|split; [|split; [|split; [|split]]]]]].
  - intros arn executions exec Hget Hin Hend.
    destruct (getExecutions_elem _ _ _ _ Hget Hin) as (a & d & _ & ->).
    by apply executionOf_duration.
  - intros events exec (arn & Hm)%elem_of_collect Hend.
    by destruct (correlate_duration _ _ _ Hm).
  - intros descResult stopDate Hstop Hy1 Hy2 Hle. unfold executionOf.
    rewrite Hstop. cbn [Execution.StartTime Execution.EndTime].
    rewrite !parseOrZero_Format by done.
    by apply truncSecond_mono.
  - intros events exec Hfollow Hyears (arn & Hm)%elem_of_collect Hend.
    destruct (correlate_closing _ _ _ Hm)
      as (pre & post & s & Hevents & Hs & Harn & -> & [?|Hclosed]); [done|].
    destruct Hclosed as (c & Hc & Hcl & Harn' & ->).
    assert (Hle : logEvent.Timestamp s <= logEvent.Timestamp c)
      by (apply (Hfollow pre post s c); congruence).
    rewrite Forall_forall in Hyears. unfold stamp.
    rewrite !parseOrZero_Format.
    + apply truncSecond_mono. unfold UnixMilli. lia.
    + apply Hyears, elem_of_timestamps. rewrite Hevents.
      apply elem_of_app. right. by right.
    + apply Hyears, elem_of_timestamps. rewrite Hevents.
      apply elem_of_app. right. left.
  - apply startsStampedFirst_follow.
  - apply sorted_follow.
  - intros descResult. unfold executionOf.
    destruct (sfn.StopDate descResult) as [stopDate|]; cbn [Execution.EndTime].
    + split; [eauto|]. intros _. apply FormatRFC3339_nonempty.
    + split; [done|]. by intros [? ?].
  - intros exec log. apply FormatRFC3339_nonempty.
Qed.

(** The theorem on events that are not in time order: the start event of
    another execution, stamped earlier, stands between the start event and
    the closing event of [X]. *)
Lemma closed_record_invariant_witness :
  let events := [Ok (logEvent.mk "ExecutionStarted" "X" 1000 "");
                 Ok (logEvent.mk "ExecutionStarted" "Y" 500 "");
                 Ok (logEvent.mk "ExecutionSucceeded" "X" 2000 "")] in
  let exec :=
    Execution.mk "X" "Succeeded" "1970-01-01T00:00:01Z" "1970-01-01T00:00:02Z" "1s" in
  Execution.Duration exec = durationFromFields exec
  /\ parseOrZero (Execution.StartTime exec) <= parseOrZero (Execution.EndTime exec).
Proof.
  intros events exec.
  pose proof (closed_record_invariant canonicalOrder oneExecution)
    as (_ & Hduration & _ & Horder & Hfirst & _).
  assert (Hin : exec ∈ collect canonicalOrder (correlate events)) 
    by (vm_compute; first [left | right; left]).
  split.
  - apply (Hduration events exec Hin). discriminate.
  - apply (Horder events exec); [| |exact Hin|discriminate].
    + apply Hfirst. intros s c Hs Hc Hst Hcl Harn. unfold events in Hs, Hc.
      repeat (apply elem_of_cons in Hs as [Hs|Hs]); try (by apply elem_of_nil in Hs);
        repeat (apply elem_of_cons in Hc as [Hc|Hc]); try (by apply elem_of_nil in Hc);
        injection Hs as ->; injection Hc as ->;
        first [discriminate Hst | discriminate Hcl | discriminate Harn
              | vm_compute; discriminate].
    + unfold events. cbn [timestamps logEvent.Timestamp].
      repeat constructor; vm_compute; discriminate.
Defined.

(** ** STANDARD workflows *)

(** C6, as stated, fails: the duration is taken between whole seconds, here
    1s for an execution that ran 200ms. *)
Lemma standard_duration_whole_seconds :
  getExecutions oneExecution "M" =
    Ok [Execution.mk "E" "SUCCEEDED" "1970-01-01T00:00:00Z" "1970-01-01T00:00:01Z" "1s"]
  /\ DurationString (1100000000 - 900000000) = "200ms".
Proof. split; vm_compute; reflexivity. Qed.

Lemma Sub_nonneg (t u : Time) : u <= t -> 0 <= Sub t u.
Proof.
  intros H. unfold Sub, minDuration, maxDuration.
  assert (0 < 2 ^ 63) by (apply Z.pow_pos_nonneg; lia). lia.
Qed.

(** C6, amended: a record of [getExecutions] carries the ARN, the status and
    the start date of a described execution, whatever the status is.  With a
    stop date, the end time is the stop date as printed and the duration is
    taken between the two printed times: between stop and start, each cut to
    whole seconds, when their years have four digits, and then not negative
    if the stop date is not before the start date.  Without a stop date the
    end time is empty and the duration is [N/A]. *)
Theorem standard_execution_record (aws : AWS) (arn : string)
    (executions : list Execution.t) (exec : Execution.t) :
  getExecutions aws arn = Ok executions -> exec ∈ executions ->
  exists execArn descResult,
    DescribeExecution aws execArn = Ok descResult
    /\ Execution.ExecutionArn exec = sfn.ExecutionArn descResult
    /\ Execution.Status exec = sfn.Status descResult
    /\ Execution.StartTime exec = FormatRFC3339 (sfn.StartDate descResult)
    /\ match sfn.StopDate descResult with
       | Some stopDate =>
           Execution.EndTime exec = FormatRFC3339 stopDate
           /\ Execution.Duration exec =
                DurationString (Sub (parseOrZero (FormatRFC3339 stopDate))
                                    (parseOrZero (FormatRFC3339 (sfn.StartDate descResult))))
           /\ (fourDigitYear (sfn.StartDate descResult) -> fourDigitYear stopDate ->
               Execution.Duration exec =
                 DurationString (Sub (truncSecond stopDate)
                                     (truncSecond (sfn.StartDate descResult)))
               /\ (sfn.StartDate descResult <= stopDate ->
                   0 <= Sub (truncSecond stopDate) (truncSecond (sfn.StartDate descResult))))
       | None =>
           Execution.EndTime exec = EmptyString /\ Execution.Duration exec = "N/A"
       end.
Proof.
  intros Hget Hin.
  destruct (getExecutions_elem _ _ _ _ Hget Hin) as (execArn & descResult & Hd & ->).
  exists execArn, descResult. split; [done|]. unfold executionOf.
  destruct (sfn.StopDate descResult) as [stopDate|];
    cbn [Execution.ExecutionArn Execution.Status Execution.StartTime
         Execution.EndTime Execution.Duration]; [|done].
  do 5 (split; [done|]). intros Hy1 Hy2. split.
  - by rewrite !parseOrZero_Format.
  - intros Hle. by apply Sub_nonneg, truncSecond_mono.
Qed.

(** The theorem on the execution of [oneExecution]. *)
Lemma standard_execution_record_witness :
  exists execArn descResult,
    DescribeExecution oneExecution execArn = Ok descResult
    /\ "E" = sfn.ExecutionArn descResult
    /\ "SUCCEEDED" = sfn.Status descResult
    /\ "1970-01-01T00:00:00Z" = FormatRFC3339 (sfn.StartDate descResult)
    /\ match sfn.StopDate descResult with
       | Some stopDate =>
           "1970-01-01T00:00:01Z" = FormatRFC3339 stopDate
           /\ "1s" =
                DurationString (Sub (parseOrZero (FormatRFC3339 stopDate))
                                    (parseOrZero (FormatRFC3339 (sfn.StartDate descResult))))
           /\ (fourDigitYear (sfn.StartDate descResult) -> fourDigitYear stopDate ->
               "1s" =
                 DurationString (Sub (truncSecond stopDate)
                                     (truncSecond (sfn.StartDate descResult)))
               /\ (sfn.StartDate descResult <= stopDate ->
                   0 <= Sub (truncSecond stopDate) (truncSecond (sfn.StartDate descResult))))
       | None => "1970-01-01T00:00:01Z" = EmptyString /\ "1s" = "N/A"
       end.
Proof.
  apply (standard_execution_record oneExecution "M"
           [Execution.mk "E" "SUCCEEDED" "1970-01-01T00:00:00Z" "1970-01-01T00:00:01Z" "1s"]
           (Execution.mk "E" "SUCCEEDED" "1970-01-01T00:00:00Z" "1970-01-01T00:00:01Z" "1s")).
  - vm_compute. reflexivity.
  - left.
Defined.

(** ** The ASL definition parser *)

Lemma valueInterface_object (members : list (string * json)) :
  valueInterface (JObject members) =
    match objectInto members ∅ with Ok m => Ok (VMap m) | Err e => Err e end.
Proof.
  cbn [valueInterface]. generalize (∅ : gmap string value).
  induction members as [|[key x] members IH]; intros m; [done|].
  cbn [objectInto]. destruct (valueInterface x); [apply IH|done].
Qed.

Lemma objectInto_isErr (members : list (string * json)) (m : gmap string value) :
  Forall (fun kv => isErr (valueInterface kv.2) = negb (numbersFit kv.2)) members ->
  isErr (objectInto members m) = negb (forallb (fun '(_, v) => numbersFit v) members).
Proof.
  intros H. revert m. induction H as [|[key x] members Hx _ IH]; intros m; [done|].
  cbn [objectInto forallb]. cbn in Hx.
  destruct (valueInterface x); destruct (numbersFit x); by try apply IH.
Qed.

(** Decoding into [interface{}] fails exactly on a number out of range. *)
Lemma valueInterface_isErr (j : json) :
  isErr (valueInterface j) = negb (numbersFit j).
Proof.
  induction j as [| | | |elems IH|members IH] using json_nested_ind; try done.
  - cbn. by destruct (inFloat64Range lit).
  - cbn [valueInterface numbersFit]. generalize (@nil value).
    induction IH as [|x elems Hx _ IH']; intros acc; [done|].
    cbn [forallb]. destruct (valueInterface x); destruct (numbersFit x);
      by try apply IH'.
  - rewrite valueInterface_object. cbn [numbersFit].
    rewrite <- (objectInto_isErr members ∅ IH). by destruct (objectInto members ∅).
Qed.

Lemma decodeRawState_isErr (j : json) :
  isErr (decodeRawState j) = negb (stateFits j).
Proof.
  destruct j; try done. cbn [decodeRawState stateFits].
  rewrite <- (objectInto_isErr members ∅).
  - by destruct (objectInto members ∅).
  - apply Forall_forall. intros kv _. apply valueInterface_isErr.
Qed.

Lemma statesInto_isErr (members : list (string * json))
    (m : gmap string (goMap value)) :
  isErr (statesInto members m) = negb (forallb (fun '(_, v) => stateFits v) members).
Proof.
  revert m. induction members as [|[key x] members IH]; intros m; [done|].
  cbn [statesInto forallb]. pose proof (decodeRawState_isErr x) as Hx.
  destruct (decodeRawState x); destruct (stateFits x); by try apply IH.
Qed.

Lemma decodeStatesField_isErr (j : json) (cur : goMap (goMap value)) :
  isErr (decodeStatesField j cur) = negb (statesFit j).
Proof.
  destruct j; try done. cbn [decodeStatesField statesFit].
  rewrite <- (statesInto_isErr members (default ∅ cur)).
  by destruct (statesInto members (default ∅ cur)).
Qed.

Lemma structInto_isErr (members : list (string * json)) (cur : goMap (goMap value)) :
  isErr (structInto members cur) =
    negb (forallb (fun '(key, v) => negb (isStatesKey key) || statesFit v) members).
Proof.
  revert cur. induction members as [|[key x] members IH]; intros cur; [done|].
  cbn [structInto forallb]. destruct (isStatesKey key); cbn [negb orb]; [|apply IH].
  pose proof (decodeStatesField_isErr x cur) as Hx.
  destruct (decodeStatesField x cur); destruct (statesFit x); by try apply IH.
Qed.

(** [json.Unmarshal] into [aslDef] fails exactly on a malformed text and on a
    text that does not fit. *)
Lemma UnmarshalAslDef_isErr (definition : document) :
  isErr (UnmarshalAslDef definition) =
    match definition with None => true | Some j => negb (fitsAslDef j) end.
Proof.
  destruct definition as [[| | | | |members]|]; try done. apply structInto_isErr.
Qed.

Lemma lastBinding_is_Some (key : string) (members : list (string * json)) :
  is_Some (lastBinding key members) <-> key ∈ members.*1.
Proof.
  induction members as [|[k v] members IH]; cbn [lastBinding].
  - split; [by intros [? ?]|by intros ?%elem_of_nil].
  - rewrite fmap_cons, elem_of_cons. cbn [fst].
    destruct (lastBinding key members) as [j|].
    + split; [right; apply IH; eauto|eauto].
    + destruct (String.eqb_spec k key) as [->|Hne].
      * split; [by left|eauto].
      * split; [by intros [? ?]|]. intros [?|Hin]; [congruence|].
        apply IH in Hin. by destruct Hin.
Qed.

(** The map [objectInto] builds binds each key to the decoded value of its
    last member. *)
Lemma objectInto_lookup (fields : list (string * json)) (m0 m : gmap string value)
    (key : string) :
  objectInto fields m0 = Ok m ->
  match lastBinding key fields with
  | Some j => exists v, valueInterface j = Ok v /\ m !! key = Some v
  | None => m !! key = m0 !! key
  end.
Proof.
  revert m0. induction fields as [|[k x] fields IH]; intros m0; cbn [objectInto lastBinding].
  - by intros [= ->].
  - destruct (valueInterface x) as [v|] eqn:Hx; [|done]. intros H.
    specialize (IH _ H). destruct (lastBinding key fields); [done|].
    rewrite IH. destruct (String.eqb_spec k key) as [->|Hne].
    + exists v. by rewrite lookup_insert_eq.
    + by rewrite lookup_insert_ne.
Qed.

(** The same for the map of states. *)
Lemma statesInto_lookup (states : list (string * json))
    (m0 m : gmap string (goMap value)) (key : string) :
  statesInto states m0 = Ok m ->
  match lastBinding key states with
  | Some j => exists raw, decodeRawState j = Ok raw /\ m !! key = Some raw
  | None => m !! key = m0 !! key
  end.
Proof.
  revert m0. induction states as [|[k x] states IH]; intros m0; cbn [statesInto lastBinding].
  - by intros [= ->].
  - destruct (decodeRawState x) as [raw|] eqn:Hx; [|done]. intros H.
    specialize (IH _ H). destruct (lastBinding key states); [done|].
    rewrite IH. destruct (String.eqb_spec k key) as [->|Hne].
    + exists raw. by rewrite lookup_insert_eq.
    + by rewrite lookup_insert_ne.
Qed.

(** Decoding keeps the kind of a value. *)
Lemma valueInterface_kind (j : json) (v : value) :
  valueInterface j = Ok v ->
  match v with
  | VNil => j = JNull
  | VBool b => j = JBool b
  | VFloat64 lit => j = JNumber lit
  | VString s => j = JString s
  | VSlice _ => exists elems, j = JArray elems
  | VMap _ => exists members, j = JObject members
  end.
Proof.
  destruct j as [| | | |elems|members].
  - by intros [= <-].
  - by intros [= <-].
  - cbn. destruct (inFloat64Range lit); [by intros [= <-]|done].
  - by intros [= <-].
  - cbn [valueInterface]. generalize (@nil value). intros acc H.
    assert (exists vs, v = VSlice vs) as [vs ->]; [|eauto].
    revert acc H. induction elems as [|x elems IH]; intros acc.
    + intros [= <-]. eauto.
    + destruct (valueInterface x); [apply IH|done].
  - rewrite valueInterface_object.
    destruct (objectInto members ∅); [intros [= <-]; eauto|done].
Qed.

Ltac by_kind H :=
  let Hk := fresh "Hk" in
  pose proof (valueInterface_kind _ _ H) as Hk;
  match type of H with
  | valueInterface _ = Ok ?v => destruct v
  end;
  cbn beta iota in Hk;
  lazymatch type of Hk with
  | ex _ => destruct Hk as [? ->]
  | _ => rewrite Hk
  end;
  try done.

Lemma assertString_decoded (j : json) (v : value) :
  valueInterface j = Ok v ->
  assertString (Some v) = match j with JString s => s | _ => EmptyString end.
Proof. intros H. by_kind H. Qed.

Lemma assertBool_decoded (j : json) (v : value) :
  valueInterface j = Ok v ->
  assertBool (Some v) = match j with JBool b => b | _ => false end.
Proof. intros H. by_kind H. Qed.

Lemma assertMap_decoded (j : json) (v : value) :
  valueInterface j = Ok v ->
  assertMap (Some v) = None <-> forall members, j <> JObject members.
Proof.
  intros H. by_kind H. split; [done|]. intros Hno. by edestruct Hno.
Qed.

(** C7, as stated, fails: a well-formed text whose state is a number, and a
    well-formed text that is an array, are rejected. *)
Lemma wellformed_definition_rejected :
  parseDefinition canonicalOrder
    (Some (JObject [("States", JObject [("A", JNumber "5")])]))
  = Err (Wrap "failed to unmarshal ASL definition" (UnmarshalTypeError "number"))
  /\ parseDefinition canonicalOrder (Some (JArray []))
     = Err (Wrap "failed to unmarshal ASL definition" (UnmarshalTypeError "array")).
Proof. split; vm_compute; reflexivity. Qed.

(** C7, amended: the parser returns an error exactly when [json.Unmarshal]
    does: on a malformed text, and on a well-formed text that does not fit
    (the text, a [States] member or a state is neither an object nor
    [null], or a number inside a state is out of range).  For a state object,
    the fields [Type], [Next], [End] and [Parameters] take the value of the
    last member of that name when it is a string, a string, a boolean and an
    object, and the zero value otherwise; a [null] state has zero values. *)
Theorem parseDefinition_errors (ro : RangeOrder) :
  (forall definition,
      (exists e, parseDefinition ro definition = Err e)
      <-> (definition = None \/ exists j, definition = Some j /\ fitsAslDef j = false))
  /\ (forall name fields raw, objectInto fields ∅ = Ok raw ->
        let st := stateOf (name, Some raw) in
        State.Type_ st =
          match lastBinding "Type" fields with Some (JString s) => s | _ => EmptyString end
        /\ State.Next st =
          match lastBinding "Next" fields with Some (JString s) => s | _ => EmptyString end
        /\ State.End_ st =
          match lastBinding "End" fields with Some (JBool b) => b | _ => false end
        /\ (State.Parameters st = None
            <-> forall members, lastBinding "Parameters" fields <> Some (JObject members)))
  /\ (forall name,
        stateOf (name, None) = State.mk name EmptyString EmptyString false None None).
Proof.
  split; [|split; [|done]].
  - intros definition. pose proof (UnmarshalAslDef_isErr definition) as H.
    unfold parseDefinition. split.
    + intros [e He]. destruct definition as [j|]; [right|by left].
      exists j. split; [done|]. destruct (UnmarshalAslDef (Some j)); [done|].
      by apply negb_true_iff.
    + intros [->|(j & -> & Hfit)]; [cbn; eauto|].
      rewrite Hfit in H. destruct (UnmarshalAslDef (Some j)); [done|eauto].
  - intros name fields raw Hraw. cbn [stateOf State.Type_ State.Next State.End_
                                      State.Parameters index].
    pose proof (objectInto_lookup _ _ _ "Type" Hraw) as HT.
    pose proof (objectInto_lookup _ _ _ "Next" Hraw) as HN.
    pose proof (objectInto_lookup _ _ _ "End" Hraw) as HE.
    pose proof (objectInto_lookup _ _ _ "Parameters" Hraw) as HP.
    split; [|split; [|split]].
    + destruct (lastBinding "Type" fields) as [j|]; [|by rewrite HT].
      destruct HT as (v & Hv & ->). by apply assertString_decoded.
    + destruct (lastBinding "Next" fields) as [j|]; [|by rewrite HN].
      destruct HN as (v & Hv & ->). by apply assertString_decoded.
    + destruct (lastBinding "End" fields) as [j|]; [|by rewrite HE].
      destruct HE as (v & Hv & ->). by apply assertBool_decoded.
    + destruct (lastBinding "Parameters" fields) as [j|]; [|by rewrite HP].
      destruct HP as (v & Hv & ->). rewrite (assertMap_decoded _ _ Hv).
      split; intros Hno members; [intros [= ->]|intros ->]; by destruct (Hno members).
Qed.

(** The theorem on a state whose [Next] is a number and which has no [End]
    and no [Parameters]. *)
Lemma parseDefinition_errors_witness :
  let fields := [("Type", JString "Pass"); ("Next", JNumber "5")] in
  let raw : gmap string value := <["Next" := VFloat64 "5"]> (<["Type" := VString "Pass"]> ∅) in
  let st := stateOf ("A", Some raw) in
  State.Type_ st = "Pass"
  /\ State.Next st = EmptyString
  /\ State.End_ st = false
  /\ (State.Parameters st = None
      <-> forall members, lastBinding "Parameters" fields <> Some (JObject members)).
Proof.
  intros fields raw st.
  apply (proj1 (proj2 (parseDefinition_errors canonicalOrder)) "A" fields raw).
  reflexivity.
Defined.

(** Only the members that select [States] matter to the decoder. *)
Lemma structInto_filter (members : list (string * json)) (cur : goMap (goMap value)) :
  structInto members cur =
    structInto (filter (fun kv => isStatesKey kv.1 = true) members) cur.
Proof.
  revert cur. induction members as [|[key x] members IH]; intros cur; [done|].
  rewrite filter_cons. cbn [fst structInto].
  destruct (isStatesKey key) eqn:Hkey.
  - rewrite decide_True by done. cbn [structInto]. rewrite Hkey.
    destruct (decodeStatesField x cur); [apply IH|done].
  - rewrite decide_False by done. apply IH.
Qed.

Lemma stateOf_Name (entries : list (string * goMap value)) :
  State.Name <$> map stateOf entries = entries.*1.
Proof. induction entries as [|[name raw] entries IH]; cbn; [done|]. by rewrite <- IH. Qed.

Lemma statesInto_app (states more : list (string * json)) (m : gmap string (goMap value)) :
  statesInto (states ++ more)%list m =
    match statesInto states m with
    | Ok m' => statesInto more m'
    | Err e => Err e
    end.
Proof.
  revert m. induction states as [|[key x] states IH]; intros m; [done|].
  cbn [app statesInto]. destruct (decodeRawState x); [apply IH|done].
Qed.

(** The map the decoder leaves in [States] is the one the members of
    [stateMembers] give, decoded in order. *)
Lemma structInto_statesAfter (members acc : list (string * json))
    (cur cur' : goMap (goMap value)) :
  statesInto acc ∅ = Ok (default ∅ cur) ->
  structInto members cur = Ok cur' ->
  statesInto (statesAfter members acc) ∅ = Ok (default ∅ cur').
Proof.
  revert acc cur. induction members as [|[key x] members IH]; intros acc cur Hacc.
  - cbn. by intros [= <-].
  - cbn [structInto statesAfter]. destruct (isStatesKey key); [|by apply IH].
    destruct x as [| | | | |states]; try done.
    + cbn [decodeStatesField]. by apply IH.
    + cbn [decodeStatesField].
      destruct (statesInto states (default ∅ cur)) as [m|] eqn:Hm; [|done].
      apply IH. by rewrite statesInto_app, Hacc.
Qed.

Lemma UnmarshalAslDef_stateMembers (j : json) (cur : goMap (goMap value)) :
  UnmarshalAslDef (Some j) = Ok cur ->
  statesInto (stateMembers j) ∅ = Ok (default ∅ cur).
Proof.
  destruct j as [| | | | |members]; try done.
  - by intros [= <-].
  - cbn [UnmarshalAslDef stateMembers]. by apply structInto_statesAfter.
Qed.

(** C3, as stated, fails: these definitions parse as JSON and their
    [States] object has one key, yet the parser returns an error and no
    entry, because a number in the state does not fit a [float64], and
    because the state is a string. *)
Lemma state_key_without_entry :
  parseDefinition canonicalOrder
    (Some (JObject [("States",
                     JObject [("A", JObject [("Type", JString "Task");
                                             ("TimeoutSeconds", JNumber "1e999")])])]))
  = Err (Wrap "failed to unmarshal ASL definition" (UnmarshalTypeError "number 1e999"))
  /\ parseDefinition canonicalOrder
       (Some (JObject [("States", JObject [("A", JString "Pass")])]))
     = Err (Wrap "failed to unmarshal ASL definition" (UnmarshalTypeError "string")).
Proof. split; vm_compute; reflexivity. Qed.

(** C3, amended: for every definition that [json.Unmarshal] accepts (the
    text, what is stored under [States] and every state are objects or
    [null], and the numbers inside the states fit a [float64]), the parser
    returns one entry per distinct state key: the names of the entries are
    the distinct keys, each once, in some order, and the raw definition of
    an entry is the decoded state of that name (the last one, should the
    key repeat). *)
Theorem parseDefinition_entries (ro : RangeOrder) (j : json) :
  fitsAslDef j = true ->
  exists entries,
    parseDefinition ro (Some j) = Ok entries
    /\ length entries = length (remove_dups (stateMembers j).*1)
    /\ State.Name <$> entries ≡ₚ remove_dups (stateMembers j).*1
    /\ (forall entry, entry ∈ entries ->
          exists x,
            lastBinding (State.Name entry) (stateMembers j) = Some x
            /\ decodeRawState x = Ok (State.RawDefinition entry)
            /\ (forall fields, x = JObject fields ->
                  exists raw, objectInto fields ∅ = Ok raw
                              /\ State.RawDefinition entry = Some raw)).
Proof.
  intros Hfit.
  pose proof (UnmarshalAslDef_isErr (Some j)) as Herr. cbn beta iota in Herr.
  rewrite Hfit in Herr.
  destruct (UnmarshalAslDef (Some j)) as [cur|] eqn:Hcur; [clear Herr|done].
  pose proof (UnmarshalAslDef_stateMembers j cur Hcur) as Hm.
  set (states := stateMembers j) in *. set (m := default ∅ cur) in *.
  unfold parseDefinition. rewrite Hcur. fold m. eexists. split; [done|].
  assert (Hnames : State.Name <$> map stateOf (rangeOf ro m) ≡ₚ remove_dups states.*1).
  { rewrite stateOf_Name, (rangeOf_perm ro). apply NoDup_Permutation.
    - apply NoDup_fst_map_to_list.
    - apply NoDup_remove_dups.
    - intros name. rewrite elem_of_remove_dups, <- lastBinding_is_Some. split.
      + intros ([k raw] & -> & Hin%elem_of_map_to_list)%list_elem_of_fmap.
        cbn [fst]. pose proof (statesInto_lookup _ _ _ k Hm) as Hl.
        destruct (lastBinding k states); [eauto|].
        rewrite lookup_empty in Hl. unfold goMap in *. by rewrite Hl in Hin.
      + intros [x Hx]. pose proof (statesInto_lookup _ _ _ name Hm) as Hl.
        rewrite Hx in Hl. destruct Hl as (raw & _ & Hraw).
        apply list_elem_of_fmap. exists (name, raw). split; [done|].
        by apply elem_of_map_to_list. }
  split; [|split; [done|]].
  - rewrite <- (length_fmap State.Name). by rewrite Hnames.
  - intros entry ([name raw] & -> & Hin)%list_elem_of_fmap.
    rewrite (rangeOf_perm ro) in Hin. apply elem_of_map_to_list in Hin.
    cbn [stateOf State.Name State.RawDefinition].
    pose proof (statesInto_lookup _ _ _ name Hm) as Hl.
    destruct (lastBinding name states) as [x|] eqn:Hx;
      [|rewrite lookup_empty in Hl; unfold goMap in *; by rewrite Hl in Hin].
    destruct Hl as (raw' & Hdec & Hraw). unfold goMap in *. rewrite Hin in Hraw.
    injection Hraw as <-. exists x. split; [done|]. split; [done|].
    intros fields ->. cbn [decodeRawState] in Hdec.
    destruct (objectInto fields ∅) as [m'|] eqn:Hobj; [|done].
    injection Hdec as <-. eauto.
Qed.

(** The theorem on [twoStatesDefinition] and on [mergedDefinition]. *)
Lemma parseDefinition_entries_witness :
  (exists entries,
      parseDefinition canonicalOrder (Some (JObject twoStatesDefinition)) = Ok entries
      /\ State.Name <$> entries ≡ₚ ["A"; "B"]%string)
  /\ exists entries,
       parseDefinition canonicalOrder (Some (JObject mergedDefinition)) = Ok entries
       /\ State.Name <$> entries ≡ₚ ["A"; "B"; "C"]%string.
Proof.
  split.
  - destruct (parseDefinition_entries canonicalOrder (JObject twoStatesDefinition) eq_refl)
      as (entries & Hparse & _ & Hnames & _).
    exists entries. split; [exact Hparse|exact Hnames].
  - destruct (parseDefinition_entries canonicalOrder (JObject mergedDefinition) eq_refl)
      as (entries & Hparse & _ & Hnames & _).
    exists entries. split; [exact Hparse|exact Hnames].
Defined.

(** ** EXPRESS workflows without a log group *)

(** X23: for an EXPRESS state machine whose logging configuration names no
    log group in one of the three ways the code checks (no configuration,
    no destination, a first log group without ARN), [getExpressExecutions]
    returns an error, and [getStateMachineDetails] (the definition having
    parsed) returns the machine with the one sentinel record in place of
    its executions, so that [ListStateMachines] keeps the machine and goes
    on. *)
Theorem express_without_log_group (ro : RangeOrder) (aws : AWS) (arn : string)
    (result : sfn.DescribeStateMachineOutput) (states : list State.t) :
  DescribeStateMachine aws arn = Ok result ->
  sfn.Type_ result = "EXPRESS" ->
  noLogGroup result ->
  parseDefinition ro (sfn.Definition_ result) = Ok states ->
  (exists e, getExpressExecutions ro aws result = Done (Err e))
  /\ exists details,
       getStateMachineDetails ro aws arn = Done (Ok details)
       /\ StateMachine.Executions details =
            [Execution.mk "N/A" "Not supported (check CloudWatch Logs configuration)"
               EmptyString EmptyString "N/A"]
       /\ forall rest stateMachines,
            detailsOfPage ro aws (arn :: rest) stateMachines =
              detailsOfPage ro aws rest (stateMachines ++ [details]).
Proof.
  intros Hdesc Htype Hno Hparse.
  assert (Hfetch : exists e, getExpressExecutions ro aws result = Done (Err e)).
  { unfold getExpressExecutions, noLogGroup in *.
    destruct (sfn.LoggingConfiguration_ result) as [cfg|]; [|eauto].
    destruct (sfn.Destinations cfg) as [|dest ?]; [eauto|].
    destruct Hno as (group & -> & ->). eauto. }
  split; [done|]. destruct Hfetch as [e He].
  assert (Hdetails : exists details,
             getStateMachineDetails ro aws arn = Done (Ok details)
             /\ StateMachine.Executions details =
                  [Execution.mk "N/A" "Not supported (check CloudWatch Logs configuration)"
                     EmptyString EmptyString "N/A"]).
  { unfold getStateMachineDetails, fetchExecutions.
    rewrite Hdesc, Hparse, Htype. cbn [String.eqb Ascii.eqb Bool.eqb].
    rewrite He. eauto. }
  destruct Hdetails as (details & Hd & Hexecs). exists details.
  split; [done|]. split; [done|]. intros rest stateMachines.
  cbn [detailsOfPage]. by rewrite Hd.
Qed.

(** The theorem on [expressWithoutLogging]. *)
Lemma express_without_log_group_witness :
  (exists e,
      getExpressExecutions canonicalOrder expressWithoutLogging
        {| sfn.Name := "m"; sfn.StateMachineArn := "arn:m"; sfn.RoleArn := "arn:role";
           sfn.Definition_ := Some (JObject [("States", JObject [])]);
           sfn.Type_ := "EXPRESS"; sfn.LoggingConfiguration_ := None;
           sfn.CreationDate := 0 |} = Done (Err e))
  /\ exists details,
       getStateMachineDetails canonicalOrder expressWithoutLogging "arn:m" = Done (Ok details)
       /\ StateMachine.Executions details =
            [Execution.mk "N/A" "Not supported (check CloudWatch Logs configuration)"
               EmptyString EmptyString "N/A"]
       /\ forall rest stateMachines,
            detailsOfPage canonicalOrder expressWithoutLogging ("arn:m" :: rest) stateMachines =
              detailsOfPage canonicalOrder expressWithoutLogging rest (stateMachines ++ [details]).
Proof.
  apply (express_without_log_group canonicalOrder expressWithoutLogging "arn:m" _ []).
  - reflexivity.
  - reflexivity.
  - exact I.
  - vm_compute. reflexivity.
Defined.

(** C8: on [brokenExpress], whose logging configuration has a destination
    that references no log group, the execution fetch does not fail with an
    error: reading the log group's ARN dereferences the nil pointer and
    panics, so that no sentinel record is substituted, and
    [getStateMachineDetails] and [ListStateMachines] end by the panic. *)
Lemma express_nil_log_group_panics :
  (forall result,
      DescribeStateMachine brokenExpress "arn:x" = Ok result ->
      getExpressExecutions canonicalOrder brokenExpress result
      = Panic "nil pointer dereference")
  /\ getStateMachineDetails canonicalOrder brokenExpress "arn:x"
     = Panic "nil pointer dereference"
  /\ ListStateMachines canonicalOrder brokenExpress = Panic "nil pointer dereference".
Proof.
  split; [|split; vm_compute; reflexivity]. by intros result [= <-].
Qed.

(** ** The output writer *)

(** One turn of the loop of [processExecutions]. *)
Lemma processExecution_step (fs : FileSystem) (outputDir smName : string)
    (rows : list (list string)) (w : world) (exec : Execution.t) :
  processExecution fs outputDir smName (rows, w) exec =
    ((rows ++ [tableRow exec])%list,
     if decide (Execution.ExecutionArn exec = "N/A") then w
     else
       match fs (executionPath outputDir smName exec) with
       | Some err =>
           {| writeCalls :=
                writeCalls w ++ [(executionPath outputDir smName exec, ExecutionJSON exec)];
              files := files w;
              console :=
                console w
                  ++ [Logged ("Failed to save execution " +:+ Execution.ExecutionArn exec) err] |}
       | None =>
           {| writeCalls :=
                writeCalls w ++ [(executionPath outputDir smName exec, ExecutionJSON exec)];
              files := <[executionPath outputDir smName exec := ExecutionJSON exec]> (files w);
              console := console w |}
       end).
Proof.
  unfold processExecution.
  destruct (String.eqb_spec (Execution.ExecutionArn exec) "N/A") as [Heq|Hne]; cbn [negb].
  - by rewrite decide_True.
  - rewrite decide_False by done. cbn [MarshalIndent].
    unfold saveExecutionDefinition, WriteFile. fold (executionPath outputDir smName exec).
    by destruct (fs (executionPath outputDir smName exec)).
Qed.

Lemma omap_cons {A B : Type} (f : A -> option B) (x : A) (l : list A) :
  omap f (x :: l) = match f x with Some y => y :: omap f l | None => omap f l end.
Proof. reflexivity. Qed.

(** The loop of [processExecutions], from any state of its variables. *)
Lemma processExecution_loop (fs : FileSystem) (outputDir smName : string)
    (executions : list Execution.t) (rows : list (list string)) (w : world) :
  let '(rows', w') :=
    fold_left (processExecution fs outputDir smName) executions (rows, w) in
  rows' = (rows ++ map tableRow executions)%list
  /\ writeCalls w' =
       (writeCalls w
          ++ map (fun exec => (executionPath outputDir smName exec, ExecutionJSON exec))
               (persisted executions))%list
  /\ console w' =
       (console w ++ omap (saveFailure fs outputDir smName) (persisted executions))%list
  /\ dom (files w') =
       dom (files w)
         ∪ list_to_set (executionPath outputDir smName
                          <$> saved fs outputDir smName executions).
Proof.
  revert rows w. induction executions as [|exec executions IH]; intros rows w.
  - cbn. rewrite !app_nil_r. split; [done|]. split; [done|]. split; [done|].
    by rewrite union_empty_r_L.
  - cbn [fold_left]. rewrite processExecution_step.
    match goal with
    | |- context [fold_left _ _ (?r, ?w0)] => specialize (IH r w0)
    end.
    destruct (fold_left _ executions _) as [rows' w'].
    destruct IH as (-> & -> & -> & ->).
    unfold saved, persisted. rewrite filter_cons.
    destruct (decide (Execution.ExecutionArn exec = "N/A")) as [Heq|Hne].
    + rewrite decide_False by (intros H; by apply H).
      rewrite <- app_assoc. repeat split; reflexivity.
    + rewrite decide_True by done. rewrite filter_cons, omap_cons. cbn [map].
      pose proof (eq_refl (saveFailure fs outputDir smName exec)) as Hsf.
      unfold saveFailure at 2 in Hsf.
      destruct (fs (executionPath outputDir smName exec)) as [err|] eqn:Hfs;
        rewrite Hsf; cbn [fmap option_fmap option_map writeCalls console files].
      * rewrite decide_False by done. rewrite <- !app_assoc.
        repeat split; reflexivity.
      * rewrite decide_True by done. rewrite <- !app_assoc.
        do 3 (split; [reflexivity|]).
        rewrite dom_insert_L, fmap_cons, list_to_set_cons.
        rewrite (union_comm_L {[_]} (dom (files w))). by rewrite union_assoc_L.
Qed.

(** C9: [processExecutions] calls [os.WriteFile] once for every execution
    whose ARN is not [N/A], in order, with the execution's path and its
    JSON, and for no other; the files it leaves are those of the calls that
    succeeded; the table it renders has a row for every execution, the
    sentinel's included. *)
Theorem non_sentinel_executions_written (fs : FileSystem) (sm : StateMachine.t)
    (outputDir : string) (w : world) :
  writeCalls (processExecutions fs sm outputDir w) =
    (writeCalls w
       ++ map (fun exec => (executionPath outputDir (StateMachine.Name sm) exec,
                            ExecutionJSON exec))
            (persisted (StateMachine.Executions sm)))%list
  /\ dom (files (processExecutions fs sm outputDir w)) =
       dom (files w)
         ∪ list_to_set (executionPath outputDir (StateMachine.Name sm)
                          <$> saved fs outputDir (StateMachine.Name sm)
                                (StateMachine.Executions sm))
  /\ console (processExecutions fs sm outputDir w) =
       (console w
          ++ omap (saveFailure fs outputDir (StateMachine.Name sm))
               (persisted (StateMachine.Executions sm))
          ++ [Printed ("Executions for " +:+ StateMachine.Name sm +:+ ":");
              Rendered ["Execution ARN"; "Status"; "Start Time"; "End Time"; "Duration"]
                (map tableRow (StateMachine.Executions sm));
              Printed EmptyString])%list
  /\ (forall exec, exec ∈ persisted (StateMachine.Executions sm)
        <-> exec ∈ StateMachine.Executions sm /\ Execution.ExecutionArn exec <> "N/A").
Proof.
  unfold processExecutions.
  pose proof (processExecution_loop fs outputDir (StateMachine.Name sm)
                (StateMachine.Executions sm) [] w) as H.
  destruct (fold_left _ (StateMachine.Executions sm) _) as [rows w1].
  destruct H as (-> & Hcalls & Hconsole & Hfiles).
  cbn [emit writeCalls files console]. rewrite Hconsole, <- !app_assoc.
  split; [done|]. split; [done|]. split; [done|].
  intros exec. unfold persisted. rewrite list_elem_of_filter. tauto.
Qed.

(** ** Paginated listings *)

Lemma describePage_omap (aws : AWS) (page : list string) (executions : list Execution.t) :
  describePage aws page executions = (executions ++ omap (described aws) page)%list.
Proof.
  revert executions. induction page as [|execArn page IH]; intros executions.
  - cbn. by rewrite app_nil_r.
  - cbn [describePage]. rewrite omap_cons.
    pose proof (eq_refl (described aws execArn)) as Hd. unfold described at 2 in Hd.
    destruct (DescribeExecution aws execArn); rewrite Hd, IH; [|done].
    by rewrite <- app_assoc.
Qed.

(** X1: [getExecutions] fails exactly when a page of the listing fails, with
    the error of the first such page, and then returns no record at all;
    otherwise it returns, in the order of the listing, the records of the
    executions that could be described: a failed describe call drops its
    execution only. *)
Theorem getExecutions_listing (aws : AWS) (stateMachineArn : string) :
  getExecutions aws stateMachineArn =
    match firstError (ListExecutionsPages aws stateMachineArn) with
    | Some e => Err (Wrap "failed to list executions" e)
    | None =>
        Ok (omap (described aws) (listed (ListExecutionsPages aws stateMachineArn)))
    end.
Proof.
  unfold getExecutions.
  assert (Hloop : forall pages executions,
            describePages aws pages executions =
              match firstError pages with
              | Some e => Err (Wrap "failed to list executions" e)
              | None => Ok (executions ++ omap (described aws) (listed pages))%list
              end).
  { induction pages as [|[page|e] pages IH]; intros executions.
    - cbn. by rewrite app_nil_r.
    - cbn [describePages firstError listed]. rewrite IH, describePage_omap.
      destruct (firstError pages); [done|]. by rewrite omap_app, app_assoc.
    - done. }
  apply (Hloop _ []).
Qed.

Lemma detailsOfPage_omap (ro : RangeOrder) (aws : AWS) (page : list string)
    (stateMachines : list StateMachine.t) :
  Forall (fun arn => panics (getStateMachineDetails ro aws arn) = false) page ->
  detailsOfPage ro aws page stateMachines
  = Done (Ok (stateMachines ++ omap (fetched ro aws) page)%list).
Proof.
  intros H. revert stateMachines.
  induction H as [|arn page Harn _ IH]; intros stateMachines.
  - cbn. by rewrite app_nil_r.
  - cbn [detailsOfPage]. rewrite omap_cons.
    pose proof (eq_refl (fetched ro aws arn)) as Hf. unfold fetched at 2 in Hf.
    destruct (getStateMachineDetails ro aws arn) as [[details|e]|r]; [| |done];
      rewrite Hf, IH; [|done].
    by rewrite <- app_assoc.
Qed.

(** X2: When no listed machine makes [getStateMachineDetails] panic,
    [ListStateMachines] fails exactly when a page of the listing fails, with
    the error of the first such page, and then returns no machine at all;
    otherwise it returns, in the order of the listing, the details of the
    machines whose details could be fetched: a machine whose details fail
    is dropped, the others are kept. *)
Theorem ListStateMachines_listing (ro : RangeOrder) (aws : AWS) :
  Forall (fun arn => panics (getStateMachineDetails ro aws arn) = false)
    (listed (ListStateMachinesPages aws)) ->
  ListStateMachines ro aws =
    match firstError (ListStateMachinesPages aws) with
    | Some e => Done (Err (Wrap "failed to list state machines" e))
    | None => Done (Ok (omap (fetched ro aws) (listed (ListStateMachinesPages aws))))
    end.
Proof.
  unfold ListStateMachines.
  assert (Hloop : forall pages stateMachines,
            Forall (fun arn => panics (getStateMachineDetails ro aws arn) = false)
              (listed pages) ->
            detailsOfPages ro aws pages stateMachines =
              match firstError pages with
              | Some e => Done (Err (Wrap "failed to list state machines" e))
              | None =>
                  Done (Ok (stateMachines ++ omap (fetched ro aws) (listed pages))%list)
              end).
  { induction pages as [|[page|e] pages IH]; intros stateMachines H.
    - cbn. by rewrite app_nil_r.
    - cbn [listed] in H. apply Forall_app in H as [Hpage Hrest].
      cbn [detailsOfPages firstError listed]. rewrite (detailsOfPage_omap _ _ _ _ Hpage).
      rewrite (IH _ Hrest). destruct (firstError pages); [done|].
      by rewrite omap_app, app_assoc.
    - done. }
  intros H. apply (Hloop _ [] H).
Qed.

(** ** Splitting a log group's ARN *)

Lemma append_cons (c : ascii) (a b : string) : String c a +:+ b = String c (a +:+ b).
Proof. reflexivity. Qed.

Lemma append_nil_l (b : string) : EmptyString +:+ b = b.
Proof. reflexivity. Qed.

Lemma append_assoc (a b c : string) : (a +:+ b) +:+ c = a +:+ b +:+ c.
Proof.
  induction a as [|x a IH]; [reflexivity|]. rewrite !append_cons. by f_equal.
Qed.

Lemma append_nil_r (a : string) : a +:+ EmptyString = a.
Proof.
  induction a as [|x a IH]; [reflexivity|]. rewrite append_cons. by f_equal.
Qed.

Lemma length_append (a b : string) :
  String.length (a +:+ b) = (String.length a + String.length b)%nat.
Proof.
  induction a as [|x a IH]; [reflexivity|]. rewrite append_cons.
  cbn [String.length]. by rewrite IH.
Qed.

Lemma prefix_append (p rest : string) : String.prefix p (p +:+ rest) = true.
Proof.
  induction p as [|x p IH]; [by destruct rest|]. rewrite append_cons.
  cbn [String.prefix]. by destruct (ascii_dec x x).
Qed.

Lemma append_same_length (a b x y : string) :
  a +:+ x = b +:+ y -> String.length a = String.length b -> a = b /\ x = y.
Proof.
  revert b. induction a as [|c a IH]; intros [|d b]; rewrite ?append_cons, ?append_nil_l;
    cbn [String.length]; try done.
  intros [= -> H] [= Hlen]. destruct (IH _ H Hlen) as [-> ->]. done.
Qed.

Lemma rev_app_append (a b c : string) :
  String.rev_app a b +:+ c = String.rev_app a (b +:+ c).
Proof.
  revert b. induction a as [|x a IH]; intros b; cbn [String.rev_app]; [done|].
  by rewrite IH.
Qed.

Lemma rev_cons_append (c : ascii) (acc s : string) :
  String.rev (String c acc) +:+ s = String.rev acc +:+ String c s.
Proof. unfold String.rev. cbn [String.rev_app]. by rewrite !rev_app_append. Qed.

Lemma splitFrom_skip (sep p acc rest : string) :
  splitFrom sep (String.length p) acc (p +:+ rest) = splitFrom sep 0 acc rest.
Proof.
  induction p as [|x p IH]; [reflexivity|]. rewrite append_cons.
  cbn [String.length splitFrom]. exact IH.
Qed.

Lemma splitFrom_match (a : ascii) (sep' acc post : string) :
  splitFrom (String a sep') 0 acc (String a sep' +:+ post)
  = String.rev acc :: splitFrom (String a sep') 0 EmptyString post.
Proof.
  pose proof (prefix_append (String a sep') post) as Hp.
  rewrite append_cons in *. cbn [splitFrom]. rewrite Hp.
  cbn [String.length].
  replace (S (String.length sep') - 1)%nat with (String.length sep') by lia.
  by rewrite splitFrom_skip.
Qed.

Lemma occurs_cons (a : ascii) (sep' : string) (c : ascii) (s : string) :
  String.prefix (String a sep') (String c s) = false ->
  forall pre post, String c s = pre +:+ String a sep' +:+ post ->
    exists pre', pre = String c pre' /\ s = pre' +:+ String a sep' +:+ post.
Proof.
  intros Hp [|x pre] post H.
  - rewrite append_nil_l in H. rewrite H in Hp.
    pose proof (prefix_append (String a sep') post) as Hp'. congruence.
  - rewrite append_cons in H. injection H as -> ->. by exists pre.
Qed.

(** The first piece of a split: all of [s] when [sep] does not occur in it,
    and else what comes before the leftmost occurrence, the other pieces
    being those of what comes after it. *)
Lemma splitFrom_cut (a : ascii) (sep' : string) (s acc : string) :
  (~ occurs (String a sep') s
   /\ splitFrom (String a sep') 0 acc s = [String.rev acc +:+ s])
  \/ exists pre post,
       cutAt (String a sep') s pre post
       /\ splitFrom (String a sep') 0 acc s
          = (String.rev acc +:+ pre) :: splitFrom (String a sep') 0 EmptyString post.
Proof.
  revert acc. induction s as [|c s IH]; intros acc.
  - left. split; [|by rewrite append_nil_r].
    intros ([|x pre] & post & H); discriminate.
  - destruct (String.prefix (String a sep') (String c s)) eqn:Hp.
    + right. apply HasPrefix_split in Hp as [post Hs]. exists EmptyString, post.
      split; [split; [done|intros; cbn; lia]|].
      rewrite Hs, splitFrom_match. by rewrite append_nil_r.
    + assert (Hstep : splitFrom (String a sep') 0 acc (String c s)
                      = splitFrom (String a sep') 0 (String c acc) s).
      { cbn [splitFrom]. by rewrite Hp. }
      rewrite Hstep.
      destruct (IH (String c acc)) as [[Hno ->]|(pre & post & [Hs Hleft] & ->)].
      * left. split; [|by rewrite rev_cons_append].
        intros (pre & post & H).
        destruct (occurs_cons _ _ _ _ Hp _ _ H) as (pre' & _ & Hs).
        apply Hno. by exists pre', post.
      * right. exists (String c pre), post. rewrite rev_cons_append.
        split; [|done]. split; [by rewrite Hs|].
        intros pre' post' H.
        destruct (occurs_cons _ _ _ _ Hp _ _ H) as (pre'' & -> & Hs').
        cbn [String.length]. specialize (Hleft _ _ Hs'). lia.
Qed.

Lemma Split_cut (a : ascii) (sep' : string) (s : string) :
  (~ occurs (String a sep') s /\ Split s (String a sep') = [s])
  \/ exists pre post,
       cutAt (String a sep') s pre post
       /\ Split s (String a sep') = pre :: Split post (String a sep').
Proof.
  unfold Split. destruct (splitFrom_cut a sep' s EmptyString) as [H|H]; [left|right]; exact H.
Qed.

Lemma cutAt_no_occurrence (a : ascii) (sep' s pre post : string) :
  cutAt (String a sep') s pre post -> ~ occurs (String a sep') pre.
Proof.
  intros [Hs Hleft] (p & q & Hpre).
  specialize (Hleft p (q +:+ String a sep' +:+ post)).
  rewrite Hs, Hpre in Hleft. rewrite !append_assoc in Hleft.
  specialize (Hleft eq_refl). rewrite !length_append in Hleft. cbn in Hleft. lia.
Qed.

(** The head of a split on a colon: a piece without a colon, followed in
    [s] by nothing or by a colon. *)
Lemma head_Split_colon (s : string) :
  exists name rest,
    head (Split s ":") = Some name /\ s = name +:+ rest /\ ~ occurs ":" name
    /\ (rest = EmptyString \/ exists r, rest = ":" +:+ r).
Proof.
  destruct (Split_cut ":" EmptyString s) as [[Hno ->]|(pre & post & Hcut & ->)].
  - exists s, EmptyString. rewrite append_nil_r. split; [done|]. split; [done|].
    split; [done|by left].
  - exists pre, (":" +:+ post). split; [done|]. split; [apply Hcut|].
    split; [by eapply cutAt_no_occurrence|right; by exists post].
Qed.

(** What [logGroupNameOf] finds: nothing exactly when [:log-group:] does
    not occur. *)
Lemma logGroupNameOf_None (arn : string) :
  logGroupNameOf arn = None <-> ~ occurs ":log-group:" arn.
Proof.
  unfold logGroupNameOf.
  destruct (Split_cut ":" "log-group:" arn) as [[Hno ->]|(pre & post & Hcut & ->)].
  - done.
  - assert (Hocc : occurs ":log-group:" arn) by (exists pre, post; apply Hcut).
    destruct (Split_cut ":" "log-group:" post) as [[_ ->]|(q & post2 & _ & ->)].
    + destruct (head_Split_colon post) as (name & rest & -> & _). split; [done|tauto].
    + destruct (head_Split_colon q) as (name & rest & -> & _). split; [done|tauto].
Qed.

Lemma colon_free_prefix (name name' rest rest' : string) :
  name +:+ rest = name' +:+ rest' ->
  ~ occurs ":" name -> ~ occurs ":" name' ->
  (rest = EmptyString \/ exists r, rest = ":" +:+ r) ->
  (rest' = EmptyString \/ exists r, rest' = ":" +:+ r) ->
  name = name'.
Proof.
  assert (Hhead : forall c s r, ~ occurs ":" (String c s) -> (":" +:+ r) <> String c s +:+ r
                                /\ ~ occurs ":" s).
  { intros c s r Hno. split.
    - intros [= <- _]. apply Hno. by exists EmptyString, s.
    - intros (p & q & ->). apply Hno. by exists (String c p), q. }
  revert name'. induction name as [|c name IH]; intros [|d name'] H Hn Hn' Hr Hr'.
  - done.
  - rewrite append_nil_l, append_cons in H.
    destruct Hr as [->|[r ->]]; [done|]. injection H as <- _.
    exfalso. apply Hn'. by exists EmptyString, name'.
  - rewrite append_nil_l, append_cons in H.
    destruct Hr' as [->|[r ->]]; [done|]. injection H as -> _.
    exfalso. apply Hn. by exists EmptyString, name.
  - rewrite !append_cons in H. injection H as -> H. f_equal.
    apply IH; [done| | |done|done].
    + intros (p & q & ->). apply Hn. by exists (String d p), q.
    + intros (p & q & ->). apply Hn'. by exists (String d p), q.
Qed.

(** X3: [logGroupNameOf] returns [name] exactly when, after the leftmost
    [:log-group:] of the ARN, there comes [name], which holds no colon, and
    then a colon or the end of the ARN. *)
Theorem logGroupNameOf_name (arn name : string) :
  logGroupNameOf arn = Some name <->
  exists pre rest,
    cutAt ":log-group:" arn pre (name +:+ rest)
    /\ ~ occurs ":" name
    /\ (rest = EmptyString \/ exists r, rest = ":" +:+ r).
Proof.
  assert (Hfound : forall pre post, cutAt ":log-group:" arn pre post ->
            exists n rest, logGroupNameOf arn = Some n /\ post = n +:+ rest
                           /\ ~ occurs ":" n
                           /\ (rest = EmptyString \/ exists r, rest = ":" +:+ r)).
  { intros pre post Hcut. unfold logGroupNameOf.
    destruct (Split_cut ":" "log-group:" arn) as [[Hno _]|(pre0 & post0 & Hcut0 & ->)].
    { exfalso. apply Hno. exists pre, post. apply Hcut. }
    assert (Hsame : pre0 = pre /\ post0 = post).
    { destruct Hcut as [Hs Hl], Hcut0 as [Hs0 Hl0].
      pose proof (Hl _ _ Hs0). pose proof (Hl0 _ _ Hs).
      destruct (append_same_length pre0 pre (":log-group:" +:+ post0)
                  (":log-group:" +:+ post)) as [-> Hp]; [congruence|lia|].
      split; [done|]. by injection Hp. }
    destruct Hsame as [-> ->].
    destruct (Split_cut ":" "log-group:" post) as [[_ ->]|(q & post2 & [Hq _] & ->)].
    - destruct (head_Split_colon post) as (n & rest & Hn & Hpost & Hfree & Hrest).
      by exists n, rest.
    - destruct (head_Split_colon q) as (n & rest & Hn & -> & Hfree & Hrest).
      exists n, (rest +:+ ":log-group:" +:+ post2). split; [done|].
      split; [by rewrite Hq, append_assoc|]. split; [done|].
      right. destruct Hrest as [->|[r ->]].
      + by exists ("log-group:" +:+ post2).
      + exists (r +:+ ":log-group:" +:+ post2). by rewrite append_assoc. }
  split.
  - intros Hname.
    destruct (Split_cut ":" "log-group:" arn) as [[Hno _]|(pre & post & Hcut & _)].
    { apply logGroupNameOf_None in Hno. congruence. }
    destruct (Hfound _ _ Hcut) as (n & rest & Hn & -> & Hfree & Hrest).
    exists pre, rest. by replace name with n by congruence.
  - intros (pre & rest & Hcut & Hfree & Hrest).
    destruct (Hfound _ _ Hcut) as (n & rest' & Hn & Hpost & Hfree' & Hrest').
    rewrite Hn. f_equal. symmetry. by eapply colon_free_prefix.
Qed.

(** ** When the details of a state machine fail, and when they panic *)

Lemma parseDefinition_isErr (ro : RangeOrder) (definition : document) :
  isErr (parseDefinition ro definition) = isErr (UnmarshalAslDef definition).
Proof. unfold parseDefinition. by destruct (UnmarshalAslDef definition). Qed.

Lemma getExecutions_isErr (aws : AWS) (arn : string) :
  isErr (getExecutions aws arn) = true
  <-> exists e, firstError (ListExecutionsPages aws arn) = Some e.
Proof.
  unfold getExecutions. generalize (@nil Execution.t).
  induction (ListExecutionsPages aws arn) as [|[page|e] pages IH]; intros executions.
  - cbn. split; [done|by intros [? ?]].
  - cbn [describePages firstError]. apply IH.
  - cbn. split; [by exists e|done].
Qed.

(** X4: [getStateMachineDetails] returns an error in three cases only: the
    machine cannot be described, its definition does not parse, or it is a
    STANDARD machine and a page of its executions cannot be listed.  For an
    EXPRESS machine and for a machine of any other type, nothing that goes
    wrong with the executions makes it return an error. *)
Theorem getStateMachineDetails_fails (ro : RangeOrder) (aws : AWS) (arn : string) :
  fails (getStateMachineDetails ro aws arn) = true <->
  match DescribeStateMachine aws arn with
  | Err _ => True
  | Ok result =>
      isErr (UnmarshalAslDef (sfn.Definition_ result)) = true
      \/ (sfn.Type_ result = "STANDARD"
          /\ exists e, firstError (ListExecutionsPages aws arn) = Some e)
  end.
Proof.
  unfold getStateMachineDetails.
  destruct (DescribeStateMachine aws arn) as [result|e]; [|done].
  rewrite <- (parseDefinition_isErr ro).
  destruct (parseDefinition ro (sfn.Definition_ result)) as [states|e]; cbn [isErr];
    [|split; [by left|done]].
  unfold fetchExecutions.
  destruct (String.eqb_spec (sfn.Type_ result) "EXPRESS") as [Hx|Hx].
  { rewrite Hx. destruct (getExpressExecutions ro aws result) as [[?|?]|?]; cbn;
      (split; [done|]); by intros [?|[? _]]. }
  destruct (String.eqb_spec (sfn.Type_ result) "STANDARD") as [Hs|Hs].
  - rewrite <- getExecutions_isErr.
    destruct (getExecutions aws arn) as [executions|e]; cbn.
    + split; [done|]. by intros [?|[_ ?]].
    + split; [|done]. intros _. by right.
  - cbn. split; [done|]. by intros [?|[? _]].
Qed.

Lemma getExpressExecutions_panics (ro : RangeOrder) (aws : AWS)
    (sm : sfn.DescribeStateMachineOutput) :
  panics (getExpressExecutions ro aws sm) = true <-> brokenDestination sm.
Proof.
  unfold getExpressExecutions, brokenDestination.
  destruct (sfn.LoggingConfiguration_ sm) as [cfg|]; cycle 1.
  { split; [done|]. by intros (? & ? & ? & ? & _). }
  destruct (sfn.Destinations cfg) as [|dest rest] eqn:Hd.
  { split; [done|]. intros (? & ? & ? & [= <-] & ? & _). congruence. }
  destruct (sfn.CloudWatchLogsLogGroup_ dest) as [group|] eqn:Hg; cycle 1.
  { split; [|done]. intros _. exists cfg, dest, rest. split; [done|]. split; [done|by left]. }
  destruct (sfn.LogGroupArn group) as [logGroupArn|] eqn:Ha; cycle 1.
  { split; [done|]. intros (? & ? & ? & [= <-] & Hd' & H). rewrite Hd in Hd'.
    injection Hd' as <- <-. destruct H as [H|(? & ? & H & H' & _)]; congruence. }
  destruct (logGroupNameOf logGroupArn) as [name|] eqn:Hn.
  - split; [by destruct (FilterLogEvents aws name)|].
    intros (? & ? & ? & [= <-] & Hd' & H). rewrite Hd in Hd'. injection Hd' as <- <-.
    destruct H as [H|(g & a & Hg' & Ha' & Hno)]; [congruence|].
    apply logGroupNameOf_None in Hno. congruence.
  - split; [|done]. intros _. exists cfg, dest, rest. split; [done|]. split; [done|].
    right. exists group, logGroupArn. split; [done|]. split; [done|].
    by apply logGroupNameOf_None.
Qed.

(** X5: [getStateMachineDetails] panics exactly for an EXPRESS machine that can
    be described, whose definition parses, and whose first log destination
    has no log group or a log group ARN without [:log-group:]. *)
Theorem getStateMachineDetails_panics (ro : RangeOrder) (aws : AWS) (arn : string) :
  panics (getStateMachineDetails ro aws arn) = true <->
  exists result,
    DescribeStateMachine aws arn = Ok result
    /\ isErr (UnmarshalAslDef (sfn.Definition_ result)) = false
    /\ sfn.Type_ result = "EXPRESS"
    /\ brokenDestination result.
Proof.
  unfold getStateMachineDetails.
  destruct (DescribeStateMachine aws arn) as [result|e]; cycle 1.
  { split; [done|]. by intros (? & ? & _). }
  assert (Hiff : forall P : Prop,
            (P <-> isErr (UnmarshalAslDef (sfn.Definition_ result)) = false
                   /\ sfn.Type_ result = "EXPRESS" /\ brokenDestination result)
            -> (P <-> exists result0, Ok result = Ok result0
                   /\ isErr (UnmarshalAslDef (sfn.Definition_ result0)) = false
                   /\ sfn.Type_ result0 = "EXPRESS" /\ brokenDestination result0)).
  { intros P ->. split; [by exists result|]. by intros (? & [= <-] & ?). }
  apply Hiff. clear Hiff.
  rewrite <- (parseDefinition_isErr ro).
  destruct (parseDefinition ro (sfn.Definition_ result)) as [states|e]; cbn [isErr];
    [|split; [done|by intros [? _]]].
  rewrite <- (getExpressExecutions_panics ro aws).
  unfold fetchExecutions.
  destruct (String.eqb_spec (sfn.Type_ result) "EXPRESS") as [Hx|Hx].
  - destruct (getExpressExecutions ro aws result) as [[?|?]|?]; cbn; split; try done;
      by intros (_ & _ & ?).
  - destruct (String.eqb (sfn.Type_ result) "STANDARD").
    + destruct (getExecutions aws arn); cbn; split; try done; by intros (_ & ? & _).
    + cbn. split; [done|]. by intros (_ & ? & _).
Qed.

(** ** The record of an execution, read off its events *)

Lemma about_snoc (arn : string) (events : list (result logEvent.t))
    (event : result logEvent.t) :
  about arn (events ++ [event])%list = (about arn events ++ about arn [event])%list.
Proof.
  induction events as [|[log|e] events IH]; cbn [app about]; [done| |done].
  destruct (String.eqb (logEvent.ExecutionArn log) arn); [|done].
  by rewrite IH.
Qed.

Lemma about_notAbout (arn : string) (event : result logEvent.t) :
  notAbout arn event -> about arn [event] = [].
Proof.
  destruct event as [log|e]; [|done]. cbn. intros H%String.eqb_neq. by rewrite H.
Qed.

Lemma fromFirstStart_snoc (logs : list logEvent.t) (log : logEvent.t) :
  fromFirstStart (logs ++ [log])%list =
    match fromFirstStart logs with
    | Some (start, later) => Some (start, (later ++ [log])%list)
    | None => if isStarted log then Some (log, []) else None
    end.
Proof.
  induction logs as [|l logs IH]; cbn [app fromFirstStart]; [done|].
  by destruct (isStarted l).
Qed.

Lemma lastClosing_snoc (logs : list logEvent.t) (log : logEvent.t) :
  lastClosing (logs ++ [log])%list = if closes log then Some log else lastClosing logs.
Proof.
  induction logs as [|l logs IH]; cbn [app lastClosing]; [done|].
  rewrite IH. by destruct (closes log), (lastClosing logs).
Qed.

Lemma closes_not_started (log : logEvent.t) : closes log = true -> isStarted log = false.
Proof. unfold closes. by destruct (isStarted log), (HasPrefix _ _). Qed.

(** The table of [getExpressExecutions] holds for every ARN the record its
    events amount to. *)
Lemma correlate_recordOf (events : list (result logEvent.t)) (arn : string) :
  correlate events !! arn = recordOf (about arn events).
Proof.
  induction events as [|event events IH] using rev_ind; [done|].
  rewrite correlate_snoc, about_snoc.
  destruct event as [log|e]; [|by rewrite app_nil_r].
  destruct (decide (logEvent.ExecutionArn log = arn)) as [<-|Hne]; cycle 1.
  { rewrite correlateStep_notAbout by done. rewrite about_notAbout by done.
    by rewrite app_nil_r. }
  cbn [about]. rewrite String.eqb_refl.
  unfold recordOf in *. rewrite fromFirstStart_snoc.
  destruct (correlate events !! logEvent.ExecutionArn log) as [exec|] eqn:Hm.
  - rewrite (correlateStep_present _ _ _ Hm).
    destruct (fromFirstStart _) as [[start later]|]; [|done].
    injection IH as ->. rewrite lastClosing_snoc.
    destruct (closes log); [|by rewrite Hm].
    rewrite lookup_insert_eq. f_equal. by destruct (lastClosing later).
  - rewrite (correlateStep_absent _ _ Hm).
    destruct (fromFirstStart _) as [[start later]|]; [done|].
    destruct (isStarted log); [|by rewrite Hm].
    by rewrite lookup_insert_eq.
Qed.

(** X6: The records [getExpressExecutions] returns for a list of events are,
    whatever the order of the map loop, the records the events of each ARN
    amount to: an ARN has a record once it has a start event; the record
    is RUNNING until a closing event follows the first start event, and
    then shows the last such closing event.  Events of other ARNs and
    events that do not decode play no part. *)
Theorem express_records (ro : RangeOrder) (events : list (result logEvent.t))
    (exec : Execution.t) :
  exec ∈ collect ro (correlate events)
  <-> exists arn, recordOf (about arn events) = Some exec.
Proof.
  rewrite elem_of_collect. split; intros [arn H]; exists arn.
  - by rewrite <- correlate_recordOf.
  - by rewrite correlate_recordOf.
Qed.

(** X7: An ARN whose events hold a start event and no closing event has the
    record RUNNING, with the time of its first start event, an empty end
    time and the duration N/A. *)
Theorem express_running_record (ro : RangeOrder) (events : list (result logEvent.t))
    (arn : string) (start : logEvent.t) :
  firstStarted arn events = Some start ->
  Forall (fun log => closes log = false) (about arn events) ->
  Execution.mk arn "RUNNING" (stamp start) EmptyString "N/A"
    ∈ collect ro (correlate events).
Proof.
  intros Hstart Hopen. apply elem_of_collect. exists arn.
  rewrite correlate_recordOf. unfold recordOf.
  assert (Hfirst : forall evs, firstStarted arn evs = Some start ->
            logEvent.ExecutionArn start = arn
            /\ exists later, fromFirstStart (about arn evs) = Some (start, later)
                 /\ forall l, l ∈ later -> l ∈ about arn evs).
  { induction evs as [|[log|e] evs IHevs]; cbn [firstStarted about]; [done| |done].
    destruct (String.eqb_spec (logEvent.ExecutionArn log) arn) as [Harn|Harn]; cbn [andb].
    - cbn [fromFirstStart]. destruct (isStarted log).
      + intros [= ->]. split; [done|]. exists (about arn evs). split; [done|].
        intros l Hl. by right.
      + intros (? & later & -> & Hl)%IHevs. split; [done|]. exists later.
        split; [done|]. intros l Hin. right. by apply Hl.
    - exact IHevs. }
  destruct (Hfirst _ Hstart) as (Harn & later & -> & Hlater).
  assert (Hnone : lastClosing later = None).
  { assert (Hall : Forall (fun log => closes log = false) later).
    { apply Forall_forall. intros l Hl. rewrite Forall_forall in Hopen.
      by apply Hopen, Hlater. }
    clear -Hall. induction Hall as [|l later Hl _ IH]; [done|].
    cbn [lastClosing]. by rewrite IH, Hl. }
  rewrite Hnone. unfold opened. by rewrite Harn.
Qed.

(** ** What a run leaves in the file system *)

Local Open Scope list_scope.

Lemma fileAfter_app {C : Type} (fs : FileSystem) (calls more : list (string * C))
    (before : option C) (filePath : string) :
  fileAfter fs (calls ++ more) before filePath
  = fileAfter fs more (fileAfter fs calls before filePath) filePath.
Proof.
  unfold fileAfter. destruct (fs filePath); [done|].
  rewrite filter_app, last_app. by destruct (last (filter _ more)).
Qed.

Lemma fileAfter_one {C : Type} (fs : FileSystem) (path : string) (data : C)
    (m : gmap string C) (filePath : string) :
  (match fs path with Some _ => m | None => <[path := data]> m end) !! filePath
  = fileAfter fs [(path, data)] (m !! filePath) filePath.
Proof.
  unfold fileAfter. rewrite filter_cons, filter_nil. cbn [fst].
  destruct (decide (path = filePath)) as [->|Hne].
  - destruct (fs filePath); [done|]. cbn. by rewrite lookup_insert_eq.
  - cbn. destruct (fs path), (fs filePath); try done; by rewrite lookup_insert_ne.
Qed.

Lemma fileAfter_before {C : Type} (fs : FileSystem) (calls : list (string * C))
    (before : option C) (filePath : string) :
  fileAfter fs calls before filePath
  = match fileAfter fs calls None filePath with
    | Some data => Some data
    | None => before
    end.
Proof.
  unfold fileAfter. destruct (fs filePath); [done|]. by destruct (last _).
Qed.

Lemma processExecution_files (fs : FileSystem) (outputDir smName : string)
    (executions : list Execution.t) (rows : list (list string)) (w : world)
    (filePath : string) :
  files (fold_left (processExecution fs outputDir smName) executions (rows, w)).2 !! filePath
  = fileAfter fs
      (map (fun exec => (executionPath outputDir smName exec, ExecutionJSON exec))
         (persisted executions))
      (files w !! filePath) filePath.
Proof.
  revert rows w. induction executions as [|exec executions IH]; intros rows w.
  - cbn. unfold fileAfter. by destruct (fs filePath).
  - cbn [fold_left]. rewrite processExecution_step, IH. unfold persisted.
    rewrite filter_cons.
    destruct (decide (Execution.ExecutionArn exec = "N/A")) as [Heq|Hne].
    + by rewrite decide_False by (intros H; by apply H).
    + rewrite decide_True by done. cbn [map].
      match goal with
      | |- _ = fileAfter fs (?call :: ?more) _ _ => change (call :: more) with ([call] ++ more)
      end.
      rewrite fileAfter_app. f_equal.
      rewrite <- fileAfter_one. by destruct (fs (executionPath outputDir smName exec)).
Qed.

(** What [processExecutions] does to a world, field by field. *)
Lemma processExecutions_run (fs : FileSystem) (sm : StateMachine.t)
    (outputDir : string) (w : world) :
  writeCalls (processExecutions fs sm outputDir w)
    = writeCalls w ++ executionWrites outputDir sm
  /\ console (processExecutions fs sm outputDir w)
     = console w ++ executionsConsole fs outputDir sm
  /\ forall filePath,
       files (processExecutions fs sm outputDir w) !! filePath
       = fileAfter fs (executionWrites outputDir sm) (files w !! filePath) filePath.
Proof.
  unfold processExecutions, executionWrites, executionsConsole.
  pose proof (processExecution_loop fs outputDir (StateMachine.Name sm)
                (StateMachine.Executions sm) [] w) as H.
  pose proof (processExecution_files fs outputDir (StateMachine.Name sm)
                (StateMachine.Executions sm) [] w) as Hf.
  destruct (fold_left _ (StateMachine.Executions sm) _) as [rows w1].
  destruct H as (-> & Hcalls & Hconsole & _).
  cbn [emit writeCalls files console snd] in *. rewrite Hconsole, <- !app_assoc.
  done.
Qed.

(** X8: The path of [processExecutions]'s file for an execution holds, after
    the call, the JSON of the last execution (other than the placeholder
    [N/A]) that is written to that path, when the file system accepts
    writes to it; every other path, and every path the file system refuses,
    holds what it held before. *)
Theorem processExecutions_files (fs : FileSystem) (sm : StateMachine.t)
    (outputDir : string) (w : world) (filePath : string) :
  files (processExecutions fs sm outputDir w) !! filePath =
    match fs filePath with
    | Some _ => files w !! filePath
    | None =>
        match last (filter (fun exec =>
                              executionPath outputDir (StateMachine.Name sm) exec = filePath)
                      (persisted (StateMachine.Executions sm))) with
        | Some exec => Some (ExecutionJSON exec)
        | None => files w !! filePath
        end
    end.
Proof.
  destruct (processExecutions_run fs sm outputDir w) as (_ & _ & ->).
  unfold fileAfter, executionWrites. destruct (fs filePath); [done|].
  set (path := executionPath outputDir (StateMachine.Name sm)).
  assert (Hlast : forall l : list Execution.t,
            last (filter (fun call : string * payload => call.1 = filePath)
                    (map (fun exec => (path exec, ExecutionJSON exec)) l))
            = (fun exec => (path exec, ExecutionJSON exec))
                <$> last (filter (fun exec => path exec = filePath) l)).
  { induction l as [|exec l IHl]; [reflexivity|]. cbn [map]. rewrite !filter_cons. cbn [fst].
    destruct (decide (path exec = filePath)); [|exact IHl].
    rewrite !last_cons, IHl. clear IHl. by destruct (last _). }
  rewrite Hlast. by destruct (last _).
Qed.

(** X9: [processExecutions] only adds: the calls it makes, the lines it prints
    and the files it writes do not depend on the world it starts from, and
    they come after, or over, what that world held. *)
Theorem processExecutions_frame (fs : FileSystem) (sm : StateMachine.t)
    (outputDir : string) (w : world) :
  let fresh :=
    processExecutions fs sm outputDir {| writeCalls := []; files := ∅; console := [] |} in
  processExecutions fs sm outputDir w
  = {| writeCalls := writeCalls w ++ writeCalls fresh;
       files := files fresh ∪ files w;
       console := console w ++ console fresh |}.
Proof.
  intros fresh.
  destruct (processExecutions_run fs sm outputDir w) as (Hc & Ho & Hf).
  destruct (processExecutions_run fs sm outputDir
              {| writeCalls := []; files := ∅; console := [] |})
    as (Hc0 & Ho0 & Hf0).
  fold fresh in Hc0, Ho0, Hf0. cbn [writeCalls console files] in Hc0, Ho0, Hf0.
  destruct (processExecutions fs sm outputDir w) as [calls fs' out].
  cbn [writeCalls console files] in Hc, Ho, Hf. rewrite Hc0, Ho0. subst calls out.
  f_equal. apply map_eq. intros filePath. rewrite Hf, fileAfter_before.
  specialize (Hf0 filePath). rewrite lookup_empty in Hf0. rewrite <- Hf0.
  destruct (files fresh !! filePath) eqn:Hfresh.
  - symmetry. by apply lookup_union_Some_l.
  - symmetry. by rewrite lookup_union_r.
Qed.

(** ** File names *)

Lemma length_mapBytes (f : ascii -> ascii) (s : string) :
  String.length (mapBytes f s) = String.length s.
Proof. induction s as [|c s IH]; cbn; [done|]. by rewrite IH. Qed.

Lemma sanitizeByte_fixed (c : ascii) :
  sanitizeByte c = c <-> ~ In (String c EmptyString) invalidChars.
Proof.
  assert (H : Ascii.eqb (sanitizeByte c) c
              = negb (existsb (fun old => String.eqb old (String c EmptyString))
                        invalidChars)).
  { apply Bool.eqb_prop. revert c.
    apply (forall_bytes (fun c => Bool.eqb (Ascii.eqb (sanitizeByte c) c)
             (negb (existsb (fun old => String.eqb old (String c EmptyString))
                      invalidChars)))).
    vm_compute. reflexivity. }
  rewrite <- Ascii.eqb_eq, H, negb_true_iff, <- not_true_iff_false, existsb_exists.
  split; intros Hno Hin; apply Hno.
  - exists (String c EmptyString). split; [done|apply String.eqb_refl].
  - destruct Hin as (old & Hin & ->%String.eqb_eq). done.
Qed.

(** X10: [sanitizeFileName] keeps the length of a name, and leaves a name as it
    is exactly when none of the nine bytes of [invalidChars] occurs in
    it. *)
Theorem sanitizeFileName_length_fixed (name : string) :
  String.length (sanitizeFileName name) = String.length name
  /\ (sanitizeFileName name = name
      <-> forall c, occursIn c name -> ~ In (String c EmptyString) invalidChars).
Proof.
  rewrite sanitizeFileName_bytes. split; [apply length_mapBytes|].
  unfold occursIn. induction name as [|a name IH]; cbn [mapBytes list_ascii_of_string].
  - split; [by intros _ c []|done].
  - split.
    + intros [= Ha Hname] c [<-|Hin].
      * by apply sanitizeByte_fixed.
      * by apply IH.
    + intros H. f_equal.
      * apply sanitizeByte_fixed, H. by left.
      * apply IH. intros c Hin. apply H. by right.
Qed.

(** X11: [saveExecutionDefinition] names the file after the sanitised ARN: the
    colons it replaces first are among the bytes [sanitizeFileName]
    replaces, so that step changes nothing. *)
Theorem saveExecutionDefinition_path (fs : FileSystem)
    (outputDir smName executionArn : string) (definition : payload) (w : world) :
  saveExecutionDefinition fs outputDir smName executionArn definition w
  = WriteFile fs
      (Join outputDir
         (smName +:+ "_execution_" +:+ sanitizeFileName executionArn +:+ ".json"))
      definition w.
Proof.
  unfold saveExecutionDefinition. cbv zeta.
  replace (sanitizeFileName (ReplaceAll executionArn ":" "_"))
    with (sanitizeFileName executionArn); [done|].
  rewrite !sanitizeFileName_bytes, ReplaceAll_single, mapBytes_compose. symmetry.
  apply mapBytes_ext. intros c. apply Ascii.eqb_eq. revert c.
  apply (forall_bytes (fun c => Ascii.eqb (sanitizeByte (substByte ":" c)) (sanitizeByte c))).
  vm_compute. reflexivity.
Qed.

(** ** The table and the files of the states *)

Lemma substring_cut (n : nat) (s : string) :
  (n <= String.length s)%nat ->
  exists rest, s = String.substring 0 n s +:+ rest
               /\ String.length (String.substring 0 n s) = n.
Proof.
  revert s. induction n as [|n IH]; intros s Hn.
  - exists s. by destruct s.
  - destruct s as [|c s]; cbn [String.length] in Hn; [lia|].
    destruct (IH s ltac:(lia)) as (rest & Hs & Hlen). exists rest.
    cbn [String.substring String.length]. rewrite append_cons, Hlen. by rewrite <- Hs.
Qed.

(** X12: The cell of the column [Definition] is at most 100 bytes long; it is the
    definition itself exactly when that is at most 100 bytes long, and
    else the first 97 bytes of the definition followed by three dots. *)
Theorem definitionCell_bounded (rawDef : string) :
  (String.length (Program.definitionCell rawDef) <= 100)%nat
  /\ (Program.definitionCell rawDef = rawDef <-> (String.length rawDef <= 100)%nat)
  /\ ((100 < String.length rawDef)%nat ->
        exists cut rest,
          rawDef = cut +:+ rest /\ String.length cut = 97%nat
          /\ Program.definitionCell rawDef = cut +:+ "...").
Proof.
  unfold Program.definitionCell. cbv zeta.
  destruct (Nat.ltb_spec 100 (String.length rawDef)) as [Hlong|Hshort].
  - destruct (substring_cut 97 rawDef ltac:(lia)) as (rest & Hraw & Hlen).
    assert (Hcell : String.length (String.substring 0 97 rawDef +:+ "...") = 100%nat)
      by (rewrite length_append, Hlen; reflexivity).
    split; [lia|]. split.
    + split; [|lia]. intros Heq. rewrite Heq in Hcell. lia.
    + intros _. by exists (String.substring 0 97 rawDef), rest.
  - split; [done|]. split; [done|]. lia.
Qed.

Lemma wrote_nothing (os : Program.OS) (w w' : Program.world) :
  Program.writeCalls w' = Program.writeCalls w ->
  Program.files w' = Program.files w ->
  Program.directories w' = Program.directories w ->
  wrote os w w' [].
Proof.
  intros Hc Hf Hd. split; [by rewrite app_nil_r|]. split; [|done].
  intros filePath. rewrite Hf. unfold fileAfter. by destruct (Program.writeFile os filePath).
Qed.

Lemma wrote_trans (os : Program.OS) (w1 w2 w3 : Program.world)
    (calls more : list (string * Program.content)) :
  wrote os w1 w2 calls -> wrote os w2 w3 more -> wrote os w1 w3 (calls ++ more).
Proof.
  intros (Hc & Hf & Hd) (Hc' & Hf' & Hd'). split; [by rewrite Hc', Hc, app_assoc|].
  split; [|congruence]. intros filePath. by rewrite Hf', Hf, fileAfter_app.
Qed.

Lemma wrote_WriteFile (os : Program.OS) (filePath : string) (data : Program.content)
    (w : Program.world) :
  wrote os w (Program.WriteFile os filePath data w).2 [(filePath, data)]
  /\ Program.console (Program.WriteFile os filePath data w).2 = Program.console w
  /\ (Program.WriteFile os filePath data w).1 = Program.writeFile os filePath.
Proof.
  unfold Program.WriteFile, wrote.
  pose proof (fun p => fileAfter_one (Program.writeFile os) filePath data (Program.files w) p)
    as Hone.
  destruct (Program.writeFile os filePath); cbn; repeat split; try done; exact Hone.
Qed.

(** One turn of the loop of [processStates]. *)
Lemma processState_step (enc : Program.Encoder) (os : Program.OS)
    (outputDir smName : string) (rows : list (list string)) (w : Program.world)
    (state : State.t) :
  let '(rows', w') := Program.processState enc os outputDir smName (rows, w) state in
  rows' = rows ++ from_option (fun row => [row]) [] (stateRowOf enc state)
  /\ wrote os w w'
       (from_option (fun call => [call]) [] (stateWrite enc outputDir smName state))
  /\ Program.console w'
     = Program.console w
         ++ from_option (fun line => [line]) [] (stateLog enc os outputDir smName state).
Proof.
  unfold Program.processState, stateRowOf, stateWrite, stateLog, encoded.
  destruct (Program.marshalDefinition enc (State.RawDefinition state)) as [rawDef|err].
  - unfold Program.saveStateDefinition. cbv zeta. fold (statePath outputDir smName state).
    destruct (wrote_WriteFile os (statePath outputDir smName state) (Program.Bytes rawDef) w)
      as (Hw & Hc & He).
    destruct (Program.WriteFile os _ _ w) as [failure w']. cbn [fst snd] in *. subst failure.
    destruct (Program.writeFile os (statePath outputDir smName state)) as [err|];
      cbn [fmap option_fmap option_map from_option].
    + split; [done|]. split; [|cbn; by rewrite Hc].
      destruct Hw as (? & ? & ?). by repeat split.
    + split; [done|]. split; [done|]. by rewrite app_nil_r.
  - cbn [fmap option_fmap option_map from_option]. split; [by rewrite app_nil_r|].
    split; [by apply wrote_nothing|done].
Qed.

Lemma omap_cons_app {A B : Type} (f : A -> option B) (x : A) (l : list A) :
  omap f (x :: l) = from_option (fun y => [y]) [] (f x) ++ omap f l.
Proof. cbn. by destruct (f x). Qed.

(** The loop of [processStates], from any state of its variables. *)
Lemma processState_loop (enc : Program.Encoder) (os : Program.OS)
    (outputDir smName : string) (states : list State.t) (rows : list (list string))
    (w : Program.world) :
  let '(rows', w') :=
    fold_left (Program.processState enc os outputDir smName) states (rows, w) in
  rows' = rows ++ omap (stateRowOf enc) states
  /\ wrote os w w' (omap (stateWrite enc outputDir smName) states)
  /\ Program.console w'
     = Program.console w ++ omap (stateLog enc os outputDir smName) states.
Proof.
  revert rows w. induction states as [|state states IH]; intros rows w.
  - cbn [fold_left omap list_omap]. rewrite !app_nil_r. split; [done|].
    split; [by apply wrote_nothing|done].
  - cbn [fold_left].
    pose proof (processState_step enc os outputDir smName rows w state) as Hstep.
    destruct (Program.processState enc os outputDir smName (rows, w) state) as [rows1 w1].
    destruct Hstep as (-> & Hw & Hc).
    match goal with
    | |- context [fold_left _ states (?r, _)] => specialize (IH r w1)
    end.
    destruct (fold_left _ states _) as [rows' w']. destruct IH as (-> & Hw' & Hc').
    rewrite !omap_cons_app, Hc', Hc, <- !app_assoc. split; [done|].
    split; [by eapply wrote_trans|done].
Qed.

Lemma processStates_effects_aux (enc : Program.Encoder) (os : Program.OS)
    (sm : StateMachine.t) (outputDir : string) (w : Program.world) :
  wrote os w (Program.processStates enc os sm outputDir w)
    (omap (stateWrite enc outputDir (StateMachine.Name sm)) (StateMachine.States sm))
  /\ Program.console (Program.processStates enc os sm outputDir w)
     = Program.console w
         ++ omap (stateLog enc os outputDir (StateMachine.Name sm)) (StateMachine.States sm)
         ++ [Printed ("States for " +:+ StateMachine.Name sm +:+ ":");
             Rendered ["State Name"; "Type"; "Next"; "End"; "Definition"]%string
               (omap (stateRowOf enc) (StateMachine.States sm));
             Printed EmptyString].
Proof.
  unfold Program.processStates.
  pose proof (processState_loop enc os outputDir (StateMachine.Name sm)
                (StateMachine.States sm) [] w) as H.
  destruct (fold_left _ (StateMachine.States sm) _) as [rows w1].
  destruct H as (-> & (Hc & Hf & Hd) & Ho). cbn [app].
  split; [by repeat split|]. cbn. rewrite Ho, <- !app_assoc. done.
Qed.

(** X13: [processStates] calls [os.WriteFile] once for every state whose
    definition marshals, in the order of the states, with the path
    [outputDir/smName_name.json] (the state's name sanitised) and the
    encoded definition; a path the file system accepts holds the definition
    of the last state written to it, and every other path what it held.
    The table has a row for exactly the states whose definition marshals;
    a state whose definition does not marshal, or whose file cannot be
    written, has a log line. *)
Theorem processStates_effects (enc : Program.Encoder) (os : Program.OS)
    (sm : StateMachine.t) (outputDir : string) (w : Program.world) :
  let calls :=
    omap (stateWrite enc outputDir (StateMachine.Name sm)) (StateMachine.States sm) in
  let w' := Program.processStates enc os sm outputDir w in
  Program.writeCalls w' = Program.writeCalls w ++ calls
  /\ (forall filePath,
        Program.files w' !! filePath
        = match Program.writeFile os filePath with
          | Some _ => Program.files w !! filePath
          | None =>
              match last (filter (fun call => call.1 = filePath) calls) with
              | Some call => Some call.2
              | None => Program.files w !! filePath
              end
          end)
  /\ Program.directories w' = Program.directories w
  /\ Program.console w'
     = Program.console w
         ++ omap (stateLog enc os outputDir (StateMachine.Name sm)) (StateMachine.States sm)
         ++ [Printed ("States for " +:+ StateMachine.Name sm +:+ ":");
             Rendered ["State Name"; "Type"; "Next"; "End"; "Definition"]%string
               (omap (stateRowOf enc) (StateMachine.States sm));
             Printed EmptyString].
Proof.
  intros calls w'.
  destruct (processStates_effects_aux enc os sm outputDir w) as ((Hc & Hf & Hd) & Ho).
  done.
Qed.

(** ** The files and the console of a run *)

Lemma last_filter_map {A B : Type} (g : A -> B) (P : B -> Prop)
    `{forall b, Decision (P b)} (l : list A) :
  last (filter P (map g l)) = g <$> last (filter (fun a => P (g a)) l).
Proof.
  induction l as [|a l IH]; [reflexivity|]. cbn [map]. rewrite !filter_cons.
  destruct (decide (P (g a))); [|exact IH].
  rewrite !last_cons, IH. clear IH. by destruct (last _).
Qed.

Lemma fileAfter_map {C D : Type} (f : C -> D) (fs : FileSystem)
    (calls : list (string * C)) (before : option D) (filePath : string) :
  fileAfter fs (map (fun call => (call.1, f call.2)) calls) before filePath
  = match fileAfter fs calls None filePath with
    | Some data => Some (f data)
    | None => before
    end.
Proof.
  unfold fileAfter. destruct (fs filePath); [done|].
  rewrite (last_filter_map (fun call : string * C => (call.1, f call.2))
             (fun call : string * D => call.1 = filePath)).
  cbn [fst]. by destruct (last _).
Qed.

Lemma Program_processExecutions_effects (os : Program.OS) (sm : StateMachine.t)
    (outputDir : string) (w : Program.world) :
  wrote os w (Program.processExecutions os sm outputDir w)
    (map (fun call => (call.1, Program.ExecutionData call.2)) (executionWrites outputDir sm))
  /\ Program.console (Program.processExecutions os sm outputDir w)
     = Program.console w ++ executionsConsole (Program.writeFile os) outputDir sm.
Proof.
  unfold Program.processExecutions. cbv zeta.
  destruct (processExecutions_run (Program.writeFile os) sm outputDir
              {| writeCalls := []; files := ∅; console := [] |}) as (Hc & Ho & Hf).
  cbn [writeCalls console files app] in Hc, Ho, Hf.
  rewrite Hc, Ho. split; [|done]. split; [done|]. split; [|done].
  cbn [Program.files]. intros filePath. rewrite fileAfter_map.
  specialize (Hf filePath). rewrite lookup_empty in Hf. rewrite <- Hf.
  destruct (files _ !! filePath) as [data|] eqn:Hfresh.
  - apply lookup_union_Some_l. by rewrite lookup_fmap, Hfresh.
  - apply lookup_union_r. by rewrite lookup_fmap, Hfresh.
Qed.

Lemma processStateMachines_loop (enc : Program.Encoder) (os : Program.OS)
    (outputDir : string) (stateMachines : list StateMachine.t) (w : Program.world) :
  let w' :=
    fold_left (fun w sm => Program.processExecutions os sm outputDir
                             (Program.processStates enc os sm outputDir w))
      stateMachines w in
  wrote os w w' (flat_map (machineWrites enc outputDir) stateMachines)
  /\ Program.console w'
     = Program.console w ++ flat_map (machineConsole enc os outputDir) stateMachines.
Proof.
  cbv zeta. revert w. induction stateMachines as [|sm stateMachines IH]; intros w.
  - cbn. rewrite app_nil_r. split; [by apply wrote_nothing|done].
  - cbn [fold_left flat_map].
    destruct (processStates_effects_aux enc os sm outputDir w) as (Hs & Hso).
    destruct (Program_processExecutions_effects os sm outputDir
                (Program.processStates enc os sm outputDir w)) as (He & Heo).
    destruct (IH (Program.processExecutions os sm outputDir
                    (Program.processStates enc os sm outputDir w))) as (Hr & Hro).
    split.
    + unfold machineWrites at 1. eapply wrote_trans; [|exact Hr].
      eapply wrote_trans; [exact Hs|exact He].
    + rewrite Hro, Heo, Hso. unfold machineConsole at 2, statesConsole.
      by rewrite <- !app_assoc.
Qed.

Lemma processStateMachines_effects_aux (enc : Program.Encoder) (os : Program.OS)
    (stateMachines : list StateMachine.t) (outputDir : string) (w : Program.world) :
  wrote os w (Program.processStateMachines enc os stateMachines outputDir w)
    (flat_map (machineWrites enc outputDir) stateMachines
       ++ collectionWrite enc outputDir stateMachines)
  /\ Program.console (Program.processStateMachines enc os stateMachines outputDir w)
     = Program.console w
         ++ flat_map (machineConsole enc os outputDir) stateMachines
         ++ collectionLog enc os outputDir stateMachines.
Proof.
  unfold Program.processStateMachines. cbv zeta.
  destruct (processStateMachines_loop enc os outputDir stateMachines w) as (Hw & Ho).
  cbv zeta in Hw, Ho. set (w1 := fold_left _ stateMachines w) in *.
  unfold Program.saveToFile, collectionWrite, collectionLog.
  fold (collectionPath outputDir).
  destruct (Program.marshalStateMachines enc stateMachines) as [data|err].
  - destruct (wrote_WriteFile os (collectionPath outputDir) (Program.Bytes data) w1)
      as (Hw' & Ho' & He).
    destruct (Program.WriteFile os _ _ w1) as [failure w2]. cbn [fst snd] in *.
    subst failure. destruct (Program.writeFile os (collectionPath outputDir)) as [err|].
    + split.
      * eapply wrote_trans; [exact Hw|]. destruct Hw' as (? & ? & ?). by repeat split.
      * cbn. by rewrite Ho', Ho, <- app_assoc.
    + split; [by eapply wrote_trans|]. by rewrite Ho', Ho, !app_nil_r.
  - split.
    + rewrite app_nil_r. destruct Hw as (? & ? & ?). by repeat split.
    + cbn. by rewrite Ho, <- app_assoc.
Qed.

(** X14: [processStateMachines] goes through the machines in order, for each
    one writing the files of its states and then those of its executions,
    and at the end writes the collection to [state_machines.json], whatever
    failed before; when the collection does not marshal there is no such
    call.  Every failure is a log line; none stops the loop. *)
Theorem processStateMachines_effects (enc : Program.Encoder) (os : Program.OS)
    (stateMachines : list StateMachine.t) (outputDir : string) (w : Program.world) :
  let calls :=
    flat_map (machineWrites enc outputDir) stateMachines
      ++ collectionWrite enc outputDir stateMachines in
  let w' := Program.processStateMachines enc os stateMachines outputDir w in
  Program.writeCalls w' = Program.writeCalls w ++ calls
  /\ (forall filePath,
        Program.files w' !! filePath
        = match Program.writeFile os filePath with
          | Some _ => Program.files w !! filePath
          | None =>
              match last (filter (fun call => call.1 = filePath) calls) with
              | Some call => Some call.2
              | None => Program.files w !! filePath
              end
          end)
  /\ Program.directories w' = Program.directories w
  /\ Program.console w'
     = Program.console w
         ++ flat_map (machineConsole enc os outputDir) stateMachines
         ++ collectionLog enc os outputDir stateMachines.
Proof.
  intros calls w'.
  destruct (processStateMachines_effects_aux enc os stateMachines outputDir w)
    as ((Hc & Hf & Hd) & Ho).
  done.
Qed.

(** ** The program *)

Lemma printFetcherOutput_effects (env : Program.Env) (w : Program.world) :
  Program.writeCalls (Program.printFetcherOutput env w) = Program.writeCalls w
  /\ Program.files (Program.printFetcherOutput env w) = Program.files w
  /\ Program.directories (Program.printFetcherOutput env w) = Program.directories w
  /\ Program.console (Program.printFetcherOutput env w)
     = Program.console w ++ fetcherLines env.
Proof.
  unfold Program.printFetcherOutput, fetcherLines.
  revert w. induction (Program.fetcherOutput env) as [|text texts IH]; intros w.
  - cbn. by rewrite app_nil_r.
  - cbn [fold_left map]. destruct (IH (Program.emit (Printed text) w)) as (-> & -> & -> & ->).
    cbn. by rewrite <- app_assoc.
Qed.

Lemma main_returns (env : Program.Env) (region outputDir : string) (w : Program.world)
    (fetcher : AWS) (stateMachines : list StateMachine.t) :
  Program.LoadDefaultConfig env region = Ok fetcher ->
  ListStateMachines (Program.order env) fetcher = Done (Ok stateMachines) ->
  Program.mkdirAll (Program.os env) outputDir = None ->
  exists w',
    Program.main env region outputDir w = Program.Returns tt w'
    /\ Program.directories w' = Program.directories w ++ [outputDir]
    /\ Program.writeCalls w'
       = Program.writeCalls w
           ++ flat_map (machineWrites (Program.encoder env) outputDir) stateMachines
           ++ collectionWrite (Program.encoder env) outputDir stateMachines
    /\ (forall filePath,
          Program.files w' !! filePath
          = fileAfter (Program.writeFile (Program.os env))
              (flat_map (machineWrites (Program.encoder env) outputDir) stateMachines
                 ++ collectionWrite (Program.encoder env) outputDir stateMachines)
              (Program.files w !! filePath) filePath)
    /\ Program.console w'
       = Program.console w ++ fetcherLines env ++ machinesConsole stateMachines
           ++ flat_map (machineConsole (Program.encoder env) (Program.os env) outputDir)
                stateMachines
           ++ collectionLog (Program.encoder env) (Program.os env) outputDir stateMachines
           ++ closingLines outputDir.
Proof.
  intros Hcfg Hlist Hmk.
  unfold Program.main, Program.initializeFetcherAndStateMachines, Program.NewFetcher,
    Program.createOutputDirectory.
  rewrite Hcfg, Hlist, Hmk. cbv zeta. eexists. split; [reflexivity|].
  destruct (printFetcherOutput_effects env w) as (Hpc & Hpf & Hpd & Hpo).
  set (w1 := Program.printFetcherOutput env w) in *.
  match goal with
  | |- context [Program.processStateMachines ?e ?o ?s ?d ?w0] =>
      destruct (processStateMachines_effects_aux e o s d w0) as ((Hc & Hf & Hd) & Ho);
      set (w4 := Program.processStateMachines e o s d w0) in *
  end.
  cbn [Program.emit Program.directories Program.writeCalls Program.files Program.console
       Program.displayStateMachines] in *.
  rewrite Hd, Hc, Ho, Hpc, Hpd, Hpo. split; [done|]. split; [done|].
  split; [intros filePath; by rewrite Hf, Hpf|].
  unfold machinesConsole, closingLines. by rewrite <- !app_assoc.
Qed.

(** X15: [main] returns exactly when the configuration loads, the machines can
    be listed and the output directory can be made; it has then made the
    directory, made the write calls of [processStateMachines] and printed,
    after the lines of the fetcher, its tables and its closing lines,
    whatever writes failed.  It ends by [log.Fatalf] when one of the three
    fails, and by a panic when the listing panics; in both cases no file
    has been written, and when the configuration or the listing is what
    failed, or the listing panicked, no directory has been asked for. *)
Theorem main_outcome (env : Program.Env) (region outputDir : string) (w : Program.world) :
  match Program.main env region outputDir w with
  | Program.Returns _ w' =>
      exists fetcher stateMachines,
        Program.LoadDefaultConfig env region = Ok fetcher
        /\ ListStateMachines (Program.order env) fetcher = Done (Ok stateMachines)
        /\ Program.mkdirAll (Program.os env) outputDir = None
        /\ Program.directories w' = Program.directories w ++ [outputDir]
        /\ Program.writeCalls w'
           = Program.writeCalls w
               ++ flat_map (machineWrites (Program.encoder env) outputDir) stateMachines
               ++ collectionWrite (Program.encoder env) outputDir stateMachines
        /\ Program.console w'
           = Program.console w ++ fetcherLines env ++ machinesConsole stateMachines
               ++ flat_map (machineConsole (Program.encoder env) (Program.os env) outputDir)
                    stateMachines
               ++ collectionLog (Program.encoder env) (Program.os env) outputDir
                    stateMachines
               ++ closingLines outputDir
  | Program.Fatal w' =>
      Program.writeCalls w' = Program.writeCalls w
      /\ Program.files w' = Program.files w
      /\ ((exists e,
             Program.LoadDefaultConfig env region = Err e
             /\ Program.directories w' = Program.directories w
             /\ Program.console w'
                = Program.console w
                    ++ [Logged "Failed to create fetcher"
                          (Wrap "failed to load AWS config" e)])
          \/ (exists fetcher e,
                Program.LoadDefaultConfig env region = Ok fetcher
                /\ ListStateMachines (Program.order env) fetcher = Done (Err e)
                /\ Program.directories w' = Program.directories w
                /\ Program.console w'
                   = Program.console w ++ fetcherLines env
                       ++ [Logged "Failed to list state machines" e])
          \/ (exists fetcher stateMachines e,
                Program.LoadDefaultConfig env region = Ok fetcher
                /\ ListStateMachines (Program.order env) fetcher
                   = Done (Ok stateMachines)
                /\ Program.mkdirAll (Program.os env) outputDir = Some e
                /\ Program.console w'
                   = Program.console w ++ fetcherLines env
                       ++ [Logged "Failed to create output directory" e]))
  | Program.Panics reason w' =>
      Program.writeCalls w' = Program.writeCalls w
      /\ Program.files w' = Program.files w
      /\ Program.directories w' = Program.directories w
      /\ Program.console w' = Program.console w ++ fetcherLines env
      /\ exists fetcher,
           Program.LoadDefaultConfig env region = Ok fetcher
           /\ ListStateMachines (Program.order env) fetcher = Panic reason
  end.
Proof.
  destruct (printFetcherOutput_effects env w) as (Hpc & Hpf & Hpd & Hpo).
  destruct (Program.LoadDefaultConfig env region) as [fetcher|e] eqn:Hcfg; cycle 1.
  { unfold Program.main, Program.initializeFetcherAndStateMachines, Program.NewFetcher.
    rewrite Hcfg. cbn. do 2 (split; [done|]). left. by exists e. }
  destruct (ListStateMachines (Program.order env) fetcher) as [[stateMachines|e]|reason]
    eqn:Hlist.
  - destruct (Program.mkdirAll (Program.os env) outputDir) as [e|] eqn:Hmk.
    + unfold Program.main, Program.initializeFetcherAndStateMachines, Program.NewFetcher,
        Program.createOutputDirectory.
      rewrite Hcfg, Hlist, Hmk. cbv zeta.
      cbn [Program.logPrintf Program.emit Program.writeCalls Program.files Program.console].
      rewrite Hpo, <- app_assoc. do 2 (split; [done|]). right. right.
      by exists fetcher, stateMachines, e.
    + destruct (main_returns env region outputDir w fetcher stateMachines Hcfg Hlist Hmk)
        as (w' & -> & Hd & Hc & _ & Ho).
      by exists fetcher, stateMachines.
  - unfold Program.main, Program.initializeFetcherAndStateMachines, Program.NewFetcher.
    rewrite Hcfg, Hlist. cbv zeta.
    cbn [Program.logPrintf Program.emit Program.writeCalls Program.files Program.console
         Program.directories].
    rewrite Hpo, <- app_assoc. do 2 (split; [done|]). right. left. by exists fetcher, e.
  - unfold Program.main, Program.initializeFetcherAndStateMachines, Program.NewFetcher.
    rewrite Hcfg, Hlist. cbv zeta. do 4 (split; [done|]). by exists fetcher.
Qed.

(** X16: A run that finds no state machine makes the output directory, writes
    one file, [state_machines.json] with the encoding of the empty
    collection, and returns. *)
Theorem main_no_state_machines (env : Program.Env) (region outputDir : string)
    (w : Program.world) (fetcher : AWS) (data : string) :
  Program.LoadDefaultConfig env region = Ok fetcher ->
  ListStateMachines (Program.order env) fetcher = Done (Ok []) ->
  Program.mkdirAll (Program.os env) outputDir = None ->
  Program.marshalStateMachines (Program.encoder env) [] = Ok data ->
  exists w',
    Program.main env region outputDir w = Program.Returns tt w'
    /\ Program.directories w' = Program.directories w ++ [outputDir]
    /\ Program.writeCalls w'
       = Program.writeCalls w ++ [(Join outputDir "state_machines.json", Program.Bytes data)]
    /\ (forall filePath,
          Program.files w' !! filePath
          = if decide (filePath = Join outputDir "state_machines.json"
                       /\ Program.writeFile (Program.os env) filePath = None)
            then Some (Program.Bytes data)
            else Program.files w !! filePath).
Proof.
  intros Hcfg Hlist Hmk Hdata.
  destruct (main_returns env region outputDir w fetcher [] Hcfg Hlist Hmk)
    as (w' & Hmain & Hd & Hc & Hf & _).
  exists w'. unfold collectionWrite, collectionPath in Hc, Hf. rewrite Hdata in Hc, Hf.
  cbn [flat_map app] in Hc, Hf. do 3 (split; [done|]).
  intros filePath. rewrite Hf. unfold fileAfter. rewrite filter_cons, filter_nil. cbn [fst].
  destruct (decide (Join outputDir "state_machines.json" = filePath)) as [<-|Hne].
  - destruct (Program.writeFile (Program.os env) _) eqn:Hw.
    + rewrite decide_False; [done|]. by intros [_ ?].
    + by rewrite decide_True.
  - rewrite decide_False by (intros [-> _]; done).
    by destruct (Program.writeFile (Program.os env) filePath).
Qed.

(** ** Definitions and the order of Go's map loops *)

Lemma rangeOf_empty (ro : RangeOrder) (A : Type) : rangeOf ro (∅ : gmap string A) = [].
Proof.
  apply Permutation_nil_r. rewrite (rangeOf_perm ro). by rewrite map_to_list_empty.
Qed.

(** X17: A definition that is [null], or an object without a member for
    [States], has no states: [parseDefinition] returns the empty list and
    no error, whatever the other members hold. *)
Theorem parseDefinition_without_states (ro : RangeOrder) :
  parseDefinition ro (Some JNull) = Ok []
  /\ forall members,
       Forall (fun kv => isStatesKey kv.1 = false) members ->
       parseDefinition ro (Some (JObject members)) = Ok [].
Proof.
  split.
  - unfold parseDefinition. cbn. by rewrite rangeOf_empty.
  - intros members Hno. unfold parseDefinition, UnmarshalAslDef.
    rewrite structInto_filter.
    replace (filter (fun kv : string * json => isStatesKey kv.1 = true) members)
      with (@nil (string * json)).
    + cbn. by rewrite rangeOf_empty.
    + symmetry. induction Hno as [|kv members Hkv _ IH]; [done|].
      rewrite filter_cons, decide_False by congruence. exact IH.
Qed.

(** X18: Whether [parseDefinition] fails, and with which error, does not depend
    on the order in which Go ranges over the map of states; when it
    succeeds, two orders give the same entries up to their order, and no
    two entries have the same name. *)
Theorem parseDefinition_any_order (ro ro' : RangeOrder) (definition : document) :
  match parseDefinition ro definition, parseDefinition ro' definition with
  | Ok states, Ok states' => states ≡ₚ states' /\ NoDup (State.Name <$> states)
  | Err e, Err e' => e = e'
  | _, _ => False
  end.
Proof.
  unfold parseDefinition. destruct (UnmarshalAslDef definition) as [aslDefStates|e]; [|done].
  split.
  - change (map stateOf) with (fmap (M:=list) stateOf).
    by rewrite (rangeOf_perm ro), (rangeOf_perm ro').
  - rewrite stateOf_Name, (rangeOf_perm ro). apply NoDup_fst_map_to_list.
Qed.

(** ** Time: which instants read back *)

Local Open Scope Z_scope.

(** Outside the years 0000 to 9999 the year of a day count is negative or
    has five digits at least. *)
Lemma civilFromDays_year_outside (days : Z) :
  let '(y, _, _) := civilFromDays days in
  (days < -719528 -> y < 0) /\ (2932896 < days -> 10000 <= y).
Proof.
  unfold civilFromDays.
  set (z := days + 719468). set (era := z / 146097). set (doe := z mod 146097).
  assert (Hz : z = 146097 * era + doe) by (apply Z.div_mod; lia).
  assert (Hdoe : 0 <= doe < 146097) by (apply Z.mod_pos_bound; lia).
  destruct (yearOfEra_spec doe Hdoe) as (Hyoe & Hdoy & Hsum).
  set (yoe := yearOfEra doe) in *. set (doy := dayOfYear doe) in *.
  assert (Hlen : doy < 366) by (unfold yearLength in Hdoy; destruct (isLeap _); lia).
  pose proof (dayCheck_all doy ltac:(lia)) as Hc. unfold dayCheck in Hc.
  set (mp := (5 * doy + 2) / 153) in *.
  set (m := if mp <? 10 then mp + 3 else mp - 9) in *.
  repeat (apply andb_true_iff in Hc as [Hc ?]).
  match goal with H : Bool.eqb _ _ = true |- _ => apply Bool.eqb_prop in H; rename H into Hjf end.
  rewrite Hjf.
  assert (Hstart : yoe <= 398 -> yearStart yoe + 366 <= 145732)
    by (intros ?; unfold yearStart; Z.div_mod_to_equations; lia).
  assert (H399 : yoe = 399 -> yearStart yoe = 145731) by (by intros ->).
  split; intros Hr; destruct (306 <=? doy) eqn:Hd; lia.
Qed.

Lemma isDigit_digitChar (d : Z) : 0 <= d < 10 -> isDigit (digitChar d) = true.
Proof.
  apply (allBelow 10 (fun d => isDigit (digitChar d))). vm_compute. reflexivity.
Qed.

Lemma allDigits_append (a b : string) :
  allDigits (a +:+ b) = allDigits a && allDigits b.
Proof.
  induction a as [|c a IH]; [reflexivity|]. rewrite append_cons. cbn [allDigits].
  by rewrite IH, andb_assoc.
Qed.

Lemma utoaLoop_digits (fuel : nat) (u : Z) (acc : string) :
  0 <= u ->
  exists digits,
    utoaLoop fuel u acc = digits +:+ acc
    /\ allDigits digits = true
    /\ forall k : nat, 10 ^ Z.of_nat k <= u < 2 ^ Z.of_nat fuel ->
         (k < String.length digits)%nat.
Proof.
  revert u acc. induction fuel as [|fuel IH]; intros u acc Hu.
  - exists EmptyString. split; [done|]. split; [done|]. intros k Hk.
    assert (0 < 10 ^ Z.of_nat k) by (apply Z.pow_pos_nonneg; lia). cbn in Hk. lia.
  - cbn [utoaLoop]. cbv zeta.
    assert (Hd : isDigit (digitChar (u mod 10)) = true)
      by (apply isDigit_digitChar, Z.mod_pos_bound; lia).
    destruct (Z.eqb_spec (u / 10) 0) as [Hz|Hnz].
    + exists (String (digitChar (u mod 10)) EmptyString). split; [done|].
      split; [cbn [allDigits]; by rewrite Hd|]. intros k [Hk _]. cbn [String.length].
      destruct k as [|k]; [lia|]. exfalso.
      assert (10 ^ 1 <= 10 ^ Z.of_nat (S k)) by (apply Z.pow_le_mono_r; lia).
      assert (u < 10) by (Z.div_mod_to_equations; lia). lia.
    + destruct (IH (u / 10) (String (digitChar (u mod 10)) acc)
                  ltac:(Z.div_mod_to_equations; lia)) as (digits & -> & Hall & Hlen).
      exists (digits +:+ String (digitChar (u mod 10)) EmptyString).
      split; [by rewrite append_assoc|].
      split; [rewrite allDigits_append, Hall; cbn [allDigits]; by rewrite Hd|].
      intros k [Hk Hfuel]. rewrite length_append. cbn [String.length].
      destruct k as [|k]; [lia|].
      assert (Hpow : 10 ^ Z.of_nat (S k) = 10 * 10 ^ Z.of_nat k)
        by (rewrite Nat2Z.inj_succ, Z.pow_succ_r; lia).
      assert (Hpow2 : 2 ^ Z.of_nat (S fuel) = 2 * 2 ^ Z.of_nat fuel)
        by (rewrite Nat2Z.inj_succ, Z.pow_succ_r; lia).
      assert (0 < 2 ^ Z.of_nat fuel) by (apply Z.pow_pos_nonneg; lia).
      specialize (Hlen k ltac:(split; Z.div_mod_to_equations; nia)). lia.
Qed.

Lemma utoa_five_digits (u : Z) :
  10000 <= u ->
  exists c1 c2 c3 c4 c5 rest,
    utoa u = String c1 (String c2 (String c3 (String c4 (String c5 rest))))
    /\ isDigit c1 = true /\ isDigit c2 = true /\ isDigit c3 = true
    /\ isDigit c4 = true /\ isDigit c5 = true.
Proof.
  intros Hu. unfold utoa.
  destruct (utoaLoop_digits (S (Z.to_nat (Z.log2 u))) u EmptyString ltac:(lia))
    as (digits & -> & Hall & Hlen).
  specialize (Hlen 4%nat). rewrite append_nil_r.
  assert (Hfuel : u < 2 ^ Z.of_nat (S (Z.to_nat (Z.log2 u)))).
  { pose proof (Z.log2_nonneg u). rewrite Nat2Z.inj_succ, Z2Nat.id by done.
    apply Z.log2_spec. lia. }
  specialize (Hlen ltac:(split; [exact Hu|exact Hfuel])).
  destruct digits as [|c1 [|c2 [|c3 [|c4 [|c5 rest]]]]]; cbn [String.length] in Hlen; try lia.
  cbn [allDigits] in Hall. repeat (apply andb_true_iff in Hall as [? Hall]).
  exists c1, c2, c3, c4, c5, rest. done.
Qed.

(** A year outside 0000 to 9999 does not parse. *)
Lemma ParseRFC3339_year_outside (y : Z) (rest : string) :
  y < 0 \/ 10000 <= y -> ParseRFC3339 (appendInt y 4 +:+ rest) = None.
Proof.
  intros [Hneg|Hbig]; unfold appendInt; cbv zeta.
  - rewrite (proj2 (Z.ltb_lt y 0)) by done. rewrite !append_cons. reflexivity.
  - rewrite (proj2 (Z.ltb_ge y 0)) by lia. rewrite append_nil_l.
    rewrite Z.abs_eq by lia.
    destruct (utoa_five_digits y Hbig) as (c1 & c2 & c3 & c4 & c5 & digits & -> & H1 & H2
                                            & H3 & H4 & H5).
    cbn [String.length Nat.sub zeros]. rewrite append_nil_l, !append_cons.
    unfold ParseRFC3339, isDigit in *. cbn [getDigits].
    destruct (digitVal c1); [|done]. destruct (digitVal c2); [|done].
    destruct (digitVal c3); [|done]. destruct (digitVal c4); [|done].
    cbn [mbind option_bind expect].
    destruct (Ascii.eqb_spec "-" c5) as [<-|_]; [done|reflexivity].
Qed.

(** X19: [time.Parse] reads what [time.Format] printed exactly for the instants
    of the years 0000 to 9999, and then gives the instant cut to whole
    seconds; for every other instant it fails, and the program, which drops
    the error, goes on with the zero time. *)
Theorem parseOrZero_FormatRFC3339 (t : Time) :
  (fourDigitYear t ->
     ParseRFC3339 (FormatRFC3339 t) = Some (truncSecond t)
     /\ truncSecond t <= t < truncSecond t + Second)
  /\ (~ fourDigitYear t ->
        ParseRFC3339 (FormatRFC3339 t) = None
        /\ parseOrZero (FormatRFC3339 t) = zeroTime).
Proof.
  split.
  - intros H. split; [by apply Parse_Format|].
    unfold truncSecond, Unix, Second. Z.div_mod_to_equations. lia.
  - intros Hout.
    assert (Hnone : ParseRFC3339 (FormatRFC3339 t) = None).
    { unfold fourDigitYear in Hout. unfold FormatRFC3339. cbv zeta.
      pose proof (civilFromDays_year_outside (Unix t / 86400)) as Hy.
      destruct (civilFromDays (Unix t / 86400)) as [[y m] d].
      apply ParseRFC3339_year_outside.
      destruct Hy as [Hlo Hhi].
      destruct (Z_lt_le_dec (Unix t) (-62167219200)) as [Hl|Hl].
      - left. apply Hlo. Z.div_mod_to_equations. lia.
      - right. apply Hhi. Z.div_mod_to_equations. lia. }
    split; [done|]. unfold parseOrZero. by rewrite Hnone.
Qed.

(** ** A panic ends the run *)

Lemma detailsOfPage_panics (ro : RangeOrder) (aws : AWS) (page : list string)
    (stateMachines : list StateMachine.t) :
  panics (detailsOfPage ro aws page stateMachines) = true
  <-> Exists (fun arn => panics (getStateMachineDetails ro aws arn) = true) page.
Proof.
  revert stateMachines. induction page as [|arn page IH]; intros stateMachines.
  - cbn. split; [done|]. by intros ?%Exists_nil.
  - cbn [detailsOfPage]. rewrite Exists_cons.
    destruct (getStateMachineDetails ro aws arn) as [[details|e]|r]; cbn [panics].
    + rewrite IH. split; [by right|]. by intros [?|?].
    + rewrite IH. split; [by right|]. by intros [?|?].
    + split; [by left|done].
Qed.

Lemma detailsOfPages_panics (ro : RangeOrder) (aws : AWS)
    (pages : list (result (list string))) (stateMachines : list StateMachine.t) :
  panics (detailsOfPages ro aws pages stateMachines) = true
  <-> Exists (fun arn => panics (getStateMachineDetails ro aws arn) = true) (listed pages).
Proof.
  revert stateMachines. induction pages as [|[page|e] pages IH]; intros stateMachines.
  - cbn. split; [done|]. by intros ?%Exists_nil.
  - cbn [detailsOfPages listed]. rewrite Exists_app.
    pose proof (detailsOfPage_panics ro aws page stateMachines) as Hpage.
    destruct (detailsOfPage ro aws page stateMachines) as [[stateMachines'|e]|r] eqn:Hd;
      cbn [panics] in *.
    + rewrite IH. split; [by right|]. intros [H|H]; [|done]. by apply Hpage in H.
    + exfalso. clear -Hd. revert stateMachines Hd.
      induction page as [|arn page IHp]; intros stateMachines; [done|].
      cbn [detailsOfPage]. destruct (getStateMachineDetails ro aws arn) as [[?|?]|?];
        [apply IHp|apply IHp|done].
    + split; [|done]. intros _. left. by apply Hpage.
  - cbn. split; [done|]. by intros ?%Exists_nil.
Qed.

(** X20: [ListStateMachines] panics exactly when [getStateMachineDetails] panics
    for one of the machines listed before the first page that fails: the
    panic of one machine ends the listing of all. *)
Theorem ListStateMachines_panics (ro : RangeOrder) (aws : AWS) :
  panics (ListStateMachines ro aws) = true
  <-> exists arn,
        arn ∈ listed (ListStateMachinesPages aws)
        /\ panics (getStateMachineDetails ro aws arn) = true.
Proof.
  unfold ListStateMachines. rewrite detailsOfPages_panics, Exists_exists. done.
Qed.

(** X21: When the details of one listed machine panic, [main] ends by that panic
    after the lines the fetcher has printed: it has asked for no directory,
    written no file and printed no table. *)
Theorem main_panics (env : Program.Env) (region outputDir : string) (w : Program.world)
    (fetcher : AWS) (arn : string) :
  Program.LoadDefaultConfig env region = Ok fetcher ->
  arn ∈ listed (ListStateMachinesPages fetcher) ->
  panics (getStateMachineDetails (Program.order env) fetcher arn) = true ->
  exists reason w',
    Program.main env region outputDir w = Program.Panics reason w'
    /\ Program.writeCalls w' = Program.writeCalls w
    /\ Program.files w' = Program.files w
    /\ Program.directories w' = Program.directories w
    /\ Program.console w' = Program.console w ++ fetcherLines env.
Proof.
  intros Hcfg Hin Hpanic.
  assert (Hlist : panics (ListStateMachines (Program.order env) fetcher) = true).
  { unfold ListStateMachines. rewrite detailsOfPages_panics, Exists_exists. eauto. }
  unfold Program.main, Program.initializeFetcherAndStateMachines, Program.NewFetcher.
  rewrite Hcfg. destruct (ListStateMachines (Program.order env) fetcher) as [?|reason];
    [done|].
  cbv zeta. exists reason, (Program.printFetcherOutput env w). split; [done|].
  apply printFetcherOutput_effects.
Qed.

(** ** The placeholder of an unknown type *)

(** X22: For a machine whose type is neither EXPRESS nor STANDARD the details
    carry one record, the placeholder [N/A] that names the type;
    [processExecutions] shows it as the one row of the table and writes no
    file for it. *)
Theorem unknown_type_placeholder (ro : RangeOrder) (aws : AWS) (arn : string)
    (details : StateMachine.t) (fs : FileSystem) (outputDir : string) (w : world) :
  getStateMachineDetails ro aws arn = Done (Ok details) ->
  StateMachine.Type_ details <> "EXPRESS"%string ->
  StateMachine.Type_ details <> "STANDARD"%string ->
  StateMachine.Executions details
  = [sentinel ("Unknown state machine type: " +:+ StateMachine.Type_ details)]
  /\ writeCalls (processExecutions fs details outputDir w) = writeCalls w
  /\ files (processExecutions fs details outputDir w) = files w
  /\ console (processExecutions fs details outputDir w)
     = console w
         ++ [Printed ("Executions for " +:+ StateMachine.Name details +:+ ":");
             Rendered ["Execution ARN"; "Status"; "Start Time"; "End Time"; "Duration"]%string
               [["N/A"; "Unknown state machine type: " +:+ StateMachine.Type_ details;
                 EmptyString; EmptyString; "N/A"]%string];
             Printed EmptyString].
Proof.
  intros Hdetails Hx Hs.
  assert (Hexecs : StateMachine.Executions details
                   = [sentinel ("Unknown state machine type: "
                                  +:+ StateMachine.Type_ details)]).
  { unfold getStateMachineDetails in Hdetails.
    destruct (DescribeStateMachine aws arn) as [result|e]; [|done].
    destruct (parseDefinition ro (sfn.Definition_ result)) as [states|e]; [|done].
    unfold fetchExecutions in Hdetails.
    destruct (String.eqb_spec (sfn.Type_ result) "EXPRESS") as [Hx'|Hx'].
    { destruct (getExpressExecutions ro aws result) as [[?|?]|?]; try done;
        injection Hdetails as <-; by destruct Hx. }
    destruct (String.eqb_spec (sfn.Type_ result) "STANDARD") as [Hs'|Hs'].
    { destruct (getExecutions aws arn); [|done]. injection Hdetails as <-. by destruct Hs. }
    by injection Hdetails as <-. }
  split; [done|]. unfold processExecutions. rewrite Hexecs. cbn [fold_left].
  rewrite processExecution_step, decide_True by done.
  cbn [emit writeCalls files console]. by rewrite <- !app_assoc.
Qed.

(** ** Sample runs *)

Local Open Scope string_scope.
Local Open Scope list_scope.

(** The theorem on [threeMachines]: the machine that cannot be described is
    left out, the other two are returned in the order of the listing. *)
Lemma ListStateMachines_listing_witness :
  exists a c,
    ListStateMachines canonicalOrder threeMachines = Done (Ok [a; c])
    /\ StateMachine.ARN a = "arn:a" /\ StateMachine.ARN c = "arn:c"
    /\ Execution.ExecutionArn <$> StateMachine.Executions a = ["E1"].
Proof.
  assert (H : Forall (fun arn => panics (getStateMachineDetails canonicalOrder threeMachines arn)
                                 = false)
                (listed (ListStateMachinesPages threeMachines))).
  { repeat constructor. }
  rewrite (ListStateMachines_listing canonicalOrder threeMachines H).
  vm_compute. do 2 eexists. split; [reflexivity|]. repeat split.
Defined.

(** The theorem on a start event of [X] followed by a closing event of
    another execution. *)
Lemma express_running_record_witness :
  Execution.mk "X" "RUNNING" (stamp (logEvent.mk "ExecutionStarted" "X" 1000 ""))
    EmptyString "N/A"
    ∈ collect canonicalOrder
        (correlate [Ok (logEvent.mk "ExecutionStarted" "X" 1000 "");
                    Ok (logEvent.mk "ExecutionSucceeded" "Y" 2000 "")]).
Proof.
  apply (express_running_record canonicalOrder
           [Ok (logEvent.mk "ExecutionStarted" "X" 1000 "");
            Ok (logEvent.mk "ExecutionSucceeded" "Y" 2000 "")]
           "X" (logEvent.mk "ExecutionStarted" "X" 1000 "")).
  - reflexivity.
  - repeat constructor.
Defined.

(** The theorem on [emptyAccount]. *)
Lemma main_no_state_machines_witness :
  exists w',
    Program.main emptyAccount "us-west-2" "out" emptyWorld = Program.Returns tt w'
    /\ Program.directories w' = ["out"]
    /\ Program.writeCalls w' = [("out/state_machines.json", Program.Bytes "null")].
Proof.
  destruct (main_no_state_machines emptyAccount "us-west-2" "out" emptyWorld
              oneExecution "null" eq_refl eq_refl eq_refl eq_refl)
    as (w' & Hmain & Hd & Hc & _).
  exists w'. split; [exact Hmain|]. split; [exact Hd|exact Hc].
Defined.

(** The theorem on [brokenExpressRun]. *)
Lemma main_panics_witness :
  exists reason w',
    Program.main brokenExpressRun "us-west-2" "out" emptyWorld
    = Program.Panics reason w'
    /\ Program.writeCalls w' = [] /\ Program.directories w' = []
    /\ Program.console w'
       = [Printed "Debug: State machine x type: EXPRESS";
          Printed "Debug: Fetching executions from CloudWatch Logs for Express Workflow x"].
Proof.
  destruct (main_panics brokenExpressRun "us-west-2" "out" emptyWorld brokenExpress "arn:x"
              eq_refl)
    as (reason & w' & Hmain & Hc & _ & Hd & Ho).
  - left.
  - reflexivity.
  - exists reason, w'. split; [exact Hmain|]. split; [exact Hc|]. split; [exact Hd|exact Ho].
Defined.

(** The theorem on the machine [arn:c] of [threeMachines], whose type is
    [ACTIVITY]. *)
Lemma unknown_type_placeholder_witness :
  exists details,
    getStateMachineDetails canonicalOrder threeMachines "arn:c" = Done (Ok details)
    /\ StateMachine.Executions details
       = [Execution.mk "N/A" "Unknown state machine type: ACTIVITY" EmptyString EmptyString
          "N/A"]
    /\ writeCalls (processExecutions (fun _ => None) details "out"
                     {| writeCalls := []; files := ∅; console := [] |}) = [].
Proof.
  eexists. split; [reflexivity|].
  match goal with
  | |- StateMachine.Executions ?d = _ /\ _ =>
      destruct (unknown_type_placeholder canonicalOrder threeMachines "arn:c" d
                  (fun _ => None) "out" {| writeCalls := []; files := ∅; console := [] |}
                  eq_refl)
        as (Hexecs & Hcalls & _)
  end.
  - discriminate.
  - discriminate.
  - split; [exact Hexecs|exact Hcalls].
Defined.

